(** * PowerupManager (powerups.js): powerup activation and expiration

    A shallow embedding of the [PowerupManager] class and of the part of the
    host engine it talks to (sprite creation, overlap watches, body
    disabling, delayed calls, the scene clock, the console), followed by the
    properties of the powerup lifecycle.

    Conventions of the embedding.
    - JavaScript numbers (times, durations, coordinates) are integers [Z];
      the source only adds and compares them.
    - A JavaScript object has an identity.  Every object the manager or the
      engine creates takes the next reference of the allocator
      [next_object]; a model value carries its reference, so two values are
      the same object exactly when they are equal.  [Array.prototype.indexOf]
      (strict equality) is therefore decidable equality on the model values.
    - A JavaScript function value (a powerup [effect]) is a reference
      [EffectId]; what the function does when called is supplied separately
      (see [EffectBodies]): the calls it makes back into the manager.  What
      it does to the player is outside the manager and is not modelled; each
      call of an effect function is recorded in [effectCalls].
    - [powerupData] is a plain object: a finite map from type names to
      definitions, its own properties, and beyond them the properties every
      object inherits from [Object.prototype] ([object_prototype]), whose
      values are functions, or [Object.prototype] itself for [__proto__]:
      truthy, and without a [spriteKey], [duration] or [effect]. *)

From stdpp Require Import gmap strings list fin_maps.
From Stdlib Require Import ZArith Lia.

Local Open Scope Z_scope.

Module PowerupManager.

(** ** Data *)

Definition EffectId := nat.
Definition Player := nat.

(** An entry of the [powerupData] table. *)
Record PowerupDefinition := {
  spriteKey : string;
  def_duration : Z;
  def_effect : EffectId
}.

(** A powerup sprite as [createPowerup] leaves it: created by
    [physics.add.sprite(x, y, spriteKey)], tagged by three [setData] calls,
    its body made immovable. *)
Record Sprite := {
  sprite_ref : nat;
  sprite_x : Z;
  sprite_y : Z;
  texture : string;
  data_type : string;
  data_duration : Z;
  data_effect : EffectId;
  immovable : bool
}.

(** The object literal built by [activatePowerup]. *)
Record ActivePowerup := {
  ref : nat;
  type : string;
  duration : Z;
  effect : EffectId;
  expirationTime : Z
}.

(** [physics.add.overlap(player, powerup, activatePowerup, null, this)]. *)
Record Overlap := {
  overlap_player : Player;
  overlap_sprite : Sprite
}.

(** The sprite [createPowerup] leaves for a type that [powerupData] only
    inherits: the texture key it was created with and the [duration] and
    [effect] it was tagged with are [undefined]. *)
Record StraySprite := {
  stray_ref : nat;
  stray_x : Z;
  stray_y : Z;
  stray_type : string;
  stray_immovable : bool
}.

(** The overlap watch registered on such a sprite. *)
Record StrayOverlap := {
  stray_overlap_player : Player;
  stray_overlap_sprite : StraySprite
}.

(** [time.delayedCall(delay, deactivatePowerup, [activePowerup, player], this)]. *)
Record DelayedCall := {
  delay : Z;
  arg_powerup : ActivePowerup;
  arg_player : Player
}.

(** One invocation of an effect function: [effect(player, flag)] with the
    receiver it was called on ([None] for a plain call). *)
Record EffectCall := {
  called : EffectId;
  receiver : option ActivePowerup;
  on_player : Player;
  activating : bool
}.

#[global] Instance PowerupDefinition_eq_dec : EqDecision PowerupDefinition.
Proof. solve_decision. Defined.
#[global] Instance Sprite_eq_dec : EqDecision Sprite.
Proof. solve_decision. Defined.
#[global] Instance ActivePowerup_eq_dec : EqDecision ActivePowerup.
Proof. solve_decision. Defined.
#[global] Instance Overlap_eq_dec : EqDecision Overlap.
Proof. solve_decision. Defined.
#[global] Instance DelayedCall_eq_dec : EqDecision DelayedCall.
Proof. solve_decision. Defined.
#[global] Instance StraySprite_eq_dec : EqDecision StraySprite.
Proof. solve_decision. Defined.
#[global] Instance StrayOverlap_eq_dec : EqDecision StrayOverlap.
Proof. solve_decision. Defined.
#[global] Instance EffectCall_eq_dec : EqDecision EffectCall.
Proof. solve_decision. Defined.

(** The scene the manager was constructed with. *)
Record Scene := {
  player : Player;
  now : Z;
  sprites : list Sprite;
  overlaps : list Overlap;
  disabled : list nat;
  delayedCalls : list DelayedCall;
  stray_sprites : list StraySprite;
  stray_overlaps : list StrayOverlap
}.

(** The manager, its scene, the console and the record of effect calls. *)
Record State := {
  scene : Scene;
  powerupData : gmap string PowerupDefinition;
  activePowerups : list ActivePowerup;
  console : list string;
  effectCalls : list EffectCall;
  next_object : nat
}.

(** ** Engine and console primitives *)

Definition set_scene (sc : Scene) (s : State) : State :=
  {| scene := sc; powerupData := powerupData s;
     activePowerups := activePowerups s; console := console s;
     effectCalls := effectCalls s; next_object := next_object s |}.

Definition set_activePowerups (l : list ActivePowerup) (s : State) : State :=
  {| scene := scene s; powerupData := powerupData s;
     activePowerups := l; console := console s;
     effectCalls := effectCalls s; next_object := next_object s |}.

(** Allocation of a fresh object reference. *)
Definition alloc (s : State) : State :=
  {| scene := scene s; powerupData := powerupData s;
     activePowerups := activePowerups s; console := console s;
     effectCalls := effectCalls s; next_object := S (next_object s) |}.

Definition console_warn (msg : string) (s : State) : State :=
  {| scene := scene s; powerupData := powerupData s;
     activePowerups := activePowerups s; console := console s ++ [msg];
     effectCalls := effectCalls s; next_object := next_object s |}.

Definition record_call (c : EffectCall) (s : State) : State :=
  {| scene := scene s; powerupData := powerupData s;
     activePowerups := activePowerups s; console := console s;
     effectCalls := effectCalls s ++ [c]; next_object := next_object s |}.

Definition physics_add_sprite (sp : Sprite) (s : State) : State :=
  let sc := scene s in
  alloc (set_scene
    {| player := player sc; now := now sc; sprites := sprites sc ++ [sp];
       overlaps := overlaps sc; disabled := disabled sc;
       delayedCalls := delayedCalls sc;
       stray_sprites := stray_sprites sc;
       stray_overlaps := stray_overlaps sc |} s).

Definition physics_add_overlap (p : Player) (sp : Sprite) (s : State) : State :=
  let sc := scene s in
  set_scene
    {| player := player sc; now := now sc; sprites := sprites sc;
       overlaps := overlaps sc ++ [{| overlap_player := p; overlap_sprite := sp |}];
       disabled := disabled sc; delayedCalls := delayedCalls sc;
       stray_sprites := stray_sprites sc;
       stray_overlaps := stray_overlaps sc |} s.

Definition disableBody (sp : Sprite) (s : State) : State :=
  let sc := scene s in
  set_scene
    {| player := player sc; now := now sc; sprites := sprites sc;
       overlaps := overlaps sc; disabled := disabled sc ++ [sprite_ref sp];
       delayedCalls := delayedCalls sc;
       stray_sprites := stray_sprites sc;
       stray_overlaps := stray_overlaps sc |} s.

Definition time_delayedCall (d : Z) (ap : ActivePowerup) (p : Player)
    (s : State) : State :=
  let sc := scene s in
  set_scene
    {| player := player sc; now := now sc; sprites := sprites sc;
       overlaps := overlaps sc; disabled := disabled sc;
       delayedCalls := delayedCalls sc ++
         [{| delay := d; arg_powerup := ap; arg_player := p |}];
       stray_sprites := stray_sprites sc;
       stray_overlaps := stray_overlaps sc |} s.

(** [physics.add.sprite(x, y, undefined)] and the [setData] calls with
    [undefined] values. *)
Definition physics_add_stray (sp : StraySprite) (s : State) : State :=
  let sc := scene s in
  alloc (set_scene
    {| player := player sc; now := now sc; sprites := sprites sc;
       overlaps := overlaps sc; disabled := disabled sc;
       delayedCalls := delayedCalls sc;
       stray_sprites := stray_sprites sc ++ [sp];
       stray_overlaps := stray_overlaps sc |} s).

Definition physics_add_stray_overlap (p : Player) (sp : StraySprite)
    (s : State) : State :=
  let sc := scene s in
  set_scene
    {| player := player sc; now := now sc; sprites := sprites sc;
       overlaps := overlaps sc; disabled := disabled sc;
       delayedCalls := delayedCalls sc;
       stray_sprites := stray_sprites sc;
       stray_overlaps :=
         stray_overlaps sc
         ++ [{| stray_overlap_player := p; stray_overlap_sprite := sp |}] |} s.

(** ** Array primitives *)

(** [Array.prototype.indexOf]: index of the first occurrence, [-1] if none. *)
Fixpoint indexOf (x : ActivePowerup) (l : list ActivePowerup) : Z :=
  match l with
  | [] => -1
  | y :: l' =>
      if decide (y = x) then 0
      else let i := indexOf x l' in if decide (i = -1) then -1 else i + 1
  end.

(** [l.splice(index, 1)] for an index within the array. *)
Definition splice1 (index : Z) (l : list ActivePowerup) : list ActivePowerup :=
  take (Z.to_nat index) l ++ drop (S (Z.to_nat index)) l.

(** ** The methods

    The methods call effect functions; [invoke] says what running one does
    to the state ([None] when the run does not come to an end). *)

Definition Invoke :=
  EffectId -> option ActivePowerup -> Player -> bool -> State -> option State.

Definition dquote : string := String (Ascii.ascii_of_nat 34) EmptyString.

Definition not_found_message (ty : string) : string :=
  ("Powerup type " ++ dquote ++ ty ++ dquote ++ " not found in powerup data.")%string.

Definition constructor (sc : Scene) (data : gmap string PowerupDefinition) : State :=
  {| scene := sc; powerupData := data; activePowerups := [];
     console := []; effectCalls := []; next_object := 0 |}.

(** The names of the properties of [Object.prototype]. *)
Definition object_prototype : list string :=
  ["constructor"; "hasOwnProperty"; "isPrototypeOf"; "propertyIsEnumerable";
   "toLocaleString"; "toString"; "valueOf"; "__proto__"; "__defineGetter__";
   "__defineSetter__"; "__lookupGetter__"; "__lookupSetter__"].

(** [this.powerupData[type]] is an own property, a property inherited from
    [Object.prototype], or [undefined]; only the last is falsy. *)
Definition createPowerup (ty : string) (x y : Z) (s : State) : State :=
  match powerupData s !! ty with
  | None =>
      if decide (ty ∈ object_prototype) then
        let powerup :=
          {| stray_ref := next_object s; stray_x := x; stray_y := y;
             stray_type := ty; stray_immovable := true |} in
        physics_add_stray_overlap (player (scene s)) powerup
          (physics_add_stray powerup s)
      else console_warn (not_found_message ty) s
  | Some data =>
      let powerup :=
        {| sprite_ref := next_object s; sprite_x := x; sprite_y := y;
           texture := spriteKey data; data_type := ty;
           data_duration := def_duration data; data_effect := def_effect data;
           immovable := true |} in
      physics_add_overlap (player (scene s)) powerup
        (physics_add_sprite powerup s)
  end.

Section Methods.

Variable invoke : Invoke.

(** A call of an effect function, recorded and then run. *)
Definition call_effect (f : EffectId) (this : option ActivePowerup)
    (p : Player) (flag : bool) (s : State) : option State :=
  invoke f this p flag
    (record_call {| called := f; receiver := this; on_player := p;
                    activating := flag |} s).

Definition activatePowerup (p : Player) (powerup : Sprite) (s : State)
    : option State :=
  let ty := data_type powerup in
  let d := data_duration powerup in
  let f := data_effect powerup in
  let s1 := disableBody powerup s in
  let activePowerup :=
    {| ref := next_object s1; type := ty; duration := d; effect := f;
       expirationTime := now (scene s1) + d |} in
  let s2 := set_activePowerups (activePowerups s1 ++ [activePowerup]) (alloc s1) in
  s3 ← call_effect f None p true s2;
  Some (time_delayedCall d activePowerup p s3).

Definition deactivatePowerup (activePowerup : ActivePowerup) (p : Player)
    (s : State) : option State :=
  let index := indexOf activePowerup (activePowerups s) in
  if decide (index ≠ -1) then
    let s1 := set_activePowerups (splice1 index (activePowerups s)) s in
    call_effect (effect activePowerup) (Some activePowerup) p false s1
  else Some s.

(** [expiredPowerups.forEach(...)]: the array walked is the fresh one
    [filter] returned; [this.scene.player] is read at every element. *)
Fixpoint forEach_deactivate (l : list ActivePowerup) (s : State)
    : option State :=
  match l with
  | [] => Some s
  | powerup :: l' =>
      s1 ← deactivatePowerup powerup (player (scene s)) s;
      forEach_deactivate l' s1
  end.

Definition update (time delta : Z) (s : State) : option State :=
  let expiredPowerups :=
    filter (fun powerup => time >= expirationTime powerup) (activePowerups s) in
  forEach_deactivate expiredPowerups s.

End Methods.

(** ** Effect functions that call back into the manager

    The body of an effect function is supplied by the caller of the
    manager.  It is given here by what the function does to the manager: a
    script of method calls, each chosen from the receiver, the arguments and
    the state the function finds, the calls after the first from the state
    the previous call left. *)

Inductive Call :=
| CallCreatePowerup (ty : string) (x y : Z)
| CallActivatePowerup (p : Player) (powerup : Sprite)
| CallDeactivatePowerup (activePowerup : ActivePowerup) (p : Player)
| CallUpdate (time delta : Z).

Inductive Script :=
| Return
| Then (c : Call) (k : State -> Script).

Definition EffectBodies :=
  EffectId -> option ActivePowerup -> Player -> bool -> State -> Script.

Definition perform (invoke : Invoke) (c : Call) (s : State) : option State :=
  match c with
  | CallCreatePowerup ty x y => Some (createPowerup ty x y s)
  | CallActivatePowerup p powerup => activatePowerup invoke p powerup s
  | CallDeactivatePowerup ap p => deactivatePowerup invoke ap p s
  | CallUpdate time delta => update invoke time delta s
  end.

Fixpoint run_script (invoke : Invoke) (sc : Script) (s : State)
    : option State :=
  match sc with
  | Return => Some s
  | Then c k => s1 ← perform invoke c s; run_script invoke (k s1) s1
  end.

(** Running an effect function with a bound [fuel] on the depth of nested
    effect calls. *)
Fixpoint run_effect (body : EffectBodies) (fuel : nat) : Invoke :=
  fun f this p flag s =>
    match fuel with
    | O => None
    | S n => run_script (run_effect body n) (body f this p flag s) s
    end.

(** Effect functions that only act on the player and never call the
    manager. *)
Definition passive : EffectBodies := fun _ _ _ _ _ => Return.

(** ** The manager in its host

    What the game and the engine do with a manager: any public method may be
    called, a registered overlap watch may report a collision with a sprite
    whose body is still enabled, a pending delayed call may fire (once), and
    the scene clock may advance.  The inputs are those of sprites that carry
    (type, duration, effect) data; a collision with a sprite of
    [stray_sprites], whose duration and effect are [undefined], is not among
    them. *)

Inductive Input :=
| Method (c : Call)
| Collision (i : nat)
| TimerFires (i : nat)
| ClockAdvances (t : Z).

Definition remove_delayedCall (i : nat) (s : State) : State :=
  let sc := scene s in
  set_scene
    {| player := player sc; now := now sc; sprites := sprites sc;
       overlaps := overlaps sc; disabled := disabled sc;
       delayedCalls := delete i (delayedCalls sc);
       stray_sprites := stray_sprites sc;
       stray_overlaps := stray_overlaps sc |} s.

Definition set_now (t : Z) (s : State) : State :=
  let sc := scene s in
  set_scene
    {| player := player sc; now := t; sprites := sprites sc;
       overlaps := overlaps sc; disabled := disabled sc;
       delayedCalls := delayedCalls sc;
       stray_sprites := stray_sprites sc;
       stray_overlaps := stray_overlaps sc |} s.

Definition step (invoke : Invoke) (i : Input) (s : State) : option State :=
  match i with
  | Method c => perform invoke c s
  | Collision k =>
      match overlaps (scene s) !! k with
      | Some o =>
          if decide (sprite_ref (overlap_sprite o) ∈ disabled (scene s))
          then Some s
          else activatePowerup invoke (overlap_player o) (overlap_sprite o) s
      | None => Some s
      end
  | TimerFires k =>
      match delayedCalls (scene s) !! k with
      | Some dc =>
          deactivatePowerup invoke (arg_powerup dc) (arg_player dc)
            (remove_delayedCall k s)
      | None => Some s
      end
  | ClockAdvances t =>
      if decide (now (scene s) <= t) then Some (set_now t s) else Some s
  end.

Fixpoint run (invoke : Invoke) (inputs : list Input) (s : State)
    : option State :=
  match inputs with
  | [] => Some s
  | i :: inputs' => s1 ← step invoke i s; run invoke inputs' s1
  end.

(** ** Observations *)

(** The call [c] is the reversal [activePowerup.effect(player, false)] of
    the entry [ap]. *)
Definition is_reversal (ap : ActivePowerup) (c : EffectCall) : Prop :=
  receiver c = Some ap ∧ activating c = false.

#[global] Instance is_reversal_dec ap c : Decision (is_reversal ap c).
Proof. unfold is_reversal. apply _. Defined.

(** How many times the reversal of [ap] has fired. *)
Definition reversals (ap : ActivePowerup) (log : list EffectCall) : nat :=
  length (filter (is_reversal ap) log).

Definition reversal_call (ap : ActivePowerup) (p : Player) : EffectCall :=
  {| called := effect ap; receiver := Some ap; on_player := p;
     activating := false |}.

Definition activation_call (f : EffectId) (p : Player) : EffectCall :=
  {| called := f; receiver := None; on_player := p; activating := true |}.

(** The state in which [deactivatePowerup] calls the effect function of an
    entry it found: the entry spliced out, the call recorded. *)
Definition deactivated (ap : ActivePowerup) (p : Player) (s : State) : State :=
  record_call (reversal_call ap p)
    (set_activePowerups
       (splice1 (indexOf ap (activePowerups s)) (activePowerups s)) s).

(** The entry [activatePowerup] builds in state [s] for a sprite. *)
Definition new_entry (powerup : Sprite) (s : State) : ActivePowerup :=
  {| ref := next_object s; type := data_type powerup;
     duration := data_duration powerup; effect := data_effect powerup;
     expirationTime := now (scene s) + data_duration powerup |}.

(** The state in which [activatePowerup] calls the effect function: body
    disabled, entry pushed, the call recorded. *)
Definition activated (p : Player) (powerup : Sprite) (s : State) : State :=
  record_call (activation_call (data_effect powerup) p)
    (set_activePowerups (activePowerups s ++ [new_entry powerup s])
       (alloc (disableBody powerup s))).

(** The reversals a sweep at [time] fires when effect functions are
    passive, and the state it leaves. *)
Definition expired_at (time : Z) (s : State) : list ActivePowerup :=
  filter (fun a => time >= expirationTime a) (activePowerups s).

Definition sweep_calls (time : Z) (s : State) : list EffectCall :=
  (fun a => reversal_call a (player (scene s))) <$> expired_at time s.

Definition swept (time : Z) (s : State) : State :=
  {| scene := scene s; powerupData := powerupData s;
     activePowerups :=
       filter (fun a => time < expirationTime a) (activePowerups s);
     console := console s;
     effectCalls := effectCalls s ++ sweep_calls time s;
     next_object := next_object s |}.

(** ** Atomic mutations

    Between two calls of effect functions the methods change the state in
    one of these ways only. *)

Inductive mutation : State -> State -> Prop :=
| mutation_scene s sc : mutation s (set_scene sc s)
| mutation_alloc s : mutation s (alloc s)
| mutation_warn s msg : mutation s (console_warn msg s)
| mutation_activate s p powerup : mutation s (activated p powerup s)
| mutation_deactivate s ap p :
    ap ∈ activePowerups s -> mutation s (deactivated ap p s).

(** ** Well-formed states and the life of an entry *)

(** The receiver of a recorded call was allocated in the past. *)
Definition known_receiver (s : State) (c : EffectCall) : Prop :=
  match receiver c with
  | Some ap => (ref ap < next_object s)%nat
  | None => True
  end.

#[global] Instance known_receiver_dec s c : Decision (known_receiver s c).
Proof. unfold known_receiver. destruct (receiver c); apply _. Defined.

(** The entries of the active set are distinct objects allocated in the
    past, none of them has been reversed, and every receiver of a recorded
    call was allocated in the past.  Every state the manager reaches from
    its constructor is well-formed ([run_wf] below). *)
Definition wf (s : State) : Prop :=
  NoDup (activePowerups s)
  ∧ Forall (fun ap => (ref ap < next_object s)%nat
                      ∧ reversals ap (effectCalls s) = 0%nat)
           (activePowerups s)
  ∧ Forall (known_receiver s) (effectCalls s).

#[global] Instance wf_dec s : Decision (wf s).
Proof. unfold wf. apply _. Defined.

(** The two states of an entry. *)
Definition Active (ap : ActivePowerup) (s : State) : Prop :=
  (ap ∈ activePowerups s) ∧ reversals ap (effectCalls s) = 0%nat.

Definition Deactivated (ap : ActivePowerup) (s : State) : Prop :=
  (ap ∉ activePowerups s) ∧ reversals ap (effectCalls s) = 1%nat.

(** An allocated entry outside the active set. *)
Definition absent (ap : ActivePowerup) (s : State) : Prop :=
  wf s ∧ (ref ap < next_object s)%nat ∧ ap ∉ activePowerups s.

(** An allocated entry is in one of its two states. *)
Definition tracked (ap : ActivePowerup) (s : State) : Prop :=
  wf s ∧ (ref ap < next_object s)%nat ∧ (Active ap s ∨ Deactivated ap s).

(** The state [Deactivated] of an allocated entry. *)
Definition retired (ap : ActivePowerup) (s : State) : Prop :=
  wf s ∧ (ref ap < next_object s)%nat ∧ Deactivated ap s.

(** A way of running effect functions that changes the state by atomic
    mutations only. *)
Definition by_mutations (invoke : Invoke) : Prop :=
  ∀ f this p flag s s',
    invoke f this p flag s = Some s' -> rtc mutation s s'.

(** A property of states kept by every atomic mutation. *)
Definition stable (I : State -> Prop) : Prop :=
  ∀ s s', I s -> mutation s s' -> I s'.

(** Every entry of the active set has a delayed call pending. *)
Definition timed (s : State) : Prop :=
  ∀ ap, ap ∈ activePowerups s ->
    ∃ dc, dc ∈ delayedCalls (scene s) ∧ arg_powerup dc = ap.

(** From [s] to [s'] delayed calls were only added, and every entry that
    entered the active set has one. *)
Definition schedules (s s' : State) : Prop :=
  delayedCalls (scene s) `prefix_of` delayedCalls (scene s')
  ∧ ∀ ap, ap ∈ activePowerups s' ->
      ap ∈ activePowerups s
      ∨ ∃ dc, dc ∈ delayedCalls (scene s') ∧ arg_powerup dc = ap.

Definition by_schedules (invoke : Invoke) : Prop :=
  ∀ f this p flag s s', invoke f this p flag s = Some s' -> schedules s s'.

(** Effect functions that never call [activatePowerup]. *)
Definition is_activation (c : Call) : Prop :=
  match c with CallActivatePowerup _ _ => True | _ => False end.

Fixpoint activation_free (sc : Script) : Prop :=
  match sc with
  | Return => True
  | Then c k => ¬ is_activation c ∧ ∀ s, activation_free (k s)
  end.

Definition no_activation (body : EffectBodies) : Prop :=
  ∀ f this p flag s, activation_free (body f this p flag s).

(** A way of running effect functions that never lengthens the active
    set. *)
Definition never_grows (invoke : Invoke) : Prop :=
  ∀ f this p flag s s',
    invoke f this p flag s = Some s' ->
    (length (activePowerups s') <= length (activePowerups s))%nat.

(** ** A small game

    A table with two powerup types (speed, lasting 1000 ms, and shield,
    lasting 3000 ms), a scene whose clock reads 0, and effect functions that
    call back into the manager from their reversal. *)

Module Demo.

Definition speed_def : PowerupDefinition :=
  {| spriteKey := "speed_sprite"; def_duration := 1000; def_effect := 1%nat |}.

Definition shield_def : PowerupDefinition :=
  {| spriteKey := "shield_sprite"; def_duration := 3000; def_effect := 2%nat |}.

Definition data : gmap string PowerupDefinition :=
  <["speed" := speed_def]> (<["shield" := shield_def]> ∅).

Definition stage : Scene :=
  {| player := 7%nat; now := 0; sprites := []; overlaps := [];
     disabled := []; delayedCalls := []; stray_sprites := [];
     stray_overlaps := [] |}.

Definition start : State := constructor stage data.

(** On reversal the effect function deactivates its own entry again and
    then sweeps. *)
Definition reentrant : EffectBodies :=
  fun f this p flag s =>
    match this with
    | Some ap =>
        Then (CallDeactivatePowerup ap p)
          (fun _ => Then (CallUpdate 5000 16) (fun _ => Return))
    | None => Return
    end.

(** The state [o] holds, [start] when the run did not come to an end. *)
Definition the (o : option State) : State := default start o.

(** A speed and a shield powerup spawned and both picked up at time 0. *)
Definition pickups : list Input :=
  [Method (CallCreatePowerup "speed" 10 10); Collision 0;
   Method (CallCreatePowerup "shield" 20 20); Collision 1].

Definition both_active : State := the (run (run_effect passive 1) pickups start).

(** The speed powerup spawned and not picked up yet, and its sprite. *)
Definition spawned : State := createPowerup "speed" 10 10 start.

Definition speed_sprite : Sprite :=
  {| sprite_ref := 0; sprite_x := 10; sprite_y := 10;
     texture := "speed_sprite"; data_type := "speed"; data_duration := 1000;
     data_effect := 1%nat; immovable := true |}.

Definition speed_entry : ActivePowerup :=
  {| ref := 1; type := "speed"; duration := 1000; effect := 1%nat;
     expirationTime := 1000 |}.

Definition shield_entry : ActivePowerup :=
  {| ref := 3; type := "shield"; duration := 3000; effect := 2%nat;
     expirationTime := 3000 |}.

(** One speed powerup picked up, and a second speed sprite spawned next to
    it; then the second one picked up as well. *)
Definition one_active : State :=
  the (run (run_effect passive 1)
         [Method (CallCreatePowerup "speed" 10 10); Collision 0;
          Method (CallCreatePowerup "speed" 30 30)] start).

Definition second_sprite : Sprite :=
  {| sprite_ref := 2; sprite_x := 30; sprite_y := 30;
     texture := "speed_sprite"; data_type := "speed"; data_duration := 1000;
     data_effect := 1%nat; immovable := true |}.

Definition second_entry : ActivePowerup :=
  {| ref := 3; type := "speed"; duration := 1000; effect := 1%nat;
     expirationTime := 1000 |}.

Definition stacked : State :=
  the (run (run_effect passive 1) [Collision 1] one_active).

End Demo.

End PowerupManager.

(** * Accounting of effect calls

    How often each effect function was switched on and off, read off the
    record of effect calls. *)

Module PowerupAccounting.

Import PowerupManager.

(** Calls [f(player, true)] recorded so far. *)
Definition on_calls (f : EffectId) (log : list EffectCall) : nat :=
  length (filter (fun c => called c = f ∧ activating c = true) log).

(** Calls [f(player, false)] recorded so far. *)
Definition off_calls (f : EffectId) (log : list EffectCall) : nat :=
  length (filter (fun c => called c = f ∧ activating c = false) log).

(** Entries of the active set whose effect function is [f]. *)
Definition active_with (f : EffectId) (l : list ActivePowerup) : nat :=
  length (filter (fun a => effect a = f) l).

(** Every switching on of [f] is either still in effect or was switched
    off. *)
Definition balanced (f : EffectId) (s : State) : Prop :=
  on_calls f (effectCalls s)
  = (active_with f (activePowerups s) + off_calls f (effectCalls s))%nat.

(** The entry [createPowerup] followed by a collision builds for a type of
    the table. *)
Definition spawned_entry (ty : string) (d : PowerupDefinition) (s : State)
    : ActivePowerup :=
  {| ref := S (next_object s); type := ty; duration := def_duration d;
     effect := def_effect d;
     expirationTime := now (scene s) + def_duration d |}.

End PowerupAccounting.

(** * CollectiblesManager (collectibles): items to pick up

    The manager creates [totalCollectibles] sprites at the first positions
    of its configuration, registers one overlap watch on its array of
    sprites, and counts the pickups.  Reading a position that the
    configuration does not have throws a [TypeError]; a method that throws
    is [Threw], with the state it had reached. *)

From stdpp Require pretty.
From Stdlib Require QArith.

Module Collectibles.

Definition Player := nat.

(** A position [{x, y}] of the configuration. *)
Record Position := { pos_x : Z; pos_y : Z }.

(** A collectible sprite as [createCollectibles] leaves it. *)
Record Sprite := {
  sprite_ref : nat;
  sprite_x : Z;
  sprite_y : Z;
  texture : string;
  sprite_scale : QArith_base.Q;
  immovable : bool
}.

Record Config := {
  config_totalCollectibles : Z;
  config_spriteKey : string;
  config_scale : QArith_base.Q;
  config_positions : list Position
}.

(** The scene: its player, the sprites added to its physics, the overlap
    watches registered on the manager's [collectibles] array (one player
    each; the array is watched by reference), the disabled bodies. *)
Record Scene := {
  player : Player;
  sprites : list Sprite;
  overlaps : list Player;
  disabled : list nat
}.

Record State := {
  scene : Scene;
  totalCollectibles : Z;
  spriteKey : string;
  scale : QArith_base.Q;
  positions : list Position;
  collectibles : list Sprite;
  collectedCount : Z;
  console : list string;
  next_object : nat
}.

Inductive Result :=
| Returned (s : State)
| Threw (s : State).

(** One turn of the loop body of [createCollectibles] at a position. *)
Definition add_collectible (pos : Position) (s : State) : State :=
  let collectible :=
    {| sprite_ref := next_object s; sprite_x := pos_x pos;
       sprite_y := pos_y pos; texture := spriteKey s;
       sprite_scale := scale s; immovable := true |} in
  let sc := scene s in
  {| scene := {| player := player sc; sprites := sprites sc ++ [collectible];
                 overlaps := overlaps sc; disabled := disabled sc |};
     totalCollectibles := totalCollectibles s; spriteKey := spriteKey s;
     scale := scale s; positions := positions s;
     collectibles := collectibles s ++ [collectible];
     collectedCount := collectedCount s; console := console s;
     next_object := S (next_object s) |}.

Definition physics_add_overlap (p : Player) (s : State) : State :=
  let sc := scene s in
  {| scene := {| player := player sc; sprites := sprites sc;
                 overlaps := overlaps sc ++ [p]; disabled := disabled sc |};
     totalCollectibles := totalCollectibles s; spriteKey := spriteKey s;
     scale := scale s; positions := positions s;
     collectibles := collectibles s; collectedCount := collectedCount s;
     console := console s; next_object := next_object s |}.

(** [for (let i = 0; i < this.totalCollectibles; i++)] from index [i] with
    [todo] turns left. *)
Fixpoint createCollectibles_loop (todo i : nat) (s : State) : Result :=
  match todo with
  | O => Returned s
  | S todo' =>
      match positions s !! i with
      | None => Threw s
      | Some pos => createCollectibles_loop todo' (S i) (add_collectible pos s)
      end
  end.

Definition createCollectibles (s : State) : Result :=
  match createCollectibles_loop (Z.to_nat (totalCollectibles s)) 0 s with
  | Returned s1 => Returned (physics_add_overlap (player (scene s1)) s1)
  | Threw s1 => Threw s1
  end.

Definition constructor (sc : Scene) (config : Config) : Result :=
  createCollectibles
    {| scene := sc; totalCollectibles := config_totalCollectibles config;
       spriteKey := config_spriteKey config; scale := config_scale config;
       positions := config_positions config; collectibles := [];
       collectedCount := 0; console := []; next_object := 0 |}.

Definition collected_message (count total : Z) : string :=
  ("Collected item " ++ pretty.pretty count ++ "/" ++ pretty.pretty total)%string.

Definition all_collected_message : string := "All collectibles collected!".

Definition console_log (msg : string) (s : State) : State :=
  {| scene := scene s; totalCollectibles := totalCollectibles s;
     spriteKey := spriteKey s; scale := scale s; positions := positions s;
     collectibles := collectibles s; collectedCount := collectedCount s;
     console := console s ++ [msg]; next_object := next_object s |}.

Definition disableBody (collectible : Sprite) (s : State) : State :=
  let sc := scene s in
  {| scene := {| player := player sc; sprites := sprites sc;
                 overlaps := overlaps sc;
                 disabled := disabled sc ++ [sprite_ref collectible] |};
     totalCollectibles := totalCollectibles s; spriteKey := spriteKey s;
     scale := scale s; positions := positions s;
     collectibles := collectibles s; collectedCount := collectedCount s;
     console := console s; next_object := next_object s |}.

Definition increment_collectedCount (s : State) : State :=
  {| scene := scene s; totalCollectibles := totalCollectibles s;
     spriteKey := spriteKey s; scale := scale s; positions := positions s;
     collectibles := collectibles s; collectedCount := collectedCount s + 1;
     console := console s; next_object := next_object s |}.

Definition collectItem (p : Player) (collectible : Sprite) (s : State) : State :=
  let s1 := increment_collectedCount (disableBody collectible s) in
  let s2 :=
    console_log (collected_message (collectedCount s1) (totalCollectibles s1)) s1 in
  if decide (collectedCount s2 = totalCollectibles s2)
  then console_log all_collected_message s2
  else s2.

(** [collectItem] called on each sprite of a list in turn. *)
Definition collect_each (p : Player) (l : list Sprite) (s : State) : State :=
  foldl (fun s collectible => collectItem p collectible s) s l.

(** The engine reports the collision of the [j]-th collectible with the
    player of the [i]-th overlap watch, when the body is still enabled. *)
Definition collision (i j : nat) (s : State) : State :=
  match overlaps (scene s) !! i, collectibles s !! j with
  | Some p, Some collectible =>
      if decide (sprite_ref collectible ∈ disabled (scene s)) then s
      else collectItem p collectible s
  | _, _ => s
  end.

Definition collisions (l : list (nat * nat)) (s : State) : State :=
  foldl (fun s ij => collision ij.1 ij.2 s) s l.

(** How often the completion message was logged. *)
Definition completions (s : State) : nat :=
  length (filter (fun msg => msg = all_collected_message) (console s)).

(** The sprite [createCollectibles] makes at a position when [ref] is the
    next object. *)
Definition sprite_at (key : string) (sc : QArith_base.Q) (ref : nat)
    (pos : Position) : Sprite :=
  {| sprite_ref := ref; sprite_x := pos_x pos; sprite_y := pos_y pos;
     texture := key; sprite_scale := sc; immovable := true |}.

(** The sprites made at the positions [l], the first with reference [ref]. *)
Definition sprites_at (key : string) (sc : QArith_base.Q) (ref : nat)
    (l : list Position) : list Sprite :=
  imap (fun i pos => sprite_at key sc (ref + i) pos) l.

(** What the collisions the engine reports keep true. *)
Definition collected_by_collisions (s0 s : State) : Prop :=
  collectibles s = collectibles s0
  ∧ totalCollectibles s = totalCollectibles s0
  ∧ overlaps (scene s) = overlaps (scene s0)
  ∧ NoDup (disabled (scene s))
  ∧ (∀ r, r ∈ disabled (scene s) -> r ∈ sprite_ref <$> collectibles s0)
  ∧ collectedCount s = Z.of_nat (length (disabled (scene s)))
  ∧ completions s
    = if decide (1 <= totalCollectibles s0 <= collectedCount s) then 1%nat
      else 0%nat.

End Collectibles.

(** A scene and a configuration with three collectibles and a spare
    position, and one that asks for more collectibles than positions. *)

Module CollectiblesDemo.

Import Collectibles.

Definition stage : Scene :=
  {| player := 9%nat; sprites := []; overlaps := []; disabled := [] |}.

Definition three_gems : Config :=
  {| config_totalCollectibles := 3; config_spriteKey := "gem";
     config_scale := QArith_base.Qmake 1 2;
     config_positions :=
       [{| pos_x := 100; pos_y := 200 |}; {| pos_x := 300; pos_y := 400 |};
        {| pos_x := 500; pos_y := 600 |}; {| pos_x := 700; pos_y := 800 |}] |}.

Definition too_many : Config :=
  {| config_totalCollectibles := 5; config_spriteKey := "gem";
     config_scale := QArith_base.Qmake 1 2;
     config_positions :=
       [{| pos_x := 100; pos_y := 200 |}; {| pos_x := 300; pos_y := 400 |}] |}.

Definition state_of (r : Result) : State :=
  match r with Returned s => s | Threw s => s end.

Definition fresh : State := state_of (constructor stage three_gems).

(** The engine reports the first collectible twice, a collectible that does
    not exist, and the third. *)
Definition twice_on_the_first : list (nat * nat) :=
  [(0, 0); (0, 0); (0, 7); (0, 2)]%nat.

End CollectiblesDemo.

(** * Leaderboards: scores and achievements

    [addScore] pushes an entry and sorts the array with the comparator
    [(a, b) => b.score - a.score]; [Array.prototype.sort] is stable, so the
    result is the stable sort by descending score. *)

From Stdlib Require Sorted.

Module Leaderboards.

Record ScoreEntry := { name : string; score : Z }.

(** An entry [{ name, achievement }]; its [name] is the field [achiever]. *)
Record AchievementEntry := { achiever : string; achievement : string }.

#[global] Instance ScoreEntry_eq_dec : EqDecision ScoreEntry.
Proof. solve_decision. Defined.

Record State := {
  scores : list ScoreEntry;
  achievements : list AchievementEntry;
  console : list string
}.

Definition constructor : State :=
  {| scores := []; achievements := []; console := [] |}.

(** The comparator of [addScore]: negative when [a] goes first. *)
Definition compare_scores (a b : ScoreEntry) : Z := score b - score a.

(** A stable sort: [e], which stood before every element of the sorted
    [l], goes before the first element it does not have to follow. *)
Fixpoint insert_sorted (e : ScoreEntry) (l : list ScoreEntry) : list ScoreEntry :=
  match l with
  | [] => [e]
  | y :: l' =>
      if decide (compare_scores e y <= 0) then e :: y :: l'
      else y :: insert_sorted e l'
  end.

Definition sort (l : list ScoreEntry) : list ScoreEntry :=
  foldr insert_sorted [] l.

Definition score_message (playerName : string) (sc : Z) : string :=
  ("New score added: " ++ playerName ++ " - " ++ pretty.pretty sc)%string.

Definition achievement_message (playerName ach : string) : string :=
  ("New achievement added: " ++ playerName ++ " - " ++ ach)%string.

Definition addScore (playerName : string) (sc : Z) (s : State) : State :=
  {| scores := sort (scores s ++ [{| name := playerName; score := sc |}]);
     achievements := achievements s;
     console := console s ++ [score_message playerName sc] |}.

Definition addAchievement (playerName ach : string) (s : State) : State :=
  {| scores := scores s;
     achievements :=
       achievements s ++ [{| achiever := playerName; achievement := ach |}];
     console := console s ++ [achievement_message playerName ach] |}.

(** The calls a game makes. *)
Inductive Call :=
| CallAddScore (playerName : string) (sc : Z)
| CallAddAchievement (playerName ach : string).

Definition perform (c : Call) (s : State) : State :=
  match c with
  | CallAddScore playerName sc => addScore playerName sc s
  | CallAddAchievement playerName ach => addAchievement playerName ach s
  end.

Definition perform_all (cs : list Call) (s : State) : State :=
  foldl (fun s c => perform c s) s cs.

(** The scores a list of calls adds, in the order of the calls. *)
Definition added_scores (cs : list Call) : list ScoreEntry :=
  omap (fun c => match c with
                 | CallAddScore playerName sc =>
                     Some {| name := playerName; score := sc |}
                 | CallAddAchievement _ _ => None
                 end) cs.

(** Non-increasing scores from the top. *)
Definition ranked (l : list ScoreEntry) : Prop :=
  Sorted.Sorted (fun a b => score b <= score a) l.

(** The entries with score [v], in their order. *)
Definition tied_at (v : Z) (l : list ScoreEntry) : list ScoreEntry :=
  filter (fun e => score e = v) l.

End Leaderboards.

(** The leaderboard of the test of the module: three players, the second
    one ahead. *)
Module LeaderboardsDemo.

Import Leaderboards.

Definition three_scores : State :=
  perform_all [CallAddScore "Player 1" 100; CallAddScore "Player 2" 200;
               CallAddScore "Player 3" 150] constructor.

End LeaderboardsDemo.

(** * Multiplayer (multiplayer-mode.js): remote players over a socket

    The handlers of the socket events keep one sprite per remote player in
    the object [players], keyed by player id.

    - [players] is a plain object.  Its own properties are a finite map
      from ids to sprites.  Its prototype is [Object.prototype] until a
      sprite is assigned under the id [__proto__]: that assignment adds no
      own property, it makes the sprite the prototype of [players]
      ([prototype]); [this.players = {}] makes a new plain object.
    - A lookup [this.players[id]] that finds no own property finds what the
      prototype chain has: under [__proto__] the prototype itself; under
      the name of a property of [Object.prototype], or of one of the two
      methods of a sprite when a sprite is the prototype, a function.  The
      functions and [Object.prototype] are truthy and have no method
      [destroy] or [setPosition], so calling one on them throws.  A sprite
      is the object the source uses: it has the methods [destroy] and
      [setPosition]; what else an engine puts on it is not modelled.
    - A sprite is referred to by its index in the list of the sprites of
      the scene, where [scene.add.sprite] appends it; [destroy] marks it
      there.
    - A handler that calls a method that is not there throws a [TypeError]
      and is [Threw], with the state it had reached. *)

Module Multiplayer.

Record Sprite := {
  sprite_x : Z;
  sprite_y : Z;
  texture : string;
  destroyed : bool
}.

(** The data of a [playerJoined] or [playerMoved] event. *)
Record PlayerData := { id : string; x : Z; y : Z }.

(** What the client sends to the server. *)
Inductive Emitted :=
| JoinGame (gameId : string)
| PlayerMoved (x y : Z).

Record State := {
  game_id : string;
  sprites : list Sprite;
  listeners : list string;
  players : gmap string nat;
  prototype : option nat;
  emitted : list Emitted;
  console : list string
}.

Inductive Result :=
| Returned (s : State)
| Threw (s : State).

Definition state_of (r : Result) : State :=
  match r with Returned s => s | Threw s => s end.

Definition console_log (msg : string) (s : State) : State :=
  {| game_id := game_id s; sprites := sprites s; listeners := listeners s;
     players := players s; prototype := prototype s; emitted := emitted s;
     console := console s ++ [msg] |}.

Definition socket_emit (e : Emitted) (s : State) : State :=
  {| game_id := game_id s; sprites := sprites s; listeners := listeners s;
     players := players s; prototype := prototype s;
     emitted := emitted s ++ [e]; console := console s |}.

Definition set_players (m : gmap string nat) (s : State) : State :=
  {| game_id := game_id s; sprites := sprites s; listeners := listeners s;
     players := m; prototype := prototype s; emitted := emitted s;
     console := console s |}.

Definition set_prototype (o : option nat) (s : State) : State :=
  {| game_id := game_id s; sprites := sprites s; listeners := listeners s;
     players := players s; prototype := o; emitted := emitted s;
     console := console s |}.

Definition set_sprites (l : list Sprite) (s : State) : State :=
  {| game_id := game_id s; sprites := l; listeners := listeners s;
     players := players s; prototype := prototype s; emitted := emitted s;
     console := console s |}.

Definition socket_on (event : string) (s : State) : State :=
  {| game_id := game_id s; sprites := sprites s;
     listeners := listeners s ++ [event]; players := players s;
     prototype := prototype s; emitted := emitted s; console := console s |}.

(** The methods of a sprite that the source calls. *)
Definition sprite_methods : list string := ["destroy"; "setPosition"].

(** What [this.players[i]] evaluates to: a sprite, another truthy value (a
    function or [Object.prototype]), or [undefined]. *)
Inductive Found :=
| FoundSprite (r : nat)
| FoundOther
| FoundNothing.

#[global] Instance Found_eq_dec : EqDecision Found.
Proof. solve_decision. Defined.

(** [this.players[i]]. *)
Definition get_player (i : string) (s : State) : Found :=
  match players s !! i with
  | Some r => FoundSprite r
  | None =>
      match prototype s with
      | Some r =>
          if decide (i = "__proto__") then FoundSprite r
          else if decide (i ∈ sprite_methods
                          ∨ i ∈ PowerupManager.object_prototype)
               then FoundOther
               else FoundNothing
      | None =>
          if decide (i ∈ PowerupManager.object_prototype) then FoundOther
          else FoundNothing
      end
  end.

(** [this.players[i] = sprite] for the sprite [r]. *)
Definition assign_player (i : string) (r : nat) (s : State) : State :=
  if decide (i = "__proto__") then set_prototype (Some r) s
  else set_players (<[i := r]> (players s)) s.

Definition setupEventListeners (s : State) : State :=
  socket_on "playerMoved"
    (socket_on "playerLeft"
       (socket_on "playerJoined"
          (socket_on "disconnect" (socket_on "connect" s)))).

(** [new Multiplayer(scene, serverUrl)] on a scene with the given sprites
    and game id. *)
Definition constructor (gameId : string) (scene_sprites : list Sprite) : State :=
  setupEventListeners
    {| game_id := gameId; sprites := scene_sprites; listeners := [];
       players := ∅; prototype := None; emitted := []; console := [] |}.

Definition onConnect (s : State) : State :=
  socket_emit (JoinGame (game_id s)) (console_log "Connected to server" s).

Definition onDisconnect (s : State) : State :=
  set_prototype None
    (set_players ∅ (console_log "Disconnected from server" s)).

Definition joined_message (i : string) : string :=
  ("Player " ++ i ++ " joined the game")%string.

Definition left_message (i : string) : string :=
  ("Player " ++ i ++ " left the game")%string.

Definition onPlayerJoined (player : PlayerData) (s : State) : State :=
  let s1 := console_log (joined_message (id player)) s in
  let sprite :=
    {| sprite_x := x player; sprite_y := y player; texture := "player";
       destroyed := false |} in
  assign_player (id player) (length (sprites s1))
    (set_sprites (sprites s1 ++ [sprite]) s1).

Definition destroy (sp : Sprite) : Sprite :=
  {| sprite_x := sprite_x sp; sprite_y := sprite_y sp; texture := texture sp;
     destroyed := true |}.

Definition setPosition (px py : Z) (sp : Sprite) : Sprite :=
  {| sprite_x := px; sprite_y := py; texture := texture sp;
     destroyed := destroyed sp |}.

Definition onPlayerLeft (playerId : string) (s : State) : Result :=
  let s1 := console_log (left_message playerId) s in
  match get_player playerId s1 with
  | FoundSprite r =>
      Returned (set_players (delete playerId (players s1))
                  (set_sprites (alter destroy r (sprites s1)) s1))
  | FoundOther => Threw s1
  | FoundNothing => Threw s1
  end.

Definition onPlayerMoved (player : PlayerData) (s : State) : Result :=
  match get_player (id player) s with
  | FoundSprite r =>
      Returned
        (set_sprites
           (alter (setPosition (x player) (y player)) r (sprites s)) s)
  | FoundOther => Threw s
  | FoundNothing => Returned s
  end.

Definition movePlayer (px py : Z) (s : State) : State :=
  socket_emit (PlayerMoved px py) s.

(** The socket events and the one call of the game. *)
Inductive Event :=
| Connect
| Disconnect
| PlayerJoined (player : PlayerData)
| PlayerLeft (playerId : string)
| PlayerMovedEvent (player : PlayerData)
| MovePlayer (px py : Z).

Definition handle (e : Event) (s : State) : Result :=
  match e with
  | Connect => Returned (onConnect s)
  | Disconnect => Returned (onDisconnect s)
  | PlayerJoined player => Returned (onPlayerJoined player s)
  | PlayerLeft playerId => onPlayerLeft playerId s
  | PlayerMovedEvent player => onPlayerMoved player s
  | MovePlayer px py => Returned (movePlayer px py s)
  end.

(** The events are handled one after the other; a handler that throws
    leaves the state it had reached. *)
Definition run (es : list Event) (s : State) : State :=
  foldl (fun s e => state_of (handle e s)) s es.

(** Every own entry of [players] is a sprite of the scene that was not
    destroyed, two ids never share a sprite, [__proto__] is no own entry,
    and a sprite that is the prototype is a sprite of the scene that no own
    entry refers to. *)
Definition consistent (s : State) : Prop :=
  (∀ i r, players s !! i = Some r ->
     ∃ sp, sprites s !! r = Some sp ∧ destroyed sp = false)
  ∧ (∀ i j r, players s !! i = Some r -> players s !! j = Some r -> i = j)
  ∧ players s !! "__proto__" = None
  ∧ ∀ r, prototype s = Some r ->
         (r < length (sprites s))%nat ∧ ∀ i, players s !! i ≠ Some r.

(** No lookup in [players] finds the sprite [r]. *)
Definition orphan (r : nat) (s : State) : Prop :=
  (r < length (sprites s))%nat
  ∧ (∀ i, players s !! i ≠ Some r)
  ∧ prototype s ≠ Some r.

End Multiplayer.

(** A game with no sprites of its own, one player who joined, and one who
    joined under the id [__proto__]. *)
Module MultiplayerDemo.

Import Multiplayer.

Definition lobby : State := constructor "test-game" [].

Definition player1 : PlayerData := {| id := "player1"; x := 100; y := 200 |}.

Definition intruder : PlayerData := {| id := "__proto__"; x := 1; y := 2 |}.

Definition joined : list Event := [Connect; PlayerJoined player1].

End MultiplayerDemo.

(** * LevelEditor and LevelManager (level-editor.js)

    The editor paints tile indices into the array [levelData], addressed by
    the grid cell under the pointer, and saves the array as JSON; the
    manager loads such an array and draws one sprite per tile.

    - [levelData] is a JavaScript array written at computed keys: a key that
      is an array index extends [length], any other key is a plain property
      that [JSON.stringify] and [forEach] do not see.
    - A saved file is the JSON value itself, an array of numbers and
      [null]s; [JSON.stringify] writes holes and [undefined] as [null].
    - On integers [%] is the remainder that takes the sign of the dividend
      ([Z.rem]); [worldX / gridSize] divides a multiple of [gridSize], and
      [Math.floor(index / width)] is [Z.div].  The scale width of a scene is
      not zero.
    - A loop that does not come to an end within the fuel gives [None]. *)

Module LevelEditor.

Record Tileset := {
  index : option Z;
  firstgid : Z;
  total : Z;
  tiles : list string
}.

#[global] Instance Tileset_eq_dec : EqDecision Tileset.
Proof. solve_decision. Defined.

(** An element of [levelData] in memory. *)
Inductive Cell :=
| CTile (i : Z)
| CUndefined
| CNull.

#[global] Instance Cell_eq_dec : EqDecision Cell.
Proof. solve_decision. Defined.

Record JsArray := { elems : gmap Z Cell; len : Z }.

Definition empty_array : JsArray := {| elems := ∅; len := 0 |}.

(** [a[k] = v]. *)
Definition array_set (k : Z) (v : Cell) (a : JsArray) : JsArray :=
  {| elems := <[k := v]> (elems a);
     len := if decide (0 <= k < 2 ^ 32 - 1) then Z.max (len a) (k + 1)
            else len a |}.

(** Of an array: [length] is at most 2^32 - 1 and lies beyond every
    element. *)
Definition array_wf (a : JsArray) : Prop :=
  0 <= len a <= 2 ^ 32 - 1
  ∧ ∀ i c, elems a !! i = Some c -> 0 <= i < 2 ^ 32 - 1 -> i < len a.

(** The value [JSON.stringify] writes for the element at [i]. *)
Definition json_at (a : JsArray) (i : Z) : option Z :=
  match elems a !! i with
  | Some (CTile t) => Some t
  | _ => None
  end.

(** [JSON.parse(JSON.stringify(a))]. *)
Definition to_json (a : JsArray) : list (option Z) :=
  json_at a <$> seqZ 0 (len a).

Inductive GridCmd :=
| LineStyle (lineWidth color : Z) (alpha : QArith_base.Q)
| MoveTo (x y : Z)
| LineTo (x y : Z)
| StrokePath.

Record Pointer := { pointer_x : Z; pointer_y : Z; leftButtonDown : bool }.

Record Text := { text_x : Z; text_y : Z; text : string; listener : string }.

Record State := {
  width : Z;
  height : Z;
  tilesets : list (string * Tileset);
  gridSize : Z;
  levelData : JsArray;
  selectedTile : option Tileset;
  pointerDown : bool;
  grid : list GridCmd;
  tilesetContainer : list string;
  input_listeners : list string;
  buttons : list Text;
  downloads : list (string * list (option Z));
  console : list (list (option Z))
}.

Definition set_levelData (a : JsArray) (s : State) : State :=
  {| width := width s; height := height s; tilesets := tilesets s;
     gridSize := gridSize s; levelData := a; selectedTile := selectedTile s;
     pointerDown := pointerDown s; grid := grid s;
     tilesetContainer := tilesetContainer s;
     input_listeners := input_listeners s; buttons := buttons s;
     downloads := downloads s; console := console s |}.

Definition set_selectedTile (t : option Tileset) (s : State) : State :=
  {| width := width s; height := height s; tilesets := tilesets s;
     gridSize := gridSize s; levelData := levelData s; selectedTile := t;
     pointerDown := pointerDown s; grid := grid s;
     tilesetContainer := tilesetContainer s;
     input_listeners := input_listeners s; buttons := buttons s;
     downloads := downloads s; console := console s |}.

Definition set_pointerDown (b : bool) (s : State) : State :=
  {| width := width s; height := height s; tilesets := tilesets s;
     gridSize := gridSize s; levelData := levelData s;
     selectedTile := selectedTile s; pointerDown := b; grid := grid s;
     tilesetContainer := tilesetContainer s;
     input_listeners := input_listeners s; buttons := buttons s;
     downloads := downloads s; console := console s |}.

Definition set_grid (g : list GridCmd) (s : State) : State :=
  {| width := width s; height := height s; tilesets := tilesets s;
     gridSize := gridSize s; levelData := levelData s;
     selectedTile := selectedTile s; pointerDown := pointerDown s; grid := g;
     tilesetContainer := tilesetContainer s;
     input_listeners := input_listeners s; buttons := buttons s;
     downloads := downloads s; console := console s |}.

(** [for (let v = from; v < limit; v += step) { moveTo; lineTo }]. *)
Fixpoint lines (fuel : nat) (v limit step : Z) (line : Z -> list GridCmd)
    : option (list GridCmd) :=
  match fuel with
  | O => None
  | S fuel' =>
      if decide (v < limit)
      then rest ← lines fuel' (v + step) limit step line; Some (line v ++ rest)
      else Some []
  end.

(** The multiples of [step] from 0 that are below [limit]. *)
Definition stops (limit step : Z) : list Z :=
  (fun i => i * step) <$> seqZ 0 ((limit + step - 1) / step).

Definition drawGrid (fuel : nat) (s : State) : option State :=
  vertical ← lines fuel 0 (width s) (gridSize s)
                (fun x => [MoveTo x 0; LineTo x (height s)]);
  horizontal ← lines fuel 0 (height s) (gridSize s)
                  (fun y => [MoveTo 0 y; LineTo (width s) y]);
  Some (set_grid ([LineStyle 1 0 (QArith_base.Qmake 1 2)] ++ vertical
                  ++ horizontal ++ [StrokePath]) s).

(** What [initializeEditor] does after the grid: a new container with one
    interactive sprite per tileset key, three more pointer listeners on the
    scene, two more buttons. *)
Definition add_controls (s : State) : State :=
  {| width := width s; height := height s; tilesets := tilesets s;
     gridSize := gridSize s; levelData := levelData s;
     selectedTile := selectedTile s; pointerDown := pointerDown s;
     grid := grid s;
     tilesetContainer := fst <$> tilesets s;
     input_listeners :=
       input_listeners s ++ ["pointerdown"; "pointermove"; "pointerup"];
     buttons :=
       buttons s
       ++ [{| text_x := 10; text_y := 10; text := "Save Level";
              listener := "saveLevel" |};
           {| text_x := 120; text_y := 10; text := "Share Level";
              listener := "shareLevel" |}];
     downloads := downloads s; console := console s |}.

Definition initializeEditor (fuel : nat) (s : State) : option State :=
  s1 ← drawGrid fuel s;
  Some (add_controls s1).

(** [config.gridSize || 32]: a missing or zero grid size becomes 32. *)
Definition gridSize_or_default (configured : option Z) : Z :=
  match configured with
  | Some g => if decide (g = 0) then 32 else g
  | None => 32
  end.

Definition constructor (fuel : nat) (w h : Z)
    (config_tilesets : list (string * Tileset)) (config_gridSize : option Z)
    : option State :=
  initializeEditor fuel
    {| width := w; height := h; tilesets := config_tilesets;
       gridSize := gridSize_or_default config_gridSize;
       levelData := empty_array; selectedTile := None; pointerDown := false;
       grid := []; tilesetContainer := []; input_listeners := [];
       buttons := []; downloads := []; console := [] |}.

(** The key [placeTile] writes at for a pointer. *)
Definition tile_key (s : State) (pointer : Pointer) : Z :=
  let worldX := pointer_x pointer - Z.rem (pointer_x pointer) (gridSize s) in
  let worldY := pointer_y pointer - Z.rem (pointer_y pointer) (gridSize s) in
  let tileX := Z.quot worldX (gridSize s) in
  let tileY := Z.quot worldY (gridSize s) in
  tileY * width s + tileX.

(** [this.selectedTile.index]. *)
Definition cell_of (t : Tileset) : Cell :=
  match index t with
  | Some i => CTile i
  | None => CUndefined
  end.

Definition placeTile (pointer : Pointer) (s : State) : State :=
  match selectedTile s with
  | Some t => set_levelData (array_set (tile_key s pointer) (cell_of t) (levelData s)) s
  | None => set_levelData (array_set (tile_key s pointer) CNull (levelData s)) s
  end.

Definition handlePointerDown (pointer : Pointer) (s : State) : State :=
  if leftButtonDown pointer then placeTile pointer (set_pointerDown true s)
  else s.

Definition handlePointerMove (pointer : Pointer) (s : State) : State :=
  if pointerDown s then
    match selectedTile s with
    | Some _ => placeTile pointer s
    | None => s
    end
  else s.

Definition handlePointerUp (pointer : Pointer) (s : State) : State :=
  set_pointerDown false s.

(** The [pointerdown] listener of the sprite of the tileset [key]. *)
Definition select_tileset (key : string) (s : State) : State :=
  match list_find (fun kt => kt.1 = key) (tilesets s) with
  | Some (_, (_, t)) => set_selectedTile (Some t) s
  | None => s
  end.

Definition saveLevel (s : State) : State :=
  {| width := width s; height := height s; tilesets := tilesets s;
     gridSize := gridSize s; levelData := levelData s;
     selectedTile := selectedTile s; pointerDown := pointerDown s;
     grid := grid s; tilesetContainer := tilesetContainer s;
     input_listeners := input_listeners s; buttons := buttons s;
     downloads := downloads s ++ [("level.json", to_json (levelData s))];
     console := console s |}.

Definition shareLevel (s : State) : State :=
  {| width := width s; height := height s; tilesets := tilesets s;
     gridSize := gridSize s; levelData := levelData s;
     selectedTile := selectedTile s; pointerDown := pointerDown s;
     grid := grid s; tilesetContainer := tilesetContainer s;
     input_listeners := input_listeners s; buttons := buttons s;
     downloads := downloads s;
     console := console s ++ [to_json (levelData s)] |}.

(** What the user does in the editor. *)
Inductive Event :=
| TilesetClicked (key : string)
| PointerDown (pointer : Pointer)
| PointerMove (pointer : Pointer)
| PointerUp (pointer : Pointer)
| SaveClicked
| ShareClicked.

Definition handle (e : Event) (s : State) : State :=
  match e with
  | TilesetClicked key => select_tileset key s
  | PointerDown pointer => handlePointerDown pointer s
  | PointerMove pointer => handlePointerMove pointer s
  | PointerUp pointer => handlePointerUp pointer s
  | SaveClicked => saveLevel s
  | ShareClicked => shareLevel s
  end.

Definition run (es : list Event) (s : State) : State :=
  foldl (fun s e => handle e s) s es.

(** The selected tileset and every tileset of the editor have an [index]. *)
Definition indexed (s : State) : Prop :=
  (∃ t, selectedTile s = Some t ∧ is_Some (index t))
  ∧ Forall (fun kt => is_Some (index kt.2)) (tilesets s).

End LevelEditor.

Module LevelManager.

Import LevelEditor.

Record Sprite := { sprite_x : Z; sprite_y : Z; texture : string }.

Record State := {
  width : Z;
  tilesets : list (string * Tileset);
  gridSize : Z;
  levelData : list (option Z);
  sprites : list Sprite
}.

Inductive Result :=
| Returned (s : State)
| Threw (s : State).

Definition constructor (w : Z) (config_tilesets : list (string * Tileset))
    (config_gridSize : option Z) : State :=
  {| width := w; tilesets := config_tilesets;
     gridSize := gridSize_or_default config_gridSize; levelData := [];
     sprites := [] |}.

Definition add_sprite (sp : Sprite) (s : State) : State :=
  {| width := width s; tilesets := tilesets s; gridSize := gridSize s;
     levelData := levelData s; sprites := sprites s ++ [sp] |}.

(** [t.firstgid <= tileIndex && t.firstgid + t.total > tileIndex]. *)
Definition covers (tileIndex : Z) (t : Tileset) : Prop :=
  firstgid t <= tileIndex ∧ firstgid t + total t > tileIndex.

#[global] Instance covers_dec tileIndex t : Decision (covers tileIndex t).
Proof. unfold covers. apply _. Defined.

(** [Object.values(this.tilesets).find(...)]. *)
Definition find_tileset (tileIndex : Z) (s : State) : option Tileset :=
  snd <$> list_find (covers tileIndex) (snd <$> tilesets s).

(** The body of the [forEach] callback of [drawLevel]. *)
Definition draw_tile (tileIndex : option Z) (i : Z) (s : State) : Result :=
  match tileIndex with
  | None => Returned s
  | Some tileIndex =>
      let tileX := Z.rem i (width s) * gridSize s in
      let tileY := (i / width s) * gridSize s in
      match find_tileset tileIndex s with
      | None => Threw s
      | Some tileset =>
          match tiles tileset !! Z.to_nat (tileIndex - firstgid tileset) with
          | None => Threw s
          | Some image =>
              Returned (add_sprite {| sprite_x := tileX; sprite_y := tileY;
                                      texture := image |} s)
          end
      end
  end.

(** [forEach] from the element at index [i]. *)
Fixpoint drawLevel_from (l : list (option Z)) (i : Z) (s : State) : Result :=
  match l with
  | [] => Returned s
  | tileIndex :: l' =>
      match draw_tile tileIndex i s with
      | Returned s1 => drawLevel_from l' (i + 1) s1
      | Threw s1 => Threw s1
      end
  end.

Definition drawLevel (s : State) : Result :=
  drawLevel_from (levelData s) 0 s.

(** The [onload] callback of [loadLevel] for a file holding [json]. *)
Definition loadLevel (json : list (option Z)) (s : State) : Result :=
  drawLevel
    {| width := width s; tilesets := tilesets s; gridSize := gridSize s;
       levelData := json; sprites := sprites s |}.

(** Every tile index has a tileset that covers it and holds its image. *)
Definition drawable (s : State) (tileIndex : Z) : Prop :=
  ∃ t image,
    find_tileset tileIndex s = Some t
    ∧ tiles t !! Z.to_nat (tileIndex - firstgid t) = Some image.

(** The configuration [drawLevel] reads. *)
Definition same_config (s s' : State) : Prop :=
  width s' = width s ∧ gridSize s' = gridSize s ∧ tilesets s' = tilesets s.

(** The sprite [drawLevel] adds for the element at index [i] when its image
    is [image]. *)
Definition sprite_of (s : State) (i : Z) (image : string) : Sprite :=
  {| sprite_x := Z.rem i (width s) * gridSize s;
     sprite_y := (i / width s) * gridSize s;
     texture := image |}.

(** The elements of a level that are not [null]. *)
Definition tiles_of (l : list (option Z)) : list Z := omap id l.

End LevelManager.

(** A small canvas, eight by six with cells of size two, one tileset with
    two images, and a manager for the same scene. *)
Module LevelDemo.

Import LevelEditor.

Definition grass : Tileset :=
  {| index := Some 1; firstgid := 1; total := 10;
     tiles := ["tile1.png"; "tile2.png"] |}.

(** A tileset as the test of the source configures it, without [index]. *)
Definition bare : Tileset :=
  {| index := None; firstgid := 1; total := 10;
     tiles := ["tile1.png"; "tile2.png"] |}.

Definition canvas (sel : option Tileset) (g : Z) : LevelEditor.State :=
  {| width := 8; height := 6; tilesets := [("tiles", grass)]; gridSize := g;
     levelData := empty_array; selectedTile := sel; pointerDown := false;
     grid := []; tilesetContainer := []; input_listeners := [];
     buttons := []; downloads := []; console := [] |}.

(** The cell under [at_5_3] painted with [grass], then [bare] selected. *)
Definition painted_then_bare : LevelEditor.State :=
  set_selectedTile (Some bare)
    (placeTile {| pointer_x := 5; pointer_y := 3; leftButtonDown := true |}
       (canvas (Some grass) 2)).

Definition at_5_3 : Pointer :=
  {| pointer_x := 5; pointer_y := 3; leftButtonDown := true |}.

Definition at_4_2 : Pointer :=
  {| pointer_x := 4; pointer_y := 2; leftButtonDown := true |}.

Definition above : Pointer :=
  {| pointer_x := 5; pointer_y := -3; leftButtonDown := true |}.

Definition good_level : list (option Z) := [Some 1; None; Some 2].

Definition broken_start : list (option Z) := [Some 1; None].

Definition broken_level : list (option Z) := broken_start ++ Some 3 :: [Some 2].

Definition manager (l : list (option Z)) : LevelManager.State :=
  {| LevelManager.width := 8; LevelManager.tilesets := [("tiles", grass)];
     LevelManager.gridSize := 2; LevelManager.levelData := l;
     LevelManager.sprites := [] |}.

(** The file [saveLevel] writes after the cell under [at_5_3] was painted
    with [grass], and the manager after it loaded that file. *)
Definition saved_file : string * list (option Z) :=
  ("level.json",
   to_json (levelData (placeTile at_5_3 (canvas (Some grass) 2)))).

Definition loaded : LevelManager.State :=
  match LevelManager.loadLevel saved_file.2 (manager []) with
  | LevelManager.Returned s => s
  | LevelManager.Threw s => s
  end.

End LevelDemo.

Import PowerupManager.

(** * Properties *)

(** ** [indexOf] and [splice] *)

Section ArrayLemmas.

Implicit Types (x y : ActivePowerup) (l : list ActivePowerup).

Lemma indexOf_lower x l : -1 <= indexOf x l.
Proof.
  induction l as [|y l IH]; simpl; [lia|].
  destruct (decide (y = x)); [lia|].
  destruct (decide (indexOf x l = -1)); lia.
Qed.

Lemma indexOf_absent x l : indexOf x l = -1 <-> x ∉ l.
Proof.
  induction l as [|y l IH]; simpl.
  - split; [intros _; apply not_elem_of_nil | reflexivity].
  - rewrite not_elem_of_cons.
    destruct (decide (y = x)) as [->|Hne].
    + split; [lia | intros [H _]; congruence].
    + pose proof (indexOf_lower x l).
      destruct (decide (indexOf x l = -1)) as [He|He].
      * split; [intros _; split; [congruence | by apply IH] | reflexivity].
      * split; [lia | intros [_ H']; apply IH in H'; congruence].
Qed.

Lemma indexOf_present x l : indexOf x l ≠ -1 <-> x ∈ l.
Proof.
  rewrite indexOf_absent. split; [|tauto].
  intros H. destruct (decide (x ∈ l)); tauto.
Qed.

Lemma indexOf_first l1 x l2 :
  x ∉ l1 -> indexOf x (l1 ++ x :: l2) = Z.of_nat (length l1).
Proof.
  induction l1 as [|y l1 IH]; simpl; intros Hnot.
  - by rewrite decide_True.
  - apply not_elem_of_cons in Hnot as [Hne Hnot].
    rewrite decide_False by congruence.
    rewrite IH by done. rewrite decide_False by lia. lia.
Qed.

Lemma splice1_at l1 x l2 :
  splice1 (Z.of_nat (length l1)) (l1 ++ x :: l2) = l1 ++ l2.
Proof.
  unfold splice1. rewrite Nat2Z.id.
  rewrite take_app_length.
  replace (S (length l1)) with (length (l1 ++ [x]))
    by (rewrite length_app; simpl; lia).
  by rewrite (cons_middle x l1 l2), app_assoc, drop_app_length.
Qed.

(** What [indexOf] followed by [splice(index, 1)] does to an array that
    holds [x]: the first occurrence goes, the rest stays in place. *)
Lemma splice_indexOf l1 x l2 :
  x ∉ l1 ->
  splice1 (indexOf x (l1 ++ x :: l2)) (l1 ++ x :: l2) = l1 ++ l2.
Proof. intros H. rewrite indexOf_first by done. apply splice1_at. Qed.

Lemma splice_indexOf_length x l :
  x ∈ l -> S (length (splice1 (indexOf x l) l)) = length l.
Proof.
  intros Hin. apply list_elem_of_split_l in Hin as (l1 & l2 & -> & Hnot).
  rewrite splice_indexOf by done. rewrite !length_app. simpl. lia.
Qed.

Lemma splice_indexOf_NoDup x l :
  NoDup l -> x ∈ l ->
  NoDup (splice1 (indexOf x l) l) ∧ (x ∉ splice1 (indexOf x l) l)
  ∧ (∀ y, y ∈ splice1 (indexOf x l) l <-> y ∈ l ∧ y ≠ x).
Proof.
  intros Hnd Hin. apply list_elem_of_split_l in Hin as (l1 & l2 & -> & Hnot).
  rewrite splice_indexOf by done.
  apply NoDup_app in Hnd as (Hnd1 & Hdisj & Hnd2).
  apply NoDup_cons in Hnd2 as [Hx2 Hnd2].
  split; [|split].
  - apply NoDup_app. split; [done|]. split; [|done].
    intros y Hy Hy2. apply (Hdisj y Hy). by right.
  - rewrite elem_of_app. tauto.
  - intros y. rewrite !elem_of_app, elem_of_cons. split.
    + intros [Hy|Hy]; (split; [tauto|]); intros ->; tauto.
    + tauto.
Qed.

End ArrayLemmas.

(** ** The methods, unfolded *)

Section MethodEquations.

Variable invoke : Invoke.

Lemma deactivatePowerup_present ap p s :
  ap ∈ activePowerups s ->
  deactivatePowerup invoke ap p s
  = invoke (effect ap) (Some ap) p false (deactivated ap p s).
Proof.
  intros Hin. unfold deactivatePowerup.
  rewrite decide_True by (by apply indexOf_present). reflexivity.
Qed.

Lemma deactivatePowerup_absent ap p s :
  ap ∉ activePowerups s -> deactivatePowerup invoke ap p s = Some s.
Proof.
  intros Hnot. unfold deactivatePowerup.
  apply indexOf_absent in Hnot. rewrite decide_False by lia. reflexivity.
Qed.

Lemma activatePowerup_unfold p powerup s :
  activatePowerup invoke p powerup s
  = (s3 ← invoke (data_effect powerup) None p true (activated p powerup s);
     Some (time_delayedCall (data_duration powerup) (new_entry powerup s) p s3)).
Proof. reflexivity. Qed.

End MethodEquations.

(** ** Passive effect functions: the methods are total *)

Lemma filter_cons_split {A} (P : A -> Prop) `{!∀ x, Decision (P x)}
    (l : list A) (x : A) (e : list A) :
  filter P l = x :: e ->
  ∃ l1 l2, l = l1 ++ x :: l2 ∧ Forall (fun y => ¬ P y) l1 ∧ P x
           ∧ filter P l2 = e.
Proof.
  induction l as [|y l IH]; [done|].
  rewrite filter_cons. destruct (decide (P y)) as [Hy|Hy].
  - intros [= -> <-]. exists [], l. by repeat split.
  - intros Hf. destruct (IH Hf) as (l1 & l2 & -> & Hall & Hx & He).
    exists (y :: l1), l2. repeat split; [by constructor | done | done].
Qed.

Lemma filter_none {A} (P : A -> Prop) `{!∀ x, Decision (P x)} (l : list A) :
  Forall (fun y => ¬ P y) l -> filter P l = [].
Proof.
  induction 1 as [|y l Hy _ IH]; [done|].
  by rewrite filter_cons_False.
Qed.

Lemma filter_all {A} (P : A -> Prop) `{!∀ x, Decision (P x)} (l : list A) :
  Forall P l -> filter P l = l.
Proof.
  induction 1 as [|y l Hy _ IH]; [done|].
  rewrite filter_cons_True by done. by rewrite IH.
Qed.

Section Passive.

Variable n : nat.

Lemma run_effect_passive f this p flag s :
  run_effect passive (S n) f this p flag s = Some s.
Proof. reflexivity. Qed.

Lemma deactivatePowerup_passive ap p s :
  deactivatePowerup (run_effect passive (S n)) ap p s
  = Some (if decide (ap ∈ activePowerups s) then deactivated ap p s else s).
Proof.
  destruct (decide (ap ∈ activePowerups s)) as [Hin|Hnot].
  - by rewrite deactivatePowerup_present.
  - by rewrite deactivatePowerup_absent.
Qed.

Lemma activatePowerup_passive p powerup s :
  activatePowerup (run_effect passive (S n)) p powerup s
  = Some (time_delayedCall (data_duration powerup) (new_entry powerup s) p
            (activated p powerup s)).
Proof. reflexivity. Qed.

Lemma forEach_passive (P : ActivePowerup -> Prop) `{!∀ x, Decision (P x)} :
  ∀ e s, e = filter P (activePowerups s) ->
    forEach_deactivate (run_effect passive (S n)) e s
    = Some {| scene := scene s; powerupData := powerupData s;
              activePowerups := filter (fun a => ¬ P a) (activePowerups s);
              console := console s;
              effectCalls :=
                effectCalls s ++
                ((fun a => reversal_call a (player (scene s))) <$> e);
              next_object := next_object s |}.
Proof.
  induction e as [|x e IH]; intros s He; cbn [forEach_deactivate].
  - f_equal. destruct s as [sc pd l co ec no]; simpl in *.
    rewrite app_nil_r. f_equal.
    symmetry. apply filter_all. apply Forall_forall. intros a Ha Hp.
    assert (a ∈ filter P l) as Hf by (apply list_elem_of_filter; done).
    rewrite <- He in Hf. by apply not_elem_of_nil in Hf.
  - symmetry in He.
    destruct (filter_cons_split P _ _ _ He) as (l1 & l2 & Hl & Hall & Hx & He').
    assert (x ∉ l1) as Hnot.
    { intros Hin. rewrite Forall_forall in Hall. by apply (Hall x). }
    rewrite deactivatePowerup_passive.
    rewrite decide_True by (rewrite Hl, elem_of_app; right; left).
    cbn [mbind option_bind].
    rewrite (IH (deactivated x (player (scene s)) s)).
    + f_equal. unfold deactivated. simpl. rewrite Hl.
      rewrite splice_indexOf by done.
      rewrite !filter_app, filter_cons_False by tauto.
      by rewrite <- app_assoc.
    + unfold deactivated. simpl. rewrite Hl, splice_indexOf by done.
      rewrite filter_app, He'. by rewrite filter_none.
Qed.

Lemma update_passive time delta s :
  update (run_effect passive (S n)) time delta s = Some (swept time s).
Proof.
  unfold update. rewrite (forEach_passive (fun a => time >= expirationTime a)) by done.
  f_equal. unfold swept. f_equal.
  apply list_filter_iff. intros a. lia.
Qed.

Lemma perform_passive_total c s :
  is_Some (perform (run_effect passive (S n)) c s).
Proof.
  destruct c; simpl; [done | | |].
  - by rewrite activatePowerup_passive.
  - by rewrite deactivatePowerup_passive.
  - by rewrite update_passive.
Qed.

End Passive.

(** ** Every method is a sequence of atomic mutations *)

Lemma createPowerup_mutations ty x y s :
  rtc mutation s (createPowerup ty x y s).
Proof.
  unfold createPowerup. destruct (powerupData s !! ty) as [d|].
  - unfold physics_add_overlap, physics_add_sprite.
    eapply rtc_l; [apply mutation_scene|].
    eapply rtc_l; [apply mutation_alloc|].
    apply rtc_once, mutation_scene.
  - case_decide.
    + unfold physics_add_stray_overlap, physics_add_stray.
      eapply rtc_l; [apply mutation_scene|].
      eapply rtc_l; [apply mutation_alloc|].
      apply rtc_once, mutation_scene.
    + apply rtc_once, mutation_warn.
Qed.

Section MethodMutations.

Variable invoke : Invoke.
Hypothesis invoke_mutations : by_mutations invoke.

Lemma activatePowerup_mutations p powerup s s' :
  activatePowerup invoke p powerup s = Some s' -> rtc mutation s s'.
Proof.
  rewrite activatePowerup_unfold. intros H.
  destruct (invoke _ _ _ _ _) as [s3|] eqn:E; [|done].
  simpl in H. injection H as <-.
  eapply rtc_l; [apply mutation_activate|].
  eapply rtc_trans; [by eapply invoke_mutations|].
  apply rtc_once, mutation_scene.
Qed.

Lemma deactivatePowerup_mutations ap p s s' :
  deactivatePowerup invoke ap p s = Some s' -> rtc mutation s s'.
Proof.
  destruct (decide (ap ∈ activePowerups s)) as [Hin|Hnot].
  - rewrite deactivatePowerup_present by done. intros H.
    eapply rtc_l; [by apply mutation_deactivate|].
    by eapply invoke_mutations.
  - rewrite deactivatePowerup_absent by done. by intros [= <-].
Qed.

Lemma forEach_mutations l s s' :
  forEach_deactivate invoke l s = Some s' -> rtc mutation s s'.
Proof.
  revert s. induction l as [|x l IH]; intros s; cbn [forEach_deactivate].
  - by intros [= <-].
  - destruct (deactivatePowerup invoke x _ s) as [s1|] eqn:E; [|done].
    cbn [mbind option_bind]. intros H.
    eapply rtc_trans; [by eapply deactivatePowerup_mutations|].
    by apply IH.
Qed.

Lemma update_mutations time delta s s' :
  update invoke time delta s = Some s' -> rtc mutation s s'.
Proof. apply forEach_mutations. Qed.

Lemma perform_mutations c s s' :
  perform invoke c s = Some s' -> rtc mutation s s'.
Proof.
  destruct c; simpl.
  - intros [= <-]. apply createPowerup_mutations.
  - apply activatePowerup_mutations.
  - apply deactivatePowerup_mutations.
  - apply update_mutations.
Qed.

Lemma run_script_mutations sc s s' :
  run_script invoke sc s = Some s' -> rtc mutation s s'.
Proof.
  revert s. induction sc as [|c k IH]; intros s; cbn [run_script].
  - by intros [= <-].
  - destruct (perform invoke c s) as [s1|] eqn:E; [|done].
    cbn [mbind option_bind]. intros H.
    eapply rtc_trans; [by eapply perform_mutations|]. by eapply IH.
Qed.

Lemma step_mutations i s s' :
  step invoke i s = Some s' -> rtc mutation s s'.
Proof.
  destruct i as [c|k|k|t]; cbn [step].
  - apply perform_mutations.
  - destruct (overlaps (scene s) !! k) as [o|]; [|by intros [= <-]].
    case_decide; [by intros [= <-]|]. apply activatePowerup_mutations.
  - destruct (delayedCalls (scene s) !! k) as [dc|]; [|by intros [= <-]].
    intros H. eapply rtc_l; [apply mutation_scene|].
    eapply deactivatePowerup_mutations. exact H.
  - case_decide; intros [= <-]; [|done]. apply rtc_once, mutation_scene.
Qed.

Lemma run_mutations inputs s s' :
  run invoke inputs s = Some s' -> rtc mutation s s'.
Proof.
  revert s. induction inputs as [|i inputs IH]; intros s; cbn [run].
  - by intros [= <-].
  - destruct (step invoke i s) as [s1|] eqn:E; [|done].
    cbn [mbind option_bind]. intros H.
    eapply rtc_trans; [by eapply step_mutations|]. by apply IH.
Qed.

End MethodMutations.

Lemma run_effect_mutations body fuel : by_mutations (run_effect body fuel).
Proof.
  induction fuel as [|n IH]; intros f this p flag s s'; simpl; [done|].
  by apply run_script_mutations.
Qed.

(** ** Counting reversals *)

Lemma reversals_snoc ap log c :
  reversals ap (log ++ [c])
  = (reversals ap log + (if decide (is_reversal ap c) then 1 else 0))%nat.
Proof.
  unfold reversals. rewrite filter_app, length_app. f_equal.
  rewrite filter_cons, filter_nil. by case_decide.
Qed.

Lemma reversals_app ap log1 log2 :
  reversals ap (log1 ++ log2) = (reversals ap log1 + reversals ap log2)%nat.
Proof. unfold reversals. by rewrite filter_app, length_app. Qed.

Lemma is_reversal_reversal_call ap ap' p :
  is_reversal ap (reversal_call ap' p) <-> ap' = ap.
Proof.
  unfold is_reversal, reversal_call; simpl. split.
  - by intros [[= ->] _].
  - by intros ->.
Qed.

Lemma not_reversal_activation_call ap f p :
  ¬ is_reversal ap (activation_call f p).
Proof. unfold is_reversal, activation_call; simpl. by intros [? ?]. Qed.

Lemma reversals_snoc_activation ap log f p :
  reversals ap (log ++ [activation_call f p]) = reversals ap log.
Proof.
  rewrite reversals_snoc, decide_False; [lia|].
  apply not_reversal_activation_call.
Qed.

Lemma reversals_snoc_same ap log p :
  reversals ap (log ++ [reversal_call ap p]) = S (reversals ap log).
Proof.
  rewrite reversals_snoc, decide_True; [lia|].
  by apply is_reversal_reversal_call.
Qed.

Lemma reversals_snoc_other ap ap' log p :
  ap' ≠ ap ->
  reversals ap (log ++ [reversal_call ap' p]) = reversals ap log.
Proof.
  intros Hne. rewrite reversals_snoc, decide_False; [lia|].
  by rewrite is_reversal_reversal_call.
Qed.

(** An object not allocated yet has no recorded reversal. *)
Lemma reversals_unallocated s ap :
  Forall (known_receiver s) (effectCalls s) ->
  (next_object s <= ref ap)%nat ->
  reversals ap (effectCalls s) = 0%nat.
Proof.
  intros Hlog Hge. unfold reversals.
  apply length_zero_iff_nil, filter_none, Forall_forall.
  intros c Hc [Hr _]. rewrite Forall_forall in Hlog.
  specialize (Hlog c Hc). unfold known_receiver in Hlog.
  rewrite Hr in Hlog. lia.
Qed.

(** ** Invariants of the atomic mutations *)

Lemma stable_rtc I : stable I -> ∀ s s', rtc mutation s s' -> I s -> I s'.
Proof. intros HI s s' Hrtc. induction Hrtc; eauto. Qed.

Lemma known_receiver_mono s s' c :
  (next_object s <= next_object s')%nat ->
  known_receiver s c -> known_receiver s' c.
Proof. unfold known_receiver. destruct (receiver c); [lia|done]. Qed.

Lemma wf_stable : stable wf.
Proof.
  intros s s' (Hnd & Hact & Hlog) Hm.
  destruct Hm as [s sc|s|s msg|s p powerup|s ap p Hin]; unfold wf; simpl.
  - done.
  - split; [done|]. split.
    + eapply Forall_impl; [exact Hact|]. simpl. intros ? [? ?]. split; [lia|done].
    + eapply Forall_impl; [exact Hlog|]. intros c. apply known_receiver_mono. simpl. lia.
  - done.
  - pose proof (reversals_unallocated s (new_entry powerup s) Hlog) as Hnew.
    rewrite Forall_forall in Hact.
    split; [|split].
    + apply NoDup_app. split; [done|]. split; [|apply NoDup_singleton].
      intros x Hx Hx'. apply list_elem_of_singleton in Hx'. subst x.
      destruct (Hact _ Hx) as [Hlt _]. simpl in Hlt. lia.
    + apply Forall_app. split.
      * apply Forall_forall. intros x Hx. destruct (Hact _ Hx) as [Hlt Hz].
        split; [lia|]. by rewrite reversals_snoc_activation.
      * apply Forall_singleton. simpl. split; [lia|].
        rewrite reversals_snoc_activation. apply Hnew. simpl. lia.
    + apply Forall_app. split.
      * eapply Forall_impl; [exact Hlog|]. intros c.
        apply known_receiver_mono. simpl. lia.
      * apply Forall_singleton. done.
  - destruct (splice_indexOf_NoDup ap _ Hnd Hin) as (Hnd' & Hgone & Hmem).
    rewrite Forall_forall in Hact.
    split; [done|]. split.
    + apply Forall_forall. intros x Hx. apply Hmem in Hx as [Hx Hne].
      destruct (Hact _ Hx) as [Hlt Hz]. split; [done|].
      by rewrite reversals_snoc_other.
    + apply Forall_app. split; [done|].
      apply Forall_singleton. unfold known_receiver. simpl.
      by destruct (Hact _ Hin).
Qed.

Lemma next_object_mono s s' :
  rtc mutation s s' -> (next_object s <= next_object s')%nat.
Proof.
  induction 1 as [|s s1 s' Hm _ IH]; [lia|].
  etrans; [|exact IH]. destruct Hm; simpl; lia.
Qed.

Lemma absent_stable ap : stable (absent ap).
Proof.
  intros s s' (Hwf & Hlt & Hnot) Hm.
  split; [by eapply wf_stable|].
  destruct Hm as [s sc|s|s msg|s p powerup|s ap' p Hin]; simpl.
  - done.
  - split; [lia|done].
  - done.
  - split; [lia|]. rewrite elem_of_app, list_elem_of_singleton.
    intros [?| ->]; [done|]. simpl in Hlt. lia.
  - split; [done|]. destruct Hwf as (Hnd & _ & _).
    destruct (splice_indexOf_NoDup ap' _ Hnd Hin) as (_ & _ & Hmem).
    rewrite Hmem. tauto.
Qed.

Lemma tracked_stable ap : stable (tracked ap).
Proof.
  intros s s' (Hwf & Hlt & Hst) Hm.
  split; [by eapply wf_stable|].
  pose proof (absent_stable ap s s') as Habs.
  unfold Active, Deactivated in *.
  destruct Hm as [s sc|s|s msg|s p powerup|s ap' p Hin]; simpl.
  - done.
  - split; [lia|done].
  - done.
  - split; [lia|]. rewrite reversals_snoc_activation.
    destruct Hst as [[Hin Hz]|[Hnot Hone]].
    + left. split; [|done]. apply elem_of_app. by left.
    + right. split; [|done].
      destruct Habs as (_ & _ & Hnot'); [done|apply mutation_activate|].
      exact Hnot'.
  - split; [done|]. destruct Hwf as (Hnd & Hact & Hlog).
    destruct (splice_indexOf_NoDup ap' _ Hnd Hin) as (_ & Hgone & Hmem).
    destruct (decide (ap' = ap)) as [->|Hne].
    + right. split; [done|]. rewrite reversals_snoc_same.
      destruct Hst as [[_ Hz]|[Hnot _]]; [by rewrite Hz|done].
    + rewrite reversals_snoc_other by done. rewrite Hmem.
      destruct Hst as [[Hin' Hz]|[Hnot Hone]]; [left|right]; split; try done.
      tauto.
Qed.

Lemma retired_stable ap : stable (retired ap).
Proof.
  intros s s' (Hwf & Hlt & Hnot & Hone) Hm.
  destruct (tracked_stable ap s s') as (Hwf' & Hlt' & Hst); [|done|].
  { split; [done|]. split; [done|]. by right. }
  destruct (absent_stable ap s s') as (_ & _ & Hnot'); [done|done|].
  split; [done|]. split; [done|].
  destruct Hst as [[Hin _]|Hd]; [done|exact Hd].
Qed.

(** ** Reachable states *)

Lemma wf_constructor sc data : wf (constructor sc data).
Proof.
  unfold wf, constructor; simpl.
  split; [apply NoDup_nil_2|]. split; apply Forall_nil_2.
Qed.

Lemma wf_active s ap :
  wf s -> ap ∈ activePowerups s ->
  (ref ap < next_object s)%nat ∧ reversals ap (effectCalls s) = 0%nat.
Proof.
  intros (_ & Hact & _) Hin. rewrite Forall_forall in Hact. by apply Hact.
Qed.

Lemma tracked_active s ap : wf s -> ap ∈ activePowerups s -> tracked ap s.
Proof.
  intros Hwf Hin. destruct (wf_active s ap Hwf Hin) as [Hlt Hz].
  split; [done|]. split; [done|]. by left.
Qed.

Lemma tracked_absent_retired s ap : tracked ap s -> absent ap s -> retired ap s.
Proof.
  intros (Hwf & Hlt & Hst) (_ & _ & Hnot).
  split; [done|]. split; [done|].
  destruct Hst as [[Hin _]|Hd]; [done|exact Hd].
Qed.

Lemma deactivated_absent s ap p :
  wf s -> ap ∈ activePowerups s -> absent ap (deactivated ap p s).
Proof.
  intros Hwf Hin.
  split; [eapply wf_stable; [exact Hwf|by apply mutation_deactivate]|].
  destruct (wf_active s ap Hwf Hin) as [Hlt _].
  split; [exact Hlt|]. simpl.
  destruct Hwf as (Hnd & _ & _).
  by destruct (splice_indexOf_NoDup ap _ Hnd Hin) as (_ & Hgone & _).
Qed.

Section Sweeps.

Variable invoke : Invoke.
Hypothesis invoke_mutations : by_mutations invoke.

Lemma deactivatePowerup_absent_after ap p s s' :
  wf s -> (ref ap < next_object s)%nat ->
  deactivatePowerup invoke ap p s = Some s' -> absent ap s'.
Proof.
  intros Hwf Hlt. destruct (decide (ap ∈ activePowerups s)) as [Hin|Hnot].
  - rewrite deactivatePowerup_present by done. intros H.
    eapply (stable_rtc _ (absent_stable ap)).
    + eapply invoke_mutations, H.
    + by apply deactivated_absent.
  - rewrite deactivatePowerup_absent by done. intros [= <-].
    split; [done|]. by split.
Qed.

Lemma forEach_absent_after l s s' :
  wf s -> Forall (fun x => (ref x < next_object s)%nat) l ->
  forEach_deactivate invoke l s = Some s' -> Forall (fun x => absent x s') l.
Proof.
  revert s. induction l as [|x l IH]; intros s Hwf Hall; [by constructor|].
  cbn [forEach_deactivate].
  destruct (deactivatePowerup invoke x _ s) as [s1|] eqn:E; [|done].
  cbn [mbind option_bind]. intros H.
  apply Forall_cons in Hall as [Hx Hall].
  pose proof (deactivatePowerup_absent_after _ _ _ _ Hwf Hx E) as Habs.
  pose proof (deactivatePowerup_mutations invoke invoke_mutations _ _ _ _ E) as Hm.
  constructor.
  - eapply (stable_rtc _ (absent_stable x)); [|exact Habs].
    by eapply forEach_mutations.
  - apply (IH s1); [by destruct Habs| |done].
    eapply Forall_impl; [exact Hall|]. simpl. intros y Hy.
    pose proof (next_object_mono _ _ Hm). lia.
Qed.

Lemma update_absent_after time delta ap s s' :
  wf s -> ap ∈ activePowerups s -> time >= expirationTime ap ->
  update invoke time delta s = Some s' -> absent ap s'.
Proof.
  intros Hwf Hin Hexp H. unfold update in H.
  apply forEach_absent_after in H; [|done|].
  - rewrite Forall_forall in H. apply H. by apply list_elem_of_filter.
  - apply Forall_forall. intros x Hx. apply list_elem_of_filter in Hx as [_ Hx].
    by destruct (wf_active s x Hwf Hx).
Qed.

Lemma run_stable I inputs s s' :
  stable I -> run invoke inputs s = Some s' -> I s -> I s'.
Proof.
  intros HI Hrun. eapply stable_rtc; [done|]. by eapply run_mutations.
Qed.

Lemma step_stable I i s s' :
  stable I -> step invoke i s = Some s' -> I s -> I s'.
Proof.
  intros HI Hrun. eapply stable_rtc; [done|]. by eapply step_mutations.
Qed.

End Sweeps.

Lemma run_passive_total n inputs s :
  is_Some (run (run_effect passive (S n)) inputs s).
Proof.
  revert s. induction inputs as [|i inputs IH]; intros s; cbn [run]; [done|].
  assert (is_Some (step (run_effect passive (S n)) i s)) as [s1 ->].
  { destruct i as [c|k|k|t]; cbn [step].
    - apply perform_passive_total.
    - destruct (overlaps (scene s) !! k); [|done].
      case_decide; [done|]. by rewrite activatePowerup_passive.
    - destruct (delayedCalls (scene s) !! k); [|done].
      by rewrite deactivatePowerup_passive.
    - by case_decide. }
  apply IH.
Qed.

(** ** Deactivation *)

Lemma deactivated_effectCalls ap p s :
  effectCalls (deactivated ap p s) = effectCalls s ++ [reversal_call ap p].
Proof. reflexivity. Qed.

Lemma deactivated_retired ap p s :
  wf s -> ap ∈ activePowerups s -> retired ap (deactivated ap p s).
Proof.
  intros Hwf Hin.
  destruct (wf_active s ap Hwf Hin) as [Hlt Hz].
  destruct (deactivated_absent s ap p Hwf Hin) as (Hwf' & Hlt' & Hnot').
  split; [done|]. split; [done|]. split; [done|].
  by rewrite deactivated_effectCalls, reversals_snoc_same, Hz.
Qed.

(** Whatever the effect functions do, a call of [deactivatePowerup] on an
    entry of the active set that returns leaves the entry retired. *)
Lemma deactivatePowerup_retires body fuel ap p s s' :
  wf s -> ap ∈ activePowerups s ->
  deactivatePowerup (run_effect body fuel) ap p s = Some s' -> retired ap s'.
Proof.
  intros Hwf Hin H. rewrite deactivatePowerup_present in H by done.
  eapply (stable_rtc _ (retired_stable ap)).
  - eapply run_effect_mutations, H.
  - by apply deactivated_retired.
Qed.

(** ** Pending delayed calls *)

Lemma schedules_refl s : schedules s s.
Proof. split; [done|]. intros ap Hin. by left. Qed.

Lemma schedules_trans s1 s2 s3 :
  schedules s1 s2 -> schedules s2 s3 -> schedules s1 s3.
Proof.
  intros [Hp12 H12] [Hp23 H23]. split; [by etrans|].
  intros ap Hin. destruct (H23 ap Hin) as [Hin2|Hdc]; [|by right].
  destruct (H12 ap Hin2) as [Hin1|(dc & Hdc & Harg)]; [by left|].
  right. exists dc. split; [|done].
  destruct Hp23 as [extra ->]. apply elem_of_app. by left.
Qed.

Lemma splice_indexOf_subset (x y : ActivePowerup) l :
  x ∈ l -> y ∈ splice1 (indexOf x l) l -> y ∈ l.
Proof.
  intros Hin. apply list_elem_of_split_l in Hin as (l1 & l2 & -> & Hnot).
  rewrite splice_indexOf by done. rewrite !elem_of_app, elem_of_cons. tauto.
Qed.

Lemma createPowerup_schedules ty x y s : schedules s (createPowerup ty x y s).
Proof.
  unfold createPowerup.
  destruct (powerupData s !! ty); [|case_decide]; split; simpl;
    try done; intros ap Hin; by left.
Qed.

Section MethodSchedules.

Variable invoke : Invoke.
Hypothesis invoke_schedules : by_schedules invoke.

Lemma activatePowerup_schedules p powerup s s' :
  activatePowerup invoke p powerup s = Some s' -> schedules s s'.
Proof.
  rewrite activatePowerup_unfold. intros H.
  destruct (invoke _ _ _ _ _) as [s3|] eqn:E; [|done].
  simpl in H. injection H as <-.
  apply invoke_schedules in E as [Hp Hact]. split.
  - simpl. etrans; [exact Hp|]. by apply prefix_app_r.
  - simpl. intros ap Hin. destruct (Hact ap Hin) as [Hold|(dc & Hdc & Harg)].
    + simpl in Hold. apply elem_of_app in Hold as [Hold|Hnew]; [by left|].
      apply list_elem_of_singleton in Hnew as ->. right.
      eexists. split; [apply elem_of_app; right; left|done].
    + right. exists dc. split; [|done]. apply elem_of_app. by left.
Qed.

Lemma deactivatePowerup_schedules ap p s s' :
  deactivatePowerup invoke ap p s = Some s' -> schedules s s'.
Proof.
  destruct (decide (ap ∈ activePowerups s)) as [Hin|Hnot].
  - rewrite deactivatePowerup_present by done. intros H.
    eapply schedules_trans; [|by eapply invoke_schedules].
    split; [done|]. simpl. intros y Hy. left.
    by eapply splice_indexOf_subset.
  - rewrite deactivatePowerup_absent by done. intros [= <-].
    apply schedules_refl.
Qed.

Lemma forEach_schedules l s s' :
  forEach_deactivate invoke l s = Some s' -> schedules s s'.
Proof.
  revert s. induction l as [|x l IH]; intros s; cbn [forEach_deactivate].
  - intros [= <-]. apply schedules_refl.
  - destruct (deactivatePowerup invoke x _ s) as [s1|] eqn:E; [|done].
    cbn [mbind option_bind]. intros H.
    eapply schedules_trans; [by eapply deactivatePowerup_schedules|].
    by apply IH.
Qed.

Lemma perform_schedules c s s' :
  perform invoke c s = Some s' -> schedules s s'.
Proof.
  destruct c; simpl.
  - intros [= <-]. apply createPowerup_schedules.
  - apply activatePowerup_schedules.
  - apply deactivatePowerup_schedules.
  - apply forEach_schedules.
Qed.

Lemma run_script_schedules sc s s' :
  run_script invoke sc s = Some s' -> schedules s s'.
Proof.
  revert s. induction sc as [|c k IH]; intros s; cbn [run_script].
  - intros [= <-]. apply schedules_refl.
  - destruct (perform invoke c s) as [s1|] eqn:E; [|done].
    cbn [mbind option_bind]. intros H.
    eapply schedules_trans; [by eapply perform_schedules|]. by eapply IH.
Qed.

End MethodSchedules.

Lemma run_effect_schedules body fuel : by_schedules (run_effect body fuel).
Proof.
  induction fuel as [|n IH]; intros f this p flag s s'; simpl; [done|].
  by apply run_script_schedules.
Qed.

Lemma timed_schedules s s' : timed s -> schedules s s' -> timed s'.
Proof.
  intros Ht [Hp Hact] ap Hin.
  destruct (Hact ap Hin) as [Hold|Hdc]; [|done].
  destruct (Ht ap Hold) as (dc & Hdc & Harg). exists dc. split; [|done].
  destruct Hp as [extra ->]. apply elem_of_app. by left.
Qed.

Lemma elem_of_delete_other (dc dc' : DelayedCall) (k : nat)
    (l : list DelayedCall) :
  l !! k = Some dc -> dc' ∈ l -> dc' ≠ dc -> dc' ∈ delete k l.
Proof.
  revert k. induction l as [|y l IH]; intros k Hk Hin Hne.
  - by apply elem_of_nil in Hin.
  - destruct k as [|k]; simpl in *.
    + injection Hk as ->. apply elem_of_cons in Hin as [?|?]; done.
    + apply elem_of_cons in Hin as [->|Hin]; [by left|].
      right. by apply IH.
Qed.

(** In the states the host reaches, between two of its inputs, every entry
    of the active set has its delayed call pending. *)
Lemma step_timed body fuel i s s' :
  wf s -> timed s -> step (run_effect body fuel) i s = Some s' -> timed s'.
Proof.
  intros Hwf Ht. destruct i as [c|k|k|t]; cbn [step].
  - intros H. eapply timed_schedules; [exact Ht|].
    eapply perform_schedules; [apply run_effect_schedules|exact H].
  - destruct (overlaps (scene s) !! k) as [o|]; [|by intros [= <-]].
    case_decide; [by intros [= <-]|]. intros Hrun.
    eapply timed_schedules; [exact Ht|].
    eapply activatePowerup_schedules; [apply run_effect_schedules|exact Hrun].
  - destruct (delayedCalls (scene s) !! k) as [dc|] eqn:Hk; [|by intros [= <-]].
    intros H.
    pose proof (deactivatePowerup_schedules _ (run_effect_schedules body fuel)
                  _ _ _ _ H) as [Hp Hact].
    intros ap Hin. destruct (Hact ap Hin) as [Hold|Hdc]; [|done].
    simpl in Hold. destruct (Ht ap Hold) as (dc' & Hdc' & Harg).
    destruct (decide (dc' = dc)) as [->|Hne].
    + exfalso. subst ap.
      apply (deactivatePowerup_absent_after _ (run_effect_mutations body fuel))
        in H as (_ & _ & Hnot); [done| |].
      * eapply wf_stable; [exact Hwf|apply mutation_scene].
      * by destruct (wf_active s _ Hwf Hold).
    + exists dc'. split; [|done]. destruct Hp as [extra ->].
      apply elem_of_app. left. simpl. by eapply elem_of_delete_other.
  - case_decide; intros [= <-]; done.
Qed.

Lemma run_timed body fuel inputs s s' :
  wf s -> timed s -> run (run_effect body fuel) inputs s = Some s' -> timed s'.
Proof.
  revert s. induction inputs as [|i inputs IH]; intros s Hwf Ht; cbn [run].
  - by intros [= <-].
  - destruct (step (run_effect body fuel) i s) as [s1|] eqn:E; [|done].
    cbn [mbind option_bind]. apply IH.
    + eapply (step_stable _ (run_effect_mutations body fuel) wf);
        [apply wf_stable|exact E|exact Hwf].
    + by eapply step_timed.
Qed.

Lemma timed_constructor sc data : timed (constructor sc data).
Proof. intros ap Hin. by apply elem_of_nil in Hin. Qed.

(** ** States reached from the constructor *)

Lemma run_wf body fuel inputs sc data s :
  run (run_effect body fuel) inputs (constructor sc data) = Some s -> wf s.
Proof.
  intros H. eapply (run_stable _ (run_effect_mutations body fuel) wf).
  - apply wf_stable.
  - exact H.
  - apply wf_constructor.
Qed.

(** ** The sweep *)

Lemma elem_of_swept time s ap :
  ap ∈ activePowerups (swept time s)
  <-> time < expirationTime ap ∧ ap ∈ activePowerups s.
Proof.
  unfold swept; simpl.
  apply (list_elem_of_filter (fun a => time < expirationTime a)).
Qed.

Lemma elem_of_sweep_calls time s c :
  c ∈ sweep_calls time s
  <-> ∃ ap, c = reversal_call ap (player (scene s))
            ∧ time >= expirationTime ap ∧ ap ∈ activePowerups s.
Proof.
  unfold sweep_calls, expired_at. rewrite list_elem_of_fmap. split.
  - intros (ap & -> & Hin). apply list_elem_of_filter in Hin. by exists ap.
  - intros (ap & -> & Hexp & Hin). exists ap. split; [done|].
    by apply list_elem_of_filter.
Qed.

Lemma reversals_reversal_calls ap p l :
  reversals ap ((fun a => reversal_call a p) <$> l)
  = length (filter (fun a => a = ap) l).
Proof.
  induction l as [|a l IH]; [done|].
  rewrite fmap_cons. change (reversal_call a p :: _)
    with ([reversal_call a p] ++ ((fun a => reversal_call a p) <$> l)).
  rewrite reversals_app, IH, filter_cons.
  change [reversal_call a p] with ([] ++ [reversal_call a p]).
  rewrite reversals_snoc. cbn [reversals filter list_filter length].
  destruct (decide (a = ap)) as [->|Hne].
  - rewrite decide_True by (by apply is_reversal_reversal_call). done.
  - rewrite decide_False by (by rewrite is_reversal_reversal_call). done.
Qed.

Lemma length_filter_eq_NoDup (ap : ActivePowerup) l :
  NoDup l -> ap ∈ l -> length (filter (fun a => a = ap) l) = 1%nat.
Proof.
  intros Hnd Hin. apply list_elem_of_split in Hin as (l1 & l2 & ->).
  apply NoDup_app in Hnd as (_ & Hdisj & Hnd2).
  apply NoDup_cons in Hnd2 as [Hx2 _].
  rewrite filter_app, filter_cons_True by done.
  rewrite (filter_none _ l1), (filter_none _ l2); [done| |].
  - apply Forall_forall. by intros a Ha ->.
  - apply Forall_forall. intros a Ha ->. apply (Hdisj ap Ha). by left.
Qed.

Lemma length_filter_complement {A} (P Q : A -> Prop)
    `{!∀ x, Decision (P x)} `{!∀ x, Decision (Q x)} (l : list A) :
  (∀ x, P x <-> ¬ Q x) ->
  length l = (length (filter P l) + length (filter Q l))%nat.
Proof.
  intros HPQ. induction l as [|x l IH]; [done|].
  rewrite !filter_cons.
  destruct (decide (P x)) as [HP|HP], (decide (Q x)) as [HQ|HQ]; simpl.
  - by apply HPQ in HP.
  - lia.
  - lia.
  - exfalso. apply HP, HPQ, HQ.
Qed.

(** ** The size of the active set *)

Section Sizes.

Variable invoke : Invoke.
Hypothesis invoke_never_grows : never_grows invoke.

Lemma deactivatePowerup_never_grows ap p s s' :
  deactivatePowerup invoke ap p s = Some s' ->
  (length (activePowerups s') <= length (activePowerups s))%nat.
Proof.
  destruct (decide (ap ∈ activePowerups s)) as [Hin|Hnot].
  - rewrite deactivatePowerup_present by done. intros H.
    apply invoke_never_grows in H. etrans; [exact H|].
    pose proof (splice_indexOf_length ap _ Hin) as Hlen.
    unfold deactivated; simpl. lia.
  - rewrite deactivatePowerup_absent by done. by intros [= <-].
Qed.

Lemma forEach_never_grows l s s' :
  forEach_deactivate invoke l s = Some s' ->
  (length (activePowerups s') <= length (activePowerups s))%nat.
Proof.
  revert s. induction l as [|x l IH]; intros s; cbn [forEach_deactivate].
  - by intros [= <-].
  - destruct (deactivatePowerup invoke x _ s) as [s1|] eqn:E; [|done].
    cbn [mbind option_bind]. intros H.
    apply deactivatePowerup_never_grows in E. apply IH in H. lia.
Qed.

Lemma perform_never_grows c s s' :
  ¬ is_activation c -> perform invoke c s = Some s' ->
  (length (activePowerups s') <= length (activePowerups s))%nat.
Proof.
  destruct c as [ty x y|p powerup|ap p|time delta]; simpl; intros Hc.
  - intros [= <-]. unfold createPowerup.
    destruct (powerupData s !! ty); [done|]. by case_decide.
  - done.
  - apply deactivatePowerup_never_grows.
  - apply forEach_never_grows.
Qed.

Lemma run_script_never_grows sc s s' :
  activation_free sc ->
  run_script invoke sc s = Some s' ->
  (length (activePowerups s') <= length (activePowerups s))%nat.
Proof.
  revert s. induction sc as [|c k IH]; intros s; cbn [run_script].
  - by intros _ [= <-].
  - intros [Hc Hk].
    destruct (perform invoke c s) as [s1|] eqn:E; [|done].
    cbn [mbind option_bind]. intros H.
    apply perform_never_grows in E; [|done].
    apply IH in H; [lia|apply Hk].
Qed.

End Sizes.

Lemma run_effect_never_grows body fuel :
  no_activation body -> never_grows (run_effect body fuel).
Proof.
  intros Hbody.
  induction fuel as [|n IH]; intros f this p flag s s'; simpl; [done|].
  intros H. eapply run_script_never_grows; [exact IH|apply Hbody|exact H].
Qed.

(** ** Fuel

    The bound on nested effect calls only decides whether a run comes to an
    end, never its result; and effect functions that do not call
    [activatePowerup] always come to an end, since every nested effect call
    follows the removal of an entry. *)

Section MoreFuel.

Variables invoke1 invoke2 : Invoke.
Hypothesis invoke_more :
  ∀ f this p flag s s',
    invoke1 f this p flag s = Some s' -> invoke2 f this p flag s = Some s'.

Lemma activatePowerup_more p powerup s s' :
  activatePowerup invoke1 p powerup s = Some s' ->
  activatePowerup invoke2 p powerup s = Some s'.
Proof.
  rewrite !activatePowerup_unfold.
  destruct (invoke1 _ _ _ _ _) as [s3|] eqn:E; [|done].
  by rewrite (invoke_more _ _ _ _ _ _ E).
Qed.

Lemma deactivatePowerup_more ap p s s' :
  deactivatePowerup invoke1 ap p s = Some s' ->
  deactivatePowerup invoke2 ap p s = Some s'.
Proof.
  destruct (decide (ap ∈ activePowerups s)) as [Hin|Hnot].
  - rewrite !deactivatePowerup_present by done. apply invoke_more.
  - by rewrite !deactivatePowerup_absent.
Qed.

Lemma forEach_more l s s' :
  forEach_deactivate invoke1 l s = Some s' ->
  forEach_deactivate invoke2 l s = Some s'.
Proof.
  revert s. induction l as [|x l IH]; intros s; cbn [forEach_deactivate];
    [done|].
  destruct (deactivatePowerup invoke1 x _ s) as [s1|] eqn:E; [|done].
  rewrite (deactivatePowerup_more _ _ _ _ E). cbn [mbind option_bind].
  apply IH.
Qed.

Lemma perform_more c s s' :
  perform invoke1 c s = Some s' -> perform invoke2 c s = Some s'.
Proof.
  destruct c; simpl; [done| | |].
  - apply activatePowerup_more.
  - apply deactivatePowerup_more.
  - apply forEach_more.
Qed.

Lemma run_script_more sc s s' :
  run_script invoke1 sc s = Some s' -> run_script invoke2 sc s = Some s'.
Proof.
  revert s. induction sc as [|c k IH]; intros s; cbn [run_script]; [done|].
  destruct (perform invoke1 c s) as [s1|] eqn:E; [|done].
  rewrite (perform_more _ _ _ E). cbn [mbind option_bind]. apply IH.
Qed.

End MoreFuel.

Lemma run_effect_more_fuel body n m f this p flag s s' :
  (n <= m)%nat ->
  run_effect body n f this p flag s = Some s' ->
  run_effect body m f this p flag s = Some s'.
Proof.
  revert m f this p flag s s'.
  induction n as [|n IH]; intros m f this p flag s s' Hle; [done|].
  destruct m as [|m]; [lia|]. cbn [run_effect].
  apply run_script_more. intros ? ? ? ? ? ?. apply IH. lia.
Qed.

Section Termination.

Variable invoke : Invoke.
Variable bound : nat.
Hypothesis invoke_never_grows : never_grows invoke.
Hypothesis invoke_returns :
  ∀ f this p flag s,
    (length (activePowerups s) < bound)%nat ->
    is_Some (invoke f this p flag s).

Lemma deactivatePowerup_returns ap p s :
  (length (activePowerups s) <= bound)%nat ->
  is_Some (deactivatePowerup invoke ap p s).
Proof.
  intros Hlen. destruct (decide (ap ∈ activePowerups s)) as [Hin|Hnot].
  - rewrite deactivatePowerup_present by done. apply invoke_returns.
    pose proof (splice_indexOf_length ap _ Hin). unfold deactivated; simpl. lia.
  - by rewrite deactivatePowerup_absent.
Qed.

Lemma forEach_returns l s :
  (length (activePowerups s) <= bound)%nat ->
  is_Some (forEach_deactivate invoke l s).
Proof.
  revert s. induction l as [|x l IH]; intros s Hlen; cbn [forEach_deactivate];
    [done|].
  destruct (deactivatePowerup_returns x (player (scene s)) s Hlen) as [s1 E].
  rewrite E. cbn [mbind option_bind]. apply IH.
  apply (deactivatePowerup_never_grows _ invoke_never_grows) in E. lia.
Qed.

Lemma perform_returns c s :
  ¬ is_activation c -> (length (activePowerups s) <= bound)%nat ->
  is_Some (perform invoke c s).
Proof.
  destruct c; simpl; intros Hc Hlen; [done|done| |].
  - by apply deactivatePowerup_returns.
  - by apply forEach_returns.
Qed.

Lemma run_script_returns sc s :
  activation_free sc -> (length (activePowerups s) <= bound)%nat ->
  is_Some (run_script invoke sc s).
Proof.
  revert s. induction sc as [|c k IH]; intros s; cbn [run_script]; [done|].
  intros [Hc Hk] Hlen.
  destruct (perform_returns c s Hc Hlen) as [s1 E]. rewrite E.
  cbn [mbind option_bind]. apply IH; [apply Hk|].
  apply (perform_never_grows _ invoke_never_grows) in E; [lia|done].
Qed.

Lemma activatePowerup_returns p powerup s :
  (S (length (activePowerups s)) < bound)%nat ->
  is_Some (activatePowerup invoke p powerup s).
Proof.
  intros Hlen. rewrite activatePowerup_unfold.
  destruct (invoke_returns (data_effect powerup) None p true
              (activated p powerup s)) as [s3 ->]; [|done].
  cbn. rewrite length_app. simpl. lia.
Qed.

End Termination.

Lemma run_effect_returns body n f this p flag s :
  no_activation body ->
  (length (activePowerups s) < n)%nat ->
  is_Some (run_effect body n f this p flag s).
Proof.
  intros Hbody. revert f this p flag s.
  induction n as [|n IH]; intros f this p flag s Hlen; [lia|].
  cbn [run_effect].
  apply (run_script_returns _ n (run_effect_never_grows body n Hbody) IH);
    [apply Hbody|lia].
Qed.

(** With effect functions that never call [activatePowerup], every method
    returns once the fuel exceeds the size of the active set by two. *)
Lemma perform_returns_no_activation body c s :
  no_activation body ->
  is_Some (perform (run_effect body (2 + length (activePowerups s))) c s).
Proof.
  intros Hbody.
  pose proof (run_effect_never_grows body (2 + length (activePowerups s)) Hbody)
    as Hng.
  assert (∀ f this p flag s0,
            (length (activePowerups s0) < 2 + length (activePowerups s))%nat ->
            is_Some (run_effect body (2 + length (activePowerups s))
                       f this p flag s0)) as Hret.
  { intros. by apply run_effect_returns. }
  destruct c as [ty x y|p powerup|ap p|time delta].
  - done.
  - apply (activatePowerup_returns _ _ Hret). lia.
  - apply (deactivatePowerup_returns _ _ Hret). lia.
  - apply (forEach_returns _ _ Hng Hret). lia.
Qed.

Lemma step_returns_no_activation body n i s :
  no_activation body ->
  (2 + length (activePowerups s) <= n)%nat ->
  ∃ s', step (run_effect body n) i s = Some s'
        ∧ (length (activePowerups s') <= S (length (activePowerups s)))%nat.
Proof.
  intros Hbody Hn.
  pose proof (run_effect_never_grows body n Hbody) as Hng.
  assert (∀ p powerup s0,
            length (activePowerups s0) = length (activePowerups s) ->
            ∃ s', activatePowerup (run_effect body n) p powerup s0 = Some s'
                  ∧ (length (activePowerups s')
                     <= S (length (activePowerups s)))%nat) as Hact.
  { intros p powerup s0 Hlen.
    destruct (perform_returns_no_activation body
                (CallActivatePowerup p powerup) s0 Hbody) as [s' E].
    cbn [perform] in E.
    apply (activatePowerup_more _ (run_effect body n)) in E.
    - exists s'. split; [exact E|].
      rewrite activatePowerup_unfold in E.
      destruct (run_effect body n _ _ _ _ _) as [s3|] eqn:E3; [|done].
      injection E as <-. apply Hng in E3. revert E3. cbn.
      rewrite length_app. simpl. lia.
    - intros ? ? ? ? ? ?. apply run_effect_more_fuel. lia. }
  assert (∀ c s0,
            ¬ is_activation c ->
            length (activePowerups s0) = length (activePowerups s) ->
            ∃ s', perform (run_effect body n) c s0 = Some s'
                  ∧ (length (activePowerups s')
                     <= S (length (activePowerups s)))%nat) as Hother.
  { intros c s0 Hc Hlen.
    destruct (perform_returns_no_activation body c s0 Hbody) as [s' E].
    apply (perform_more _ (run_effect body n)) in E.
    - exists s'. split; [exact E|].
      apply (perform_never_grows _ Hng) in E; [lia|done].
    - intros ? ? ? ? ? ?. apply run_effect_more_fuel. lia. }
  destruct i as [c|k|k|t]; cbn [step].
  - destruct c as [ty x y|p powerup|ap p|time delta];
      [apply Hother|apply Hact|apply Hother|apply Hother]; simpl; tauto.
  - destruct (overlaps (scene s) !! k) as [o|]; [|exists s; split; [done|lia]].
    case_decide; [exists s; split; [done|lia]|]. by apply Hact.
  - destruct (delayedCalls (scene s) !! k) as [dc|];
      [|exists s; split; [done|lia]].
    apply (Hother (CallDeactivatePowerup _ _)); simpl; tauto.
  - case_decide; eexists; (split; [done|simpl; lia]).
Qed.

(** With effect functions that never call [activatePowerup], every run of
    the host returns once the fuel exceeds the size of the active set plus
    the number of inputs by two. *)
Lemma run_returns_no_activation body n inputs s :
  no_activation body ->
  (2 + length (activePowerups s) + length inputs <= n)%nat ->
  is_Some (run (run_effect body n) inputs s).
Proof.
  intros Hbody. revert s.
  induction inputs as [|i inputs IH]; intros s Hn; cbn [run]; [done|].
  simpl in Hn.
  destruct (step_returns_no_activation body n i s Hbody) as (s1 & -> & Hlen);
    [lia|].
  cbn [mbind option_bind]. apply IH. lia.
Qed.

(** ** The properties on the small game *)

Import Demo.

Lemma both_active_wf : wf both_active.
Proof. apply (bool_decide_unpack _). vm_compute. exact I. Defined.

Lemma speed_entry_active : speed_entry ∈ activePowerups both_active.
Proof. apply (bool_decide_unpack _). vm_compute. exact I. Defined.

Lemma shield_entry_active : shield_entry ∈ activePowerups both_active.
Proof. apply (bool_decide_unpack _). vm_compute. exact I. Defined.

Lemma both_active_reached :
  run (run_effect reentrant 3) pickups (constructor stage data)
  = Some both_active.
Proof. vm_compute. reflexivity. Defined.

(** The speed powerup (duration 1000) picked up at time 0 is untouched by a
    sweep at 500, removed and reversed by a sweep at 1000, and nothing
    happens at 2000; the shield (duration 3000) stays until the sweep at
    3000, and the delayed calls firing afterwards change nothing. *)
Example scenario_speed :
  let run_passive := run (run_effect passive 1) in
  let at_500 := the (run_passive [Method (CallUpdate 500 16)] both_active) in
  let at_1000 := the (run_passive [Method (CallUpdate 1000 16)] at_500) in
  let at_2000 := the (run_passive [Method (CallUpdate 2000 16)] at_1000) in
  let at_3000 := the (run_passive [Method (CallUpdate 3000 16)] at_2000) in
  let fired := the (run_passive [TimerFires 0; TimerFires 0] at_3000) in
  at_500 = both_active
  ∧ activePowerups at_1000 = [shield_entry]
  ∧ effectCalls at_1000
    = [activation_call 1%nat 7%nat; activation_call 2%nat 7%nat;
       reversal_call speed_entry 7%nat]
  ∧ at_2000 = at_1000
  ∧ activePowerups at_3000 = []
  ∧ effectCalls at_3000
    = [activation_call 1%nat 7%nat; activation_call 2%nat 7%nat;
       reversal_call speed_entry 7%nat; reversal_call shield_entry 7%nat]
  ∧ effectCalls fired = effectCalls at_3000
  ∧ delayedCalls (scene fired) = [].
Proof. vm_compute. repeat split. Qed.

(** Picking up the spawned speed sprite at time 0. *)
Example scenario_pickup :
  sprites (scene spawned) = [speed_sprite]
  ∧ overlaps (scene spawned)
    = [{| overlap_player := 7%nat; overlap_sprite := speed_sprite |}]
  ∧ activePowerups spawned = []
  ∧ let s' := the (activatePowerup (run_effect passive 1) 7%nat speed_sprite
                     spawned) in
    activePowerups s' = [speed_entry]
    ∧ effectCalls s' = [activation_call 1%nat 7%nat]
    ∧ disabled (scene s') = [0%nat]
    ∧ delayedCalls (scene s')
      = [{| delay := 1000; arg_powerup := speed_entry; arg_player := 7%nat |}].
Proof. vm_compute. repeat split. Qed.

(** With effect functions that call back into the manager from their
    reversal, deactivating the speed entry reverses it once; the nested
    sweep at 5000 also removes the shield, once. *)
Example scenario_reentrant :
  let s' := the (deactivatePowerup (run_effect reentrant 3) speed_entry 7%nat
                   both_active) in
  activePowerups s' = []
  ∧ effectCalls s'
    = [activation_call 1%nat 7%nat; activation_call 2%nat 7%nat;
       reversal_call speed_entry 7%nat; reversal_call shield_entry 7%nat]
  ∧ deactivatePowerup (run_effect reentrant 3) speed_entry 7%nat s' = Some s'.
Proof. vm_compute. repeat split. Qed.

Lemma bogus_type_absent : powerupData start !! "bogus" = None.
Proof. vm_compute. reflexivity. Defined.

Lemma both_active_entries :
  activePowerups both_active = [] ++ speed_entry :: [shield_entry].
Proof. vm_compute. reflexivity. Defined.

Lemma speed_entry_first : speed_entry ∉ @nil ActivePowerup.
Proof. apply not_elem_of_nil. Defined.

Lemma one_active_wf : wf one_active.
Proof. apply (bool_decide_unpack _). vm_compute. exact I. Defined.

Lemma speed_entry_in_one_active : speed_entry ∈ activePowerups one_active.
Proof. apply (bool_decide_unpack _). vm_compute. exact I. Defined.

(** The two speed entries of [stacked] are the one [activatePowerup] found
    and the one it appended. *)
Example scenario_stacked :
  activatePowerup (run_effect passive 1) 7%nat second_sprite one_active
  = Some stacked
  ∧ activePowerups one_active = [speed_entry]
  ∧ activePowerups stacked = [speed_entry; second_entry]
  ∧ activePowerups (deactivated speed_entry 7%nat stacked) = [second_entry].
Proof. vm_compute. repeat split. Qed.
(** * The powerup lifecycle *)

(** C1: [deactivatePowerup] is idempotent.  For an entry [ap] of the active
    set of a well-formed state (the states the manager reaches, [run_wf])
    and any player, the first call splices the entry out and records exactly
    one call [ap.effect(player, false)]; with passive effect functions it
    returns that state, and with effect functions that call back into the
    manager without activating it returns as well.  Whatever the effect
    functions do, when the first call returns the entry is absent and its
    reversal has fired once, and a second call on the same entry returns the
    state unchanged: it records and runs no effect. *)
Theorem deactivatePowerup_idempotent ap p s :
  wf s -> ap ∈ activePowerups s ->
  (∀ n, deactivatePowerup (run_effect passive (S n)) ap p s
        = Some (deactivated ap p s))
  ∧ (ap ∉ activePowerups (deactivated ap p s))
  ∧ effectCalls (deactivated ap p s) = effectCalls s ++ [reversal_call ap p]
  ∧ reversals ap (effectCalls s) = 0%nat
  ∧ (∀ body,
       no_activation body ->
       is_Some (deactivatePowerup
                  (run_effect body (2 + length (activePowerups s))) ap p s))
  ∧ ∀ body fuel s1,
      deactivatePowerup (run_effect body fuel) ap p s = Some s1 ->
      (ap ∉ activePowerups s1)
      ∧ reversals ap (effectCalls s1) = 1%nat
      ∧ ∀ invoke, deactivatePowerup invoke ap p s1 = Some s1.
Proof.
  intros Hwf Hin.
  destruct (wf_active s ap Hwf Hin) as [Hlt Hz].
  destruct (deactivated_retired ap p s Hwf Hin) as (_ & _ & Hnot' & _).
  split; [|split; [|split; [|split; [|split]]]]; try done.
  - intros n. rewrite deactivatePowerup_passive. by rewrite decide_True.
  - intros body Hbody.
    apply (perform_returns_no_activation body (CallDeactivatePowerup ap p) s
             Hbody).
  - intros body fuel s1 H.
    destruct (deactivatePowerup_retires _ _ _ _ _ _ Hwf Hin H)
      as (_ & _ & Hnot1 & Hone1).
    split; [done|]. split; [done|].
    intros invoke. by apply deactivatePowerup_absent.
Qed.

Lemma deactivatePowerup_idempotent_witness :
  wf both_active ∧ speed_entry ∈ activePowerups both_active
  ∧ ((∀ n, deactivatePowerup (run_effect passive (S n)) speed_entry 7%nat
             both_active
           = Some (deactivated speed_entry 7%nat both_active))
     ∧ (speed_entry ∉ activePowerups (deactivated speed_entry 7%nat both_active))
     ∧ effectCalls (deactivated speed_entry 7%nat both_active)
       = effectCalls both_active ++ [reversal_call speed_entry 7%nat]
     ∧ reversals speed_entry (effectCalls both_active) = 0%nat
     ∧ (∀ body,
          no_activation body ->
          is_Some (deactivatePowerup
                     (run_effect body (2 + length (activePowerups both_active)))
                     speed_entry 7%nat both_active))
     ∧ ∀ body fuel s1,
         deactivatePowerup (run_effect body fuel) speed_entry 7%nat both_active
         = Some s1 ->
         (speed_entry ∉ activePowerups s1)
         ∧ reversals speed_entry (effectCalls s1) = 1%nat
         ∧ ∀ invoke, deactivatePowerup invoke speed_entry 7%nat s1 = Some s1).
Proof.
  split; [exact both_active_wf|]. split; [exact speed_entry_active|].
  exact (deactivatePowerup_idempotent speed_entry 7%nat both_active
           both_active_wf speed_entry_active).
Defined.

(** C2: the reversal of an entry fires exactly once.  Take any run of the
    manager from its construction (method calls, collisions, delayed calls
    firing, clock advances, with effect functions that may call back into
    the manager) and an entry [ap] of the active set it reaches: [ap] is
    Active there (in the set, never reversed).  After any further run [ap] is
    either still Active or Deactivated (out of the set, reversed exactly
    once), so its reversal never fires twice; Deactivated is terminal; while
    [ap] is Active the delayed call scheduled for it is pending; and that
    delayed call firing as well as a sweep at or after the expiration time
    of [ap] leave it Deactivated.  With passive effect functions, and with
    effect functions that call back into the manager without activating,
    every run returns. *)
Theorem reversal_fires_exactly_once body fuel0 sc data pre s1 ap :
  run (run_effect body fuel0) pre (constructor sc data) = Some s1 ->
  ap ∈ activePowerups s1 ->
  Active ap s1
  ∧ (∀ n inputs, is_Some (run (run_effect passive (S n)) inputs s1))
  ∧ (∀ body' inputs,
       no_activation body' ->
       is_Some (run (run_effect body'
                       (2 + length (activePowerups s1) + length inputs))
                  inputs s1))
  ∧ ∀ fuel post s2,
      run (run_effect body fuel) post s1 = Some s2 ->
      (Active ap s2 ∨ Deactivated ap s2)
      ∧ (reversals ap (effectCalls s2) <= 1)%nat
      ∧ (Active ap s2 ->
         ∃ k dc, delayedCalls (scene s2) !! k = Some dc ∧ arg_powerup dc = ap)
      ∧ (Deactivated ap s2 ->
         ∀ fuel' post' s3,
           run (run_effect body fuel') post' s2 = Some s3 -> Deactivated ap s3)
      ∧ (∀ fuel' k dc s3,
           delayedCalls (scene s2) !! k = Some dc -> arg_powerup dc = ap ->
           step (run_effect body fuel') (TimerFires k) s2 = Some s3 ->
           Deactivated ap s3)
      ∧ (∀ fuel' time delta s3,
           time >= expirationTime ap ->
           step (run_effect body fuel') (Method (CallUpdate time delta)) s2
           = Some s3 ->
           Deactivated ap s3).
Proof.
  intros Hpre Hin.
  pose proof (run_wf _ _ _ _ _ _ Hpre) as Hwf1.
  pose proof (tracked_active s1 ap Hwf1 Hin) as Htr1.
  split; [by destruct (wf_active s1 ap Hwf1 Hin)|].
  split; [intros n inputs; apply run_passive_total|].
  split; [intros body' inputs Hbody'; by apply run_returns_no_activation|].
  intros fuel post s2 Hpost.
  pose proof (run_stable _ (run_effect_mutations body fuel) _ _ _ _
                (tracked_stable ap) Hpost Htr1) as Htr2.
  destruct Htr2 as (Hwf2 & Hlt2 & Hst2).
  split; [exact Hst2|]. split; [|split; [|split; [|split]]].
  - destruct Hst2 as [[_ ->]|[_ ->]]; lia.
  - intros [Hin2 _].
    assert (timed s2) as Ht2.
    { eapply run_timed; [exact Hwf1| |exact Hpost].
      eapply run_timed; [apply wf_constructor|apply timed_constructor|exact Hpre]. }
    destruct (Ht2 ap Hin2) as (dc & Hdc & Harg).
    apply list_elem_of_lookup in Hdc as [k Hk]. by exists k, dc.
  - intros Hd fuel' post' s3 Hrun.
    assert (retired ap s3) as (_ & _ & Hd3); [|exact Hd3].
    eapply (run_stable _ (run_effect_mutations body fuel') _ _ _ _
              (retired_stable ap) Hrun).
    split; [done|]. split; [done|]. exact Hd.
  - intros fuel' k dc s3 Hk Hdc Hstep.
    pose proof (step_stable _ (run_effect_mutations body fuel') _ _ _ _
                  (tracked_stable ap) Hstep) as Htr3.
    cbn [step] in Hstep. rewrite Hk, Hdc in Hstep.
    apply (deactivatePowerup_absent_after _ (run_effect_mutations body fuel'))
      in Hstep; [| |done].
    + destruct (tracked_absent_retired s3 ap) as (_ & _ & Hd3); try done.
      by apply Htr3.
    + eapply wf_stable; [exact Hwf2|]. apply mutation_scene.
  - intros fuel' time delta s3 Hexp Hstep.
    pose proof (step_stable _ (run_effect_mutations body fuel') _ _ _ _
                  (tracked_stable ap) Hstep) as Htr3.
    assert (tracked ap s2) as Htr2 by done.
    specialize (Htr3 Htr2).
    destruct Hst2 as [[Hin2 _]|Hd2].
    + cbn [step perform] in Hstep.
      apply (update_absent_after _ (run_effect_mutations body fuel')
               time delta ap) in Hstep; try done.
      by destruct (tracked_absent_retired s3 ap) as (_ & _ & Hd3).
    + assert (retired ap s3) as (_ & _ & Hd3); [|exact Hd3].
      eapply (step_stable _ (run_effect_mutations body fuel') _ _ _ _
                (retired_stable ap) Hstep).
      split; [done|]. split; [done|]. exact Hd2.
Qed.

Lemma reversal_fires_exactly_once_witness :
  run (run_effect reentrant 3) pickups (constructor stage data)
  = Some both_active
  ∧ speed_entry ∈ activePowerups both_active
  ∧ (Active speed_entry both_active
     ∧ (∀ n inputs, is_Some (run (run_effect passive (S n)) inputs both_active))
     ∧ (∀ body' inputs,
          no_activation body' ->
          is_Some (run (run_effect body'
                          (2 + length (activePowerups both_active)
                           + length inputs))
                     inputs both_active))
     ∧ ∀ fuel post s2,
         run (run_effect reentrant fuel) post both_active = Some s2 ->
         (Active speed_entry s2 ∨ Deactivated speed_entry s2)
         ∧ (reversals speed_entry (effectCalls s2) <= 1)%nat
         ∧ (Active speed_entry s2 ->
            ∃ k dc, delayedCalls (scene s2) !! k = Some dc
                    ∧ arg_powerup dc = speed_entry)
         ∧ (Deactivated speed_entry s2 ->
            ∀ fuel' post' s3,
              run (run_effect reentrant fuel') post' s2 = Some s3 ->
              Deactivated speed_entry s3)
         ∧ (∀ fuel' k dc s3,
              delayedCalls (scene s2) !! k = Some dc ->
              arg_powerup dc = speed_entry ->
              step (run_effect reentrant fuel') (TimerFires k) s2 = Some s3 ->
              Deactivated speed_entry s3)
         ∧ (∀ fuel' time delta s3,
              time >= expirationTime speed_entry ->
              step (run_effect reentrant fuel') (Method (CallUpdate time delta)) s2
              = Some s3 ->
              Deactivated speed_entry s3)).
Proof.
  split; [exact both_active_reached|]. split; [exact speed_entry_active|].
  exact (reversal_fires_exactly_once reentrant 3 stage data pickups
           both_active speed_entry both_active_reached speed_entry_active).
Defined.

(** C3: [update(time, delta)] deactivates exactly the expired entries.
    With passive effect functions the call returns the state [swept time s]:
    the calls it records are the reversals, for the scene's player, of the
    entries with [expirationTime <= time], and nothing else; an entry with
    [time < expirationTime] stays in the active set and no effect is called
    on it; an entry with [time >= expirationTime] leaves the set and its
    reversal is among the calls (exactly once when the entries are
    distinct objects). *)
Theorem update_deactivates_exactly_expired n time delta s :
  update (run_effect passive (S n)) time delta s = Some (swept time s)
  ∧ effectCalls (swept time s) = effectCalls s ++ sweep_calls time s
  ∧ (∀ c, c ∈ sweep_calls time s ->
       ∃ ap, ap ∈ activePowerups s ∧ time >= expirationTime ap
             ∧ c = reversal_call ap (player (scene s)))
  ∧ ∀ ap, ap ∈ activePowerups s ->
      (time < expirationTime ap ->
         ap ∈ activePowerups (swept time s)
         ∧ ∀ c, c ∈ sweep_calls time s -> receiver c ≠ Some ap)
      ∧ (time >= expirationTime ap ->
         (ap ∉ activePowerups (swept time s))
         ∧ reversal_call ap (player (scene s)) ∈ sweep_calls time s
         ∧ (NoDup (activePowerups s) ->
            reversals ap (sweep_calls time s) = 1%nat)).
Proof.
  split; [apply update_passive|]. split; [done|]. split.
  - intros c Hc. apply elem_of_sweep_calls in Hc as (ap & -> & ? & ?).
    by exists ap.
  - intros ap Hin. split.
    + intros Hlt. split; [by apply elem_of_swept|].
      intros c Hc. apply elem_of_sweep_calls in Hc as (a & -> & Hexp & _).
      simpl. intros [= ->]. lia.
    + intros Hexp. split; [|split].
      * rewrite elem_of_swept. lia.
      * apply elem_of_sweep_calls. by exists ap.
      * intros Hnd. unfold sweep_calls, expired_at.
        rewrite reversals_reversal_calls.
        apply length_filter_eq_NoDup.
        -- by apply NoDup_filter.
        -- by apply list_elem_of_filter.
Qed.

Lemma update_deactivates_exactly_expired_witness :
  speed_entry ∈ activePowerups both_active
  ∧ 1500 >= expirationTime speed_entry
  ∧ shield_entry ∈ activePowerups both_active
  ∧ 1500 < expirationTime shield_entry
  ∧ NoDup (activePowerups both_active)
  ∧ update (run_effect passive 1) 1500 16 both_active
    = Some (swept 1500 both_active)
  ∧ (speed_entry ∉ activePowerups (swept 1500 both_active))
  ∧ reversal_call speed_entry (player (scene both_active))
      ∈ sweep_calls 1500 both_active
  ∧ reversals speed_entry (sweep_calls 1500 both_active) = 1%nat
  ∧ shield_entry ∈ activePowerups (swept 1500 both_active)
  ∧ ∀ c, c ∈ sweep_calls 1500 both_active -> receiver c ≠ Some shield_entry.
Proof.
  assert (1500 >= expirationTime speed_entry) as Hexp by (vm_compute; discriminate).
  assert (1500 < expirationTime shield_entry) as Hlt by reflexivity.
  assert (NoDup (activePowerups both_active)) as Hnd
    by (destruct both_active_wf as [Hnd _]; exact Hnd).
  destruct (update_deactivates_exactly_expired 0 1500 16 both_active)
    as (Hrun & _ & _ & Hall).
  destruct (Hall speed_entry speed_entry_active) as [_ Hspeed].
  destruct (Hspeed Hexp) as (Hgone & Hcall & Hone).
  destruct (Hall shield_entry shield_entry_active) as [Hshield _].
  destruct (Hshield Hlt) as [Hstays Hquiet].
  split; [exact speed_entry_active|]. split; [exact Hexp|].
  split; [exact shield_entry_active|]. split; [exact Hlt|].
  split; [exact Hnd|]. split; [exact Hrun|]. split; [exact Hgone|].
  split; [exact Hcall|]. split; [exact (Hone Hnd)|].
  split; [exact Hstays|exact Hquiet].
Defined.

(** C4: [activatePowerup(player, powerup)] on a sprite carrying
    (type, duration, effect) data, with passive effect functions, returns a
    state in which the sprite's body is disabled, the active set has exactly
    one more entry, appended at the end, with the sprite's type, duration
    and effect and [expirationTime = now + duration]; exactly one call
    [effect(player, true)] is recorded; and one delayed call of
    [deactivatePowerup(entry, player)] with delay [duration] is pending,
    which is removed from the pending calls when it fires.  The entry is a
    new object: it takes the next reference of the allocator, which the call
    uses up, so the entry built in any later state is a different object; and
    in a well-formed state it is none of the entries of the active set, the
    entries of which stay distinct. *)
Theorem activatePowerup_effects n p powerup s :
  ∃ s' entry,
    activatePowerup (run_effect passive (S n)) p powerup s = Some s'
    ∧ entry = new_entry powerup s
    ∧ type entry = data_type powerup
    ∧ duration entry = data_duration powerup
    ∧ effect entry = data_effect powerup
    ∧ expirationTime entry = now (scene s) + data_duration powerup
    ∧ disabled (scene s') = disabled (scene s) ++ [sprite_ref powerup]
    ∧ activePowerups s' = activePowerups s ++ [entry]
    ∧ length (activePowerups s') = S (length (activePowerups s))
    ∧ effectCalls s'
      = effectCalls s ++ [activation_call (data_effect powerup) p]
    ∧ delayedCalls (scene s')
      = delayedCalls (scene s)
        ++ [{| delay := data_duration powerup; arg_powerup := entry;
               arg_player := p |}]
    ∧ (∀ invoke,
         step invoke (TimerFires (length (delayedCalls (scene s)))) s'
         = deactivatePowerup invoke entry p
             (remove_delayedCall (length (delayedCalls (scene s))) s'))
    ∧ delayedCalls
        (scene (remove_delayedCall (length (delayedCalls (scene s))) s'))
      = delayedCalls (scene s)
    ∧ ref entry = next_object s
    ∧ next_object s' = S (next_object s)
    ∧ (∀ powerup' s'', (next_object s' <= next_object s'')%nat ->
         new_entry powerup' s'' ≠ entry)
    ∧ (wf s ->
       (entry ∉ activePowerups s) ∧ NoDup (activePowerups s') ∧ wf s').
Proof.
  exists (time_delayedCall (data_duration powerup) (new_entry powerup s) p
            (activated p powerup s)), (new_entry powerup s).
  split; [apply activatePowerup_passive|].
  split; [reflexivity|]. repeat (split; [reflexivity|]).
  split; [cbn; rewrite length_app; simpl; lia|].
  repeat (split; [reflexivity|]).
  assert (∀ (l : list DelayedCall) x, delete (length l) (l ++ [x]) = l) as Hdel.
  { intros l x. induction l as [|y l IH]; [done|]. simpl. by rewrite IH. }
  split.
  { intros invoke. cbn [step].
    cbn [time_delayedCall scene set_scene delayedCalls].
    by rewrite list_lookup_middle. }
  split; [cbn; apply Hdel|].
  split; [reflexivity|]. split; [reflexivity|].
  split.
  { intros powerup' s'' Hle Heq. apply (f_equal ref) in Heq.
    simpl in Heq, Hle. lia. }
  intros Hwf.
  assert (wf (time_delayedCall (data_duration powerup) (new_entry powerup s) p
                (activated p powerup s))) as Hwf'.
  { eapply wf_stable; [|apply mutation_scene].
    eapply wf_stable; [exact Hwf|apply mutation_activate]. }
  split; [|split; [apply Hwf'|exact Hwf']].
  intros Hin. destruct (wf_active s _ Hwf Hin) as [Hlt _]. simpl in Hlt. lia.
Qed.

Lemma activatePowerup_effects_witness :
  wf one_active
  ∧ ∃ s' entry,
      activatePowerup (run_effect passive 1) 7%nat second_sprite one_active
      = Some s'
      ∧ activePowerups s' = activePowerups one_active ++ [entry]
      ∧ ref entry = next_object one_active
      ∧ next_object s' = S (next_object one_active)
      ∧ (entry ∉ activePowerups one_active)
      ∧ NoDup (activePowerups s').
Proof.
  split; [exact one_active_wf|].
  destruct (activatePowerup_effects 0 7%nat second_sprite one_active)
    as (s' & entry & Hrun & _ & _ & _ & _ & _ & _ & Hact & _ & _ & _ & _ & _
        & Href & Hnext & _ & Hfresh).
  destruct (Hfresh one_active_wf) as (Hnew & Hnd & _).
  exists s', entry.
  split; [exact Hrun|]. split; [exact Hact|]. split; [exact Href|].
  split; [exact Hnext|]. split; [exact Hnew|exact Hnd].
Defined.

Lemma createPowerup_undefined_type ty x y s :
  powerupData s !! ty = None -> ty ∉ object_prototype ->
  createPowerup ty x y s = console_warn (not_found_message ty) s.
Proof.
  intros Hnone Hnot. unfold createPowerup. rewrite Hnone.
  by rewrite decide_False by done.
Qed.

(** C5: a type that the definition table does not have is not always
    refused.  For a type that is not an own property of [powerupData] but
    the name of a property every object inherits, such as [toString],
    [this.powerupData[type]] is truthy: [createPowerup(type, x, y)] writes no
    warning, creates a sprite (with [undefined] texture key, duration and
    effect) and registers an overlap watch on it; the active set is
    unchanged.  Only for a type that is neither an own nor an inherited
    property does it write the warning and nothing else. *)
Theorem createPowerup_inherited_type ty x y s :
  powerupData s !! ty = None -> ty ∈ object_prototype ->
  createPowerup ty x y s ≠ console_warn (not_found_message ty) s
  ∧ console (createPowerup ty x y s) = console s
  ∧ stray_sprites (scene (createPowerup ty x y s))
    = stray_sprites (scene s)
      ++ [{| stray_ref := next_object s; stray_x := x; stray_y := y;
             stray_type := ty; stray_immovable := true |}]
  ∧ stray_overlaps (scene (createPowerup ty x y s))
    = stray_overlaps (scene s)
      ++ [{| stray_overlap_player := player (scene s);
             stray_overlap_sprite :=
               {| stray_ref := next_object s; stray_x := x; stray_y := y;
                  stray_type := ty; stray_immovable := true |} |}]
  ∧ next_object (createPowerup ty x y s) = S (next_object s)
  ∧ sprites (scene (createPowerup ty x y s)) = sprites (scene s)
  ∧ overlaps (scene (createPowerup ty x y s)) = overlaps (scene s)
  ∧ activePowerups (createPowerup ty x y s) = activePowerups s
  ∧ effectCalls (createPowerup ty x y s) = effectCalls s
  ∧ (∀ ty', powerupData s !! ty' = None -> ty' ∉ object_prototype ->
       createPowerup ty' x y s = console_warn (not_found_message ty') s
       ∧ console (createPowerup ty' x y s)
         = console s ++ [not_found_message ty']
       ∧ scene (createPowerup ty' x y s) = scene s
       ∧ activePowerups (createPowerup ty' x y s) = activePowerups s
       ∧ next_object (createPowerup ty' x y s) = next_object s).
Proof.
  intros Hnone Hin.
  assert (createPowerup ty x y s
          = physics_add_stray_overlap (player (scene s))
              {| stray_ref := next_object s; stray_x := x; stray_y := y;
                 stray_type := ty; stray_immovable := true |}
              (physics_add_stray
                 {| stray_ref := next_object s; stray_x := x; stray_y := y;
                    stray_type := ty; stray_immovable := true |} s)) as Heq.
  { unfold createPowerup. rewrite Hnone. by rewrite decide_True by done. }
  rewrite Heq. split.
  { intros Hw. apply (f_equal next_object) in Hw. simpl in Hw. lia. }
  repeat (split; [reflexivity|]).
  intros ty' Hnone' Hnot.
  rewrite (createPowerup_undefined_type ty' x y s Hnone' Hnot).
  by repeat split.
Qed.

Lemma createPowerup_inherited_type_witness :
  powerupData start !! "toString" = None
  ∧ "toString" ∈ object_prototype
  ∧ createPowerup "bogus" 10 10 start
    = console_warn (not_found_message "bogus") start
  ∧ createPowerup "toString" 10 10 start
    ≠ console_warn (not_found_message "toString") start
  ∧ console (createPowerup "toString" 10 10 start) = console start
  ∧ stray_sprites (scene (createPowerup "toString" 10 10 start))
    = stray_sprites (scene start)
      ++ [{| stray_ref := next_object start; stray_x := 10; stray_y := 10;
             stray_type := "toString"; stray_immovable := true |}]
  ∧ stray_overlaps (scene (createPowerup "toString" 10 10 start))
    = stray_overlaps (scene start)
      ++ [{| stray_overlap_player := player (scene start);
             stray_overlap_sprite :=
               {| stray_ref := next_object start; stray_x := 10;
                  stray_y := 10; stray_type := "toString";
                  stray_immovable := true |} |}]
  ∧ next_object (createPowerup "toString" 10 10 start)
    = S (next_object start).
Proof.
  assert (powerupData start !! "toString" = None) as Hnone
    by (vm_compute; reflexivity).
  assert ("toString" ∈ object_prototype) as Hin
    by (apply (bool_decide_unpack _); vm_compute; exact I).
  assert ("bogus" ∉ object_prototype) as Hnot
    by (apply (bool_decide_unpack _); vm_compute; exact I).
  destruct (createPowerup_inherited_type "toString" 10 10 start Hnone Hin)
    as (Hne & Hc & Hs & Ho & Hn & _ & _ & _ & _ & Hother).
  split; [exact Hnone|]. split; [exact Hin|].
  split; [exact (proj1 (Hother "bogus" bogus_type_absent Hnot))|].
  split; [exact Hne|].
  split; [exact Hc|]. split; [exact Hs|]. split; [exact Ho|exact Hn].
Defined.

(** C6: [deactivatePowerup] removes by identity.  When the active set is
    [l1 ++ ap :: l2] with [ap] not in [l1], deactivating [ap] leaves
    [l1 ++ l2]: every other entry, of the same type or not, stays where it
    was, and only the reversal of [ap] is recorded.  In particular, for
    another entry [b] of the set that expires later than [ap], a sweep
    between the two expiration times removes and reverses [ap] alone and
    leaves [b] active and unreversed, and a sweep at or after the expiration
    time of [b] then removes [b]. *)
Theorem deactivatePowerup_removes_by_identity l1 ap l2 p s :
  activePowerups s = l1 ++ ap :: l2 -> ap ∉ l1 ->
  activePowerups (deactivated ap p s) = l1 ++ l2
  ∧ effectCalls (deactivated ap p s) = effectCalls s ++ [reversal_call ap p]
  ∧ (∀ invoke,
       deactivatePowerup invoke ap p s
       = invoke (effect ap) (Some ap) p false (deactivated ap p s))
  ∧ (∀ n,
       deactivatePowerup (run_effect passive (S n)) ap p s
       = Some (deactivated ap p s))
  ∧ ∀ n b time delta,
      b ∈ l1 ++ l2 ->
      expirationTime ap <= time < expirationTime b ->
      ∃ s1,
        update (run_effect passive (S n)) time delta s = Some s1
        ∧ (ap ∉ activePowerups s1) ∧ b ∈ activePowerups s1
        ∧ reversal_call ap (player (scene s)) ∈ sweep_calls time s
        ∧ (∀ c, c ∈ sweep_calls time s -> receiver c ≠ Some b)
        ∧ ∀ time' delta',
            expirationTime b <= time' ->
            ∃ s2,
              update (run_effect passive (S n)) time' delta' s1 = Some s2
              ∧ (b ∉ activePowerups s2)
              ∧ reversal_call b (player (scene s)) ∈ sweep_calls time' s1.
Proof.
  intros Hl Hnot.
  assert (ap ∈ activePowerups s) as Hin
    by (rewrite Hl, elem_of_app; right; left).
  split; [|split; [|split; [|split]]].
  - unfold deactivated; simpl. rewrite Hl. by apply splice_indexOf.
  - reflexivity.
  - intros invoke. by apply deactivatePowerup_present.
  - intros n. rewrite deactivatePowerup_passive. by rewrite decide_True.
  - intros n b time delta Hb [Hexp Hlt].
    assert (b ∈ activePowerups s) as Hbin.
    { rewrite Hl. rewrite elem_of_app in *. rewrite elem_of_cons. tauto. }
    exists (swept time s). split; [apply update_passive|].
    split; [rewrite elem_of_swept; lia|].
    split; [by apply elem_of_swept|].
    split; [apply elem_of_sweep_calls; exists ap; split; [done|]; split; [lia|done]|].
    split.
    + intros c Hc. apply elem_of_sweep_calls in Hc as (a & -> & Ha & _).
      simpl. intros [= ->]. lia.
    + intros time' delta' Hexp'. exists (swept time' (swept time s)).
      split; [apply update_passive|].
      split; [rewrite elem_of_swept; lia|].
      apply elem_of_sweep_calls. exists b. split; [done|]. split; [lia|].
      by apply elem_of_swept.
Qed.

Lemma deactivatePowerup_removes_by_identity_witness :
  activePowerups both_active = [] ++ speed_entry :: [shield_entry]
  ∧ (speed_entry ∉ @nil ActivePowerup)
  ∧ (activePowerups (deactivated speed_entry 7%nat both_active)
     = [] ++ [shield_entry]
     ∧ effectCalls (deactivated speed_entry 7%nat both_active)
       = effectCalls both_active ++ [reversal_call speed_entry 7%nat]
     ∧ (∀ invoke,
          deactivatePowerup invoke speed_entry 7%nat both_active
          = invoke (effect speed_entry) (Some speed_entry) 7%nat false
              (deactivated speed_entry 7%nat both_active))
     ∧ (∀ n,
          deactivatePowerup (run_effect passive (S n)) speed_entry 7%nat
            both_active
          = Some (deactivated speed_entry 7%nat both_active))
     ∧ ∀ n b time delta,
         b ∈ [] ++ [shield_entry] ->
         expirationTime speed_entry <= time < expirationTime b ->
         ∃ s1,
           update (run_effect passive (S n)) time delta both_active = Some s1
           ∧ (speed_entry ∉ activePowerups s1) ∧ b ∈ activePowerups s1
           ∧ reversal_call speed_entry (player (scene both_active))
               ∈ sweep_calls time both_active
           ∧ (∀ c, c ∈ sweep_calls time both_active -> receiver c ≠ Some b)
           ∧ ∀ time' delta',
               expirationTime b <= time' ->
               ∃ s2,
                 update (run_effect passive (S n)) time' delta' s1 = Some s2
                 ∧ (b ∉ activePowerups s2)
                 ∧ reversal_call b (player (scene both_active))
                     ∈ sweep_calls time' s1).
Proof.
  split; [exact both_active_entries|]. split; [exact speed_entry_first|].
  exact (deactivatePowerup_removes_by_identity [] speed_entry [shield_entry]
           7%nat both_active both_active_entries speed_entry_first).
Defined.

(** C7: the sweep is eager.  With passive effect functions, for every state
    and every time, [update(time, delta)] returns a state whose active set
    holds no entry with [expirationTime <= time]; every entry that had
    expired, however many at the same tick, has left the set and has its
    reversal recorded by that one call, which records as many calls as
    entries left the set. *)
Theorem sweep_is_eager n time delta s :
  ∃ s',
    update (run_effect passive (S n)) time delta s = Some s'
    ∧ (∀ ap, ap ∈ activePowerups s' -> ¬ expirationTime ap <= time)
    ∧ (∀ ap, ap ∈ activePowerups s -> expirationTime ap <= time ->
         (ap ∉ activePowerups s')
         ∧ reversal_call ap (player (scene s)) ∈ effectCalls s')
    ∧ length (activePowerups s)
      = (length (activePowerups s') + length (expired_at time s))%nat
    ∧ length (effectCalls s')
      = (length (effectCalls s) + length (expired_at time s))%nat.
Proof.
  exists (swept time s). split; [apply update_passive|].
  split; [|split; [|split]].
  - intros ap Hin. apply elem_of_swept in Hin. lia.
  - intros ap Hin Hexp. split.
    + rewrite elem_of_swept. lia.
    + cbn [swept effectCalls]. apply elem_of_app. right.
      apply elem_of_sweep_calls. exists ap. split; [done|]. split; [lia|done].
  - cbn [swept activePowerups]. unfold expired_at.
    apply length_filter_complement. intros x. lia.
  - cbn [swept effectCalls]. unfold sweep_calls.
    by rewrite length_app, length_fmap.
Qed.

Lemma sweep_is_eager_witness :
  ∃ s',
    update (run_effect passive 1) 5000 16 both_active = Some s'
    ∧ (∀ ap, ap ∈ activePowerups s' -> ¬ expirationTime ap <= 5000)
    ∧ (∀ ap, ap ∈ activePowerups both_active -> expirationTime ap <= 5000 ->
         (ap ∉ activePowerups s')
         ∧ reversal_call ap (player (scene both_active)) ∈ effectCalls s')
    ∧ length (activePowerups both_active)
      = (length (activePowerups s') + length (expired_at 5000 both_active))%nat
    ∧ length (effectCalls s')
      = (length (effectCalls both_active)
         + length (expired_at 5000 both_active))%nat.
Proof. exact (sweep_is_eager 0 5000 16 both_active). Defined.

(** C8: [activatePowerup] does not guard against an entry of the same type
    being active.  In a well-formed state whose active set holds an entry
    [e], activating a sprite of the type of [e] (passive effect functions)
    keeps [e] as it is and appends a second entry of that type, a different
    object, and records another call [effect(player, true)]; the two entries
    are independent: deactivating either leaves the other in the set. *)
Theorem activatePowerup_stacks n p powerup s e :
  wf s -> e ∈ activePowerups s -> type e = data_type powerup ->
  ∃ s' e',
    activatePowerup (run_effect passive (S n)) p powerup s = Some s'
    ∧ activePowerups s' = activePowerups s ++ [e']
    ∧ e' ≠ e ∧ type e' = type e
    ∧ expirationTime e' = now (scene s) + data_duration powerup
    ∧ e ∈ activePowerups s' ∧ e' ∈ activePowerups s'
    ∧ effectCalls s'
      = effectCalls s ++ [activation_call (data_effect powerup) p]
    ∧ (∀ q, e ∈ activePowerups (deactivated e' q s')
            ∧ e' ∉ activePowerups (deactivated e' q s'))
    ∧ (∀ q, e' ∈ activePowerups (deactivated e q s')
            ∧ e ∉ activePowerups (deactivated e q s')).
Proof.
  intros Hwf Hin Hty.
  destruct (wf_active s e Hwf Hin) as [Hlt _].
  set (s' := time_delayedCall (data_duration powerup) (new_entry powerup s) p
               (activated p powerup s)).
  assert (wf s') as Hwf'.
  { eapply wf_stable; [|apply mutation_scene].
    eapply wf_stable; [exact Hwf|apply mutation_activate]. }
  assert (new_entry powerup s ≠ e) as Hne.
  { intros <-. simpl in Hlt. lia. }
  assert (e ∈ activePowerups s') as Hin1 by (apply elem_of_app; by left).
  assert (new_entry powerup s ∈ activePowerups s') as Hin2
    by (apply elem_of_app; right; left).
  exists s', (new_entry powerup s).
  split; [apply activatePowerup_passive|].
  split; [reflexivity|]. split; [done|]. split; [by rewrite Hty|].
  split; [reflexivity|]. split; [done|]. split; [done|].
  split; [reflexivity|].
  destruct Hwf' as (Hnd' & _ & _).
  split; intros q.
  - destruct (splice_indexOf_NoDup (new_entry powerup s) _ Hnd' Hin2)
      as (_ & Hgone & Hmem).
    split; [|exact Hgone]. apply Hmem. by split.
  - destruct (splice_indexOf_NoDup e _ Hnd' Hin1) as (_ & Hgone & Hmem).
    split; [|exact Hgone]. apply Hmem. by split.
Qed.

Lemma activatePowerup_stacks_witness :
  wf one_active ∧ speed_entry ∈ activePowerups one_active
  ∧ type speed_entry = data_type second_sprite
  ∧ ∃ s' e',
      activatePowerup (run_effect passive 1) 7%nat second_sprite one_active
      = Some s'
      ∧ activePowerups s' = activePowerups one_active ++ [e']
      ∧ e' ≠ speed_entry ∧ type e' = type speed_entry
      ∧ expirationTime e'
        = now (scene one_active) + data_duration second_sprite
      ∧ speed_entry ∈ activePowerups s' ∧ e' ∈ activePowerups s'
      ∧ effectCalls s'
        = effectCalls one_active
          ++ [activation_call (data_effect second_sprite) 7%nat]
      ∧ (∀ q, speed_entry ∈ activePowerups (deactivated e' q s')
              ∧ e' ∉ activePowerups (deactivated e' q s'))
      ∧ (∀ q, e' ∈ activePowerups (deactivated speed_entry q s')
              ∧ speed_entry ∉ activePowerups (deactivated speed_entry q s')).
Proof.
  split; [exact one_active_wf|]. split; [exact speed_entry_in_one_active|].
  split; [reflexivity|].
  exact (activatePowerup_stacks 0 7%nat second_sprite one_active speed_entry
           one_active_wf speed_entry_in_one_active eq_refl).
Defined.

(** C9: in [deactivatePowerup] the entry leaves the active set before its
    effect function is called.  For an entry [ap] of the active set of a
    well-formed state, the effect function is run in the state
    [deactivated ap p s], where [ap] is absent and a further
    [deactivatePowerup] on [ap] changes nothing; an effect function whose
    reversal calls [deactivatePowerup] on its own entry leaves exactly that
    state; effect functions that call back into the manager without
    activating let the call return; and for all effect functions, however
    they call back into the manager, the reversal of [ap] has fired exactly
    once when the call returns. *)
Theorem reversal_runs_after_removal ap p s :
  wf s -> ap ∈ activePowerups s ->
  (∀ invoke,
     deactivatePowerup invoke ap p s
     = invoke (effect ap) (Some ap) p false (deactivated ap p s))
  ∧ (ap ∉ activePowerups (deactivated ap p s))
  ∧ reversals ap (effectCalls (deactivated ap p s)) = 1%nat
  ∧ (∀ invoke,
       deactivatePowerup invoke ap p (deactivated ap p s)
       = Some (deactivated ap p s))
  ∧ (∀ body n,
       body (effect ap) (Some ap) p false (deactivated ap p s)
       = Then (CallDeactivatePowerup ap p) (fun _ => Return) ->
       deactivatePowerup (run_effect body (S n)) ap p s
       = Some (deactivated ap p s))
  ∧ (∀ body,
       no_activation body ->
       is_Some (deactivatePowerup
                  (run_effect body (2 + length (activePowerups s))) ap p s))
  ∧ ∀ body fuel s',
      deactivatePowerup (run_effect body fuel) ap p s = Some s' ->
      (ap ∉ activePowerups s') ∧ reversals ap (effectCalls s') = 1%nat.
Proof.
  intros Hwf Hin.
  destruct (deactivated_retired ap p s Hwf Hin) as (_ & _ & Hnot & Hone).
  assert (∀ invoke, deactivatePowerup invoke ap p (deactivated ap p s)
                    = Some (deactivated ap p s)) as Hagain.
  { intros invoke. by apply deactivatePowerup_absent. }
  split; [|split; [|split; [|split; [|split; [|split]]]]]; try done.
  - intros invoke. by apply deactivatePowerup_present.
  - intros body n Hbody. rewrite deactivatePowerup_present by done.
    cbn [run_effect]. rewrite Hbody. cbn [run_script perform].
    by rewrite Hagain.
  - intros body Hbody.
    apply (perform_returns_no_activation body (CallDeactivatePowerup ap p) s
             Hbody).
  - intros body fuel s' H.
    by destruct (deactivatePowerup_retires _ _ _ _ _ _ Hwf Hin H)
      as (_ & _ & ? & ?).
Qed.

Lemma reversal_runs_after_removal_witness :
  wf both_active ∧ speed_entry ∈ activePowerups both_active
  ∧ ((∀ invoke,
        deactivatePowerup invoke speed_entry 7%nat both_active
        = invoke (effect speed_entry) (Some speed_entry) 7%nat false
            (deactivated speed_entry 7%nat both_active))
     ∧ (speed_entry ∉ activePowerups (deactivated speed_entry 7%nat both_active))
     ∧ reversals speed_entry
         (effectCalls (deactivated speed_entry 7%nat both_active)) = 1%nat
     ∧ (∀ invoke,
          deactivatePowerup invoke speed_entry 7%nat
            (deactivated speed_entry 7%nat both_active)
          = Some (deactivated speed_entry 7%nat both_active))
     ∧ (∀ body n,
          body (effect speed_entry) (Some speed_entry) 7%nat false
            (deactivated speed_entry 7%nat both_active)
          = Then (CallDeactivatePowerup speed_entry 7%nat) (fun _ => Return) ->
          deactivatePowerup (run_effect body (S n)) speed_entry 7%nat both_active
          = Some (deactivated speed_entry 7%nat both_active))
     ∧ (∀ body,
          no_activation body ->
          is_Some (deactivatePowerup
                     (run_effect body (2 + length (activePowerups both_active)))
                     speed_entry 7%nat both_active))
     ∧ ∀ body fuel s',
         deactivatePowerup (run_effect body fuel) speed_entry 7%nat both_active
         = Some s' ->
         (speed_entry ∉ activePowerups s')
         ∧ reversals speed_entry (effectCalls s') = 1%nat).
Proof.
  split; [exact both_active_wf|]. split; [exact speed_entry_active|].
  exact (reversal_runs_after_removal speed_entry 7%nat both_active
           both_active_wf speed_entry_active).
Defined.

(** C10: only [activatePowerup] grows the active set.  [createPowerup]
    leaves [activePowerups] as it was for every input; with passive effect
    functions [deactivatePowerup] and [update] return and never lengthen it;
    more generally, when no effect function calls [activatePowerup], every
    call of [createPowerup], [deactivatePowerup] or [update] returns and none
    lengthens it, however the effect functions call back into the manager;
    [activatePowerup] lengthens it by one. *)
Theorem only_activatePowerup_grows s :
  (∀ ty x y, activePowerups (createPowerup ty x y s) = activePowerups s)
  ∧ (∀ n ap p, ∃ s',
       deactivatePowerup (run_effect passive (S n)) ap p s = Some s'
       ∧ (length (activePowerups s') <= length (activePowerups s))%nat)
  ∧ (∀ n time delta, ∃ s',
       update (run_effect passive (S n)) time delta s = Some s'
       ∧ (length (activePowerups s') <= length (activePowerups s))%nat)
  ∧ (∀ body c,
       no_activation body -> ¬ is_activation c ->
       is_Some (perform (run_effect body (2 + length (activePowerups s))) c s)
       ∧ ∀ fuel s',
           perform (run_effect body fuel) c s = Some s' ->
           (length (activePowerups s') <= length (activePowerups s))%nat)
  ∧ (∀ n p powerup, ∃ s',
       activatePowerup (run_effect passive (S n)) p powerup s = Some s'
       ∧ length (activePowerups s') = S (length (activePowerups s))).
Proof.
  assert (no_activation passive) as Hpassive by (intros ? ? ? ? ?; exact I).
  split; [|split; [|split; [|split]]].
  - intros ty x y. unfold createPowerup.
    destruct (powerupData s !! ty); [done|]. by case_decide.
  - intros n ap p. rewrite deactivatePowerup_passive. eexists. split; [done|].
    eapply (deactivatePowerup_never_grows _ (run_effect_never_grows passive (S n) Hpassive)).
    apply deactivatePowerup_passive.
  - intros n time delta. exists (swept time s).
    split; [apply update_passive|]. apply length_filter.
  - intros body c Hbody Hc.
    split; [by apply perform_returns_no_activation|]. intros fuel s'.
    apply perform_never_grows; [|exact Hc]. by apply run_effect_never_grows.
  - intros n p powerup. rewrite activatePowerup_passive. eexists.
    split; [done|]. cbn. rewrite length_app. simpl. lia.
Qed.

Lemma only_activatePowerup_grows_witness :
  no_activation reentrant
  ∧ ¬ is_activation (CallUpdate 5000 16)
  ∧ is_Some (perform (run_effect reentrant
                        (2 + length (activePowerups both_active)))
               (CallUpdate 5000 16) both_active)
  ∧ ∀ fuel s',
      perform (run_effect reentrant fuel) (CallUpdate 5000 16) both_active
      = Some s' ->
      (length (activePowerups s') <= length (activePowerups both_active))%nat.
Proof.
  assert (no_activation reentrant) as Hbody.
  { intros f [ap|] p flag s; simpl; [|exact I].
    split; [tauto|]. intros _. split; [tauto|]. intros _. exact I. }
  assert (¬ is_activation (CallUpdate 5000 16)) as Hc by (simpl; tauto).
  destruct (only_activatePowerup_grows both_active) as (_ & _ & _ & Hgen & _).
  split; [exact Hbody|]. split; [exact Hc|].
  exact (Hgen reentrant (CallUpdate 5000 16) Hbody Hc).
Defined.


(** * Further properties of the powerup manager *)

Module PowerupManagerMore.

Import PowerupAccounting.

Lemma length_filter_splice (P : ActivePowerup -> Prop)
    `{!∀ x, Decision (P x)} (ap : ActivePowerup) (l : list ActivePowerup) :
  ap ∈ l ->
  length (filter P l)
  = (length (filter P (splice1 (indexOf ap l) l))
     + (if decide (P ap) then 1 else 0))%nat.
Proof.
  intros Hin. apply list_elem_of_split_l in Hin as (l1 & l2 & -> & Hnot).
  rewrite splice_indexOf by done.
  rewrite !filter_app, filter_cons, !length_app.
  destruct (decide (P ap)); simpl; lia.
Qed.

Lemma balanced_stable f : stable (balanced f).
Proof.
  intros s s' Hb Hm. unfold balanced, on_calls, off_calls, active_with in *.
  destruct Hm as [s sc|s|s msg|s p powerup|s ap p Hin]; simpl; try done.
  - rewrite !filter_app, !length_app, !filter_cons, !filter_nil.
    repeat case_decide; simpl in *; try lia; exfalso; naive_solver.
  - rewrite (length_filter_splice (fun a => effect a = f) ap _ Hin) in Hb.
    rewrite !filter_app, !length_app, !filter_cons, !filter_nil.
    repeat case_decide; simpl in *; try lia; exfalso; naive_solver.
Qed.

(** X1: switching on and off balances.  In every state the manager reaches
    from its constructor, whatever it is sent and however the effect
    functions call back into it, each effect function [f] has been called
    with [true] exactly as often as there are entries with effect [f] in the
    active set plus calls of [f] with [false]; so once the active set is
    empty, every effect was switched off as often as it was switched on. *)
Theorem effect_calls_balance body fuel inputs sc data s f :
  run (run_effect body fuel) inputs (constructor sc data) = Some s ->
  on_calls f (effectCalls s)
  = (active_with f (activePowerups s) + off_calls f (effectCalls s))%nat
  ∧ (activePowerups s = [] ->
     on_calls f (effectCalls s) = off_calls f (effectCalls s)).
Proof.
  intros Hrun.
  assert (balanced f s) as Hb.
  { eapply (run_stable _ (run_effect_mutations body fuel) (balanced f));
      [apply balanced_stable|exact Hrun|reflexivity]. }
  split; [exact Hb|]. intros Hnil. unfold balanced in Hb.
  by rewrite Hnil in Hb.
Qed.

Lemma effect_calls_balance_witness :
  run (run_effect reentrant 3) pickups (constructor stage data)
  = Some both_active
  ∧ on_calls 1%nat (effectCalls both_active)
    = (active_with 1%nat (activePowerups both_active)
       + off_calls 1%nat (effectCalls both_active))%nat
  ∧ (activePowerups both_active = [] ->
     on_calls 1%nat (effectCalls both_active)
     = off_calls 1%nat (effectCalls both_active)).
Proof.
  split; [exact both_active_reached|].
  exact (effect_calls_balance reentrant 3 pickups stage data both_active 1%nat
           both_active_reached).
Defined.

(** X2: spawning and picking up compose.  For a type of the table,
    [createPowerup] writes no warning and registers an overlap watch whose
    collision (effect functions passive) appends one entry carrying the
    type, duration and effect of the table entry, expiring [duration] after
    the scene clock, calls the table's effect on the scene's player and
    schedules the delayed call; a second collision on the same sprite is
    ignored, its body being disabled. *)
Theorem spawn_then_collide n ty x y d s :
  powerupData s !! ty = Some d ->
  next_object s ∉ disabled (scene s) ->
  ∃ s2,
    step (run_effect passive (S n)) (Collision (length (overlaps (scene s))))
      (createPowerup ty x y s) = Some s2
    ∧ console (createPowerup ty x y s) = console s
    ∧ activePowerups s2 = activePowerups s ++ [spawned_entry ty d s]
    ∧ effectCalls s2
      = effectCalls s ++ [activation_call (def_effect d) (player (scene s))]
    ∧ delayedCalls (scene s2)
      = delayedCalls (scene s)
        ++ [{| delay := def_duration d; arg_powerup := spawned_entry ty d s;
               arg_player := player (scene s) |}]
    ∧ step (run_effect passive (S n)) (Collision (length (overlaps (scene s))))
        s2 = Some s2.
Proof.
  intros Hd Hfresh. unfold createPowerup. rewrite Hd.
  set (sp := {| sprite_ref := next_object s; sprite_x := x; sprite_y := y;
                texture := spriteKey d; data_type := ty;
                data_duration := def_duration d;
                data_effect := def_effect d; immovable := true |}).
  set (s1 := physics_add_overlap (player (scene s)) sp (physics_add_sprite sp s)).
  assert (overlaps (scene s1) !! length (overlaps (scene s))
          = Some {| overlap_player := player (scene s); overlap_sprite := sp |})
    as Hk by (simpl; by rewrite list_lookup_middle).
  exists (time_delayedCall (def_duration d) (new_entry sp s1)
            (player (scene s)) (activated (player (scene s)) sp s1)).
  split; [|split; [reflexivity|split; [reflexivity|split;
    [reflexivity|split; [reflexivity|]]]]].
  - cbn [step]. rewrite Hk. cbn [overlap_sprite overlap_player].
    rewrite decide_False by exact Hfresh.
    apply activatePowerup_passive.
  - cbn [step]. cbn [time_delayedCall activated scene set_scene overlaps
                     record_call set_activePowerups alloc disableBody].
    rewrite Hk. cbn [overlap_sprite overlap_player].
    rewrite decide_True; [done|]. simpl. apply elem_of_app. right. by left.
Qed.

Lemma spawn_then_collide_witness :
  powerupData start !! "speed" = Some speed_def
  ∧ (next_object start ∉ disabled (scene start))
  ∧ ∃ s2,
      step (run_effect passive 1) (Collision (length (overlaps (scene start))))
        (createPowerup "speed" 10 10 start) = Some s2
      ∧ console (createPowerup "speed" 10 10 start) = console start
      ∧ activePowerups s2
        = activePowerups start ++ [spawned_entry "speed" speed_def start]
      ∧ effectCalls s2
        = effectCalls start
          ++ [activation_call (def_effect speed_def) (player (scene start))]
      ∧ delayedCalls (scene s2)
        = delayedCalls (scene start)
          ++ [{| delay := def_duration speed_def;
                 arg_powerup := spawned_entry "speed" speed_def start;
                 arg_player := player (scene start) |}]
      ∧ step (run_effect passive 1)
          (Collision (length (overlaps (scene start)))) s2 = Some s2.
Proof.
  assert (powerupData start !! "speed" = Some speed_def) as Hd
    by (vm_compute; reflexivity).
  assert (next_object start ∉ disabled (scene start)) as Hn
    by (apply (bool_decide_unpack _); vm_compute; exact I).
  split; [exact Hd|]. split; [exact Hn|].
  exact (spawn_then_collide 0 "speed" 10 10 speed_def start Hd Hn).
Defined.

Lemma filter_expired_partition (t t' : Z) (l : list ActivePowerup) :
  t <= t' ->
  filter (fun a => t >= expirationTime a) l
  ++ filter (fun a => t' >= expirationTime a)
       (filter (fun a => t < expirationTime a) l)
  ≡ₚ filter (fun a => t' >= expirationTime a) l.
Proof.
  intros Hle. induction l as [|a l IH]; [done|].
  rewrite !filter_cons.
  destruct (decide (t >= expirationTime a)), (decide (t < expirationTime a)),
    (decide (t' >= expirationTime a)); try lia.
  - simpl. by rewrite IH.
  - rewrite filter_cons, decide_True by done.
    rewrite <- Permutation_middle. by rewrite IH.
  - rewrite filter_cons, decide_False by done. exact IH.
Qed.

(** X3: sweeps compose.  With passive effect functions and [t <= t'], a
    sweep at [t] followed by a sweep at [t'] leaves the same active set as
    the sweep at [t'] alone and has recorded the same reversals up to their
    order; and after a sweep at [t'] a sweep at the earlier or equal time [t]
    changes nothing (in particular [update] is idempotent). *)
Theorem sweeps_compose n t t' delta delta' s :
  t <= t' ->
  ∃ s1 s12 s2,
    update (run_effect passive (S n)) t delta s = Some s1
    ∧ update (run_effect passive (S n)) t' delta' s1 = Some s12
    ∧ update (run_effect passive (S n)) t' delta' s = Some s2
    ∧ activePowerups s12 = activePowerups s2
    ∧ effectCalls s12 ≡ₚ effectCalls s2
    ∧ update (run_effect passive (S n)) t delta s2 = Some s2
    ∧ update (run_effect passive (S n)) t delta s12 = Some s12.
Proof.
  intros Hle.
  assert (∀ u v s0, u <= v -> swept u (swept v s0) = swept v s0) as Hid.
  { intros u v s0 Huv. unfold swept at 1. simpl.
    assert (filter (fun a => u < expirationTime a)
              (filter (fun a => v < expirationTime a) (activePowerups s0))
            = filter (fun a => v < expirationTime a) (activePowerups s0)) as ->.
    { apply filter_all, Forall_forall. intros a Ha.
      apply list_elem_of_filter in Ha as [Ha _]. lia. }
    assert (sweep_calls u (swept v s0) = []) as ->.
    { unfold sweep_calls, expired_at. simpl.
      rewrite (filter_none (fun a => u >= expirationTime a)); [done|].
      apply Forall_forall. intros a Ha.
      apply list_elem_of_filter in Ha as [Ha _]. lia. }
    by rewrite app_nil_r. }
  exists (swept t s), (swept t' (swept t s)), (swept t' s).
  split; [apply update_passive|]. split; [apply update_passive|].
  split; [apply update_passive|]. split; [|split; [|split]].
  - simpl. rewrite list_filter_filter. apply list_filter_iff. intros a. lia.
  - simpl. unfold sweep_calls, expired_at. simpl.
    rewrite <- app_assoc. apply Permutation_app_head.
    rewrite <- fmap_app. apply fmap_Permutation.
    by apply filter_expired_partition.
  - rewrite update_passive. f_equal. by apply Hid.
  - rewrite update_passive. f_equal. by apply Hid.
Qed.

Lemma sweeps_compose_witness :
  500 <= 1000
  ∧ ∃ s1 s12 s2,
      update (run_effect passive 1) 500 16 both_active = Some s1
      ∧ update (run_effect passive 1) 1000 16 s1 = Some s12
      ∧ update (run_effect passive 1) 1000 16 both_active = Some s2
      ∧ activePowerups s12 = activePowerups s2
      ∧ effectCalls s12 ≡ₚ effectCalls s2
      ∧ update (run_effect passive 1) 500 16 s2 = Some s2
      ∧ update (run_effect passive 1) 500 16 s12 = Some s12.
Proof.
  assert (500 <= 1000) as Hle by lia.
  split; [exact Hle|].
  exact (sweeps_compose 0 500 1000 16 16 both_active Hle).
Defined.

(** X4: the two deactivation paths pass different players.  The delayed
    call reverses the effect on the player that activated it, the sweep on
    the scene's player.  So when [activatePowerup] ran for a player [p] other
    than the scene's (well-formed state, passive effect functions): if a
    sweep at or after the expiration comes first, the reversal is recorded
    for the scene's player and never for [p], the delayed call that fires
    later being a no-op; if the delayed call fires first, the reversal is
    recorded for [p] and not for the scene's player. *)
Theorem deactivation_paths_differ_on_player n p powerup s time delta :
  wf s -> p ≠ player (scene s) ->
  time >= now (scene s) + data_duration powerup ->
  ∃ s1,
    activatePowerup (run_effect passive (S n)) p powerup s = Some s1
    ∧ activation_call (data_effect powerup) p ∈ effectCalls s1
    ∧ (∃ s2 s3,
         update (run_effect passive (S n)) time delta s1 = Some s2
         ∧ step (run_effect passive (S n))
             (TimerFires (length (delayedCalls (scene s)))) s2 = Some s3
         ∧ effectCalls s3 = effectCalls s2
         ∧ reversal_call (new_entry powerup s) (player (scene s))
             ∈ effectCalls s3
         ∧ reversal_call (new_entry powerup s) p ∉ effectCalls s3)
    ∧ (∃ s2,
         step (run_effect passive (S n))
           (TimerFires (length (delayedCalls (scene s)))) s1 = Some s2
         ∧ reversal_call (new_entry powerup s) p ∈ effectCalls s2
         ∧ reversal_call (new_entry powerup s) (player (scene s))
             ∉ effectCalls s2).
Proof.
  intros Hwf Hp Htime.
  set (e := new_entry powerup s).
  set (k := length (delayedCalls (scene s))).
  set (s1 := time_delayedCall (data_duration powerup) e p (activated p powerup s)).
  assert (wf s1) as Hwf1.
  { eapply wf_stable; [|apply mutation_scene].
    eapply wf_stable; [exact Hwf|apply mutation_activate]. }
  assert (e ∈ activePowerups s1) as Hin1 by (apply elem_of_app; right; left).
  assert (∀ q, reversal_call e q ∉ effectCalls s) as Hold.
  { intros q Hq. destruct Hwf as (_ & _ & Hlog).
    rewrite Forall_forall in Hlog. specialize (Hlog _ Hq).
    unfold known_receiver in Hlog. simpl in Hlog. lia. }
  assert (∀ q, reversal_call e q ∉ effectCalls s1) as Hold1.
  { intros q Hq. simpl in Hq. apply elem_of_app in Hq as [Hq|Hq].
    - by apply (Hold q).
    - apply list_elem_of_singleton in Hq. discriminate Hq. }
  assert (delayedCalls (scene s1) !! k
          = Some {| delay := data_duration powerup; arg_powerup := e;
                    arg_player := p |}) as Hk
    by (simpl; by rewrite list_lookup_middle).
  exists s1. split; [apply activatePowerup_passive|].
  split; [simpl; apply elem_of_app; right; by left|]. split.
  - assert (e ∉ activePowerups (swept time s1)) as Hgone.
    { rewrite elem_of_swept. simpl. lia. }
    exists (swept time s1), (remove_delayedCall k (swept time s1)).
    split; [apply update_passive|]. split; [|split; [done|split]].
    + cbn [step]. simpl delayedCalls. simpl in Hk. rewrite Hk.
      cbn [arg_powerup arg_player].
      by rewrite deactivatePowerup_absent by exact Hgone.
    + cbn [remove_delayedCall set_scene effectCalls swept].
      apply elem_of_app. right. apply elem_of_sweep_calls.
      exists e. split; [done|]. split; [simpl; lia|exact Hin1].
    + cbn [remove_delayedCall set_scene effectCalls swept].
      intros Hq. apply elem_of_app in Hq as [Hq|Hq]; [by apply (Hold1 p)|].
      apply elem_of_sweep_calls in Hq as (a & Ha & _).
      injection Ha as _ _ Hpl. by apply Hp.
  - exists (deactivated e p (remove_delayedCall k s1)).
    split; [|split].
    + cbn [step]. rewrite Hk. cbn [arg_powerup arg_player].
      by rewrite deactivatePowerup_present by exact Hin1.
    + rewrite deactivated_effectCalls. apply elem_of_app. right. by left.
    + rewrite deactivated_effectCalls. intros Hq.
      apply elem_of_app in Hq as [Hq|Hq];
        [by apply (Hold1 (player (scene s)))|].
      apply list_elem_of_singleton in Hq. injection Hq as Hpl.
      by apply Hp.
Qed.

Lemma deactivation_paths_differ_on_player_witness :
  wf one_active ∧ 9%nat ≠ player (scene one_active)
  ∧ 5000 >= now (scene one_active) + data_duration second_sprite
  ∧ ∃ s1,
      activatePowerup (run_effect passive 1) 9%nat second_sprite one_active
      = Some s1
      ∧ activation_call (data_effect second_sprite) 9%nat ∈ effectCalls s1
      ∧ (∃ s2 s3,
           update (run_effect passive 1) 5000 16 s1 = Some s2
           ∧ step (run_effect passive 1)
               (TimerFires (length (delayedCalls (scene one_active)))) s2
             = Some s3
           ∧ effectCalls s3 = effectCalls s2
           ∧ reversal_call (new_entry second_sprite one_active)
               (player (scene one_active)) ∈ effectCalls s3
           ∧ reversal_call (new_entry second_sprite one_active) 9%nat
               ∉ effectCalls s3)
      ∧ (∃ s2,
           step (run_effect passive 1)
             (TimerFires (length (delayedCalls (scene one_active)))) s1
           = Some s2
           ∧ reversal_call (new_entry second_sprite one_active) 9%nat
               ∈ effectCalls s2
           ∧ reversal_call (new_entry second_sprite one_active)
               (player (scene one_active)) ∉ effectCalls s2).
Proof.
  assert (9%nat ≠ player (scene one_active)) as Hp
    by (apply (bool_decide_unpack _); vm_compute; exact I).
  assert (5000 >= now (scene one_active) + data_duration second_sprite) as Ht
    by (apply (bool_decide_unpack _); vm_compute; exact I).
  split; [exact one_active_wf|]. split; [exact Hp|]. split; [exact Ht|].
  exact (deactivation_paths_differ_on_player 0 9%nat second_sprite one_active
           5000 16 one_active_wf Hp Ht).
Defined.

End PowerupManagerMore.

(** * Properties of the collectibles manager *)

Module CollectiblesFacts.

Import Collectibles.

Lemma sprites_at_cons key sc ref pos l :
  sprites_at key sc ref (pos :: l)
  = sprite_at key sc ref pos :: sprites_at key sc (S ref) l.
Proof.
  unfold sprites_at. cbn [imap]. f_equal; [f_equal; lia|].
  apply imap_ext. intros i x _. simpl. f_equal. lia.
Qed.

(** The loop body applied along a list of positions. *)
Lemma add_all_fields (l : list Position) (s : State) :
  let s' := foldl (fun s pos => add_collectible pos s) s l in
  collectibles s'
  = collectibles s ++ sprites_at (spriteKey s) (scale s) (next_object s) l
  ∧ sprites (scene s')
    = sprites (scene s) ++ sprites_at (spriteKey s) (scale s) (next_object s) l
  ∧ next_object s' = (next_object s + length l)%nat
  ∧ positions s' = positions s ∧ spriteKey s' = spriteKey s
  ∧ scale s' = scale s ∧ totalCollectibles s' = totalCollectibles s
  ∧ collectedCount s' = collectedCount s ∧ console s' = console s
  ∧ overlaps (scene s') = overlaps (scene s)
  ∧ disabled (scene s') = disabled (scene s)
  ∧ player (scene s') = player (scene s).
Proof.
  revert s. induction l as [|pos l IH]; intros s; cbn [foldl].
  - unfold sprites_at. cbn [imap length]. rewrite !app_nil_r.
    split_and!; try reflexivity; simpl; lia.
  - destruct (IH (add_collectible pos s))
      as (Hc & Hs & Hn & Hp & Hk & Hsc & Ht & Hcc & Hco & Ho & Hd & Hpl).
    cbv zeta in *. rewrite Hc, Hs, Hn, Hp, Hk, Hsc, Ht, Hcc, Hco, Ho, Hd, Hpl.
    rewrite sprites_at_cons.
    cbn [add_collectible collectibles scene sprites next_object positions
         spriteKey scale totalCollectibles collectedCount console overlaps
         disabled player length].
    rewrite <- !app_assoc. cbn [app].
    split_and!; try reflexivity; simpl; lia.
Qed.

Lemma loop_positions todo i s :
  (i <= length (positions s))%nat ->
  createCollectibles_loop todo i s
  = if decide (i + todo <= length (positions s))%nat
    then Returned (foldl (fun s pos => add_collectible pos s) s
                     (take todo (drop i (positions s))))
    else Threw (foldl (fun s pos => add_collectible pos s) s
                  (drop i (positions s))).
Proof.
  revert i s. induction todo as [|todo IH]; intros i s Hi0; simpl.
  - by rewrite decide_True by lia.
  - destruct (positions s !! i) as [pos|] eqn:Hi.
    + pose proof (lookup_lt_Some _ _ _ Hi) as Hlt.
      rewrite IH by (simpl; lia). simpl.
      rewrite (drop_S _ _ _ Hi). simpl.
      destruct (decide (i + S todo <= length (positions s))%nat);
        [rewrite decide_True by lia|rewrite decide_False by lia]; done.
    + apply lookup_ge_None in Hi.
      rewrite decide_False by lia. by rewrite drop_ge.
Qed.

Lemma constructor_returns sc config :
  (Z.to_nat (config_totalCollectibles config)
   <= length (config_positions config))%nat ->
  ∃ s,
    constructor sc config = Returned s
    ∧ collectibles s
      = sprites_at (config_spriteKey config) (config_scale config) 0
          (take (Z.to_nat (config_totalCollectibles config))
             (config_positions config))
    ∧ length (collectibles s) = Z.to_nat (config_totalCollectibles config)
    ∧ sprites (scene s) = sprites sc ++ collectibles s
    ∧ overlaps (scene s) = overlaps sc ++ [player sc]
    ∧ disabled (scene s) = disabled sc
    ∧ collectedCount s = 0 ∧ console s = []
    ∧ totalCollectibles s = config_totalCollectibles config.
Proof.
  intros Hlen. unfold constructor, createCollectibles.
  rewrite loop_positions by (simpl; lia). simpl.
  rewrite drop_0. rewrite decide_True by lia.
  destruct (add_all_fields
              (take (Z.to_nat (config_totalCollectibles config))
                 (config_positions config))
              {| scene := sc;
                 totalCollectibles := config_totalCollectibles config;
                 spriteKey := config_spriteKey config;
                 scale := config_scale config;
                 positions := config_positions config; collectibles := [];
                 collectedCount := 0; console := []; next_object := 0 |})
    as (Hc & Hs & Hn & Hp & Hk & Hsc & Ht & Hcc & Hco & Ho & Hd & Hpl).
  simpl in *. eexists. split; [reflexivity|]. simpl.
  rewrite Hc, Hs, Hcc, Hco, Ho, Hd, Hpl, Ht.
  split_and!; try done.
  unfold sprites_at. rewrite length_imap, length_take. lia.
Qed.

Lemma constructor_throws sc config :
  (length (config_positions config)
   < Z.to_nat (config_totalCollectibles config))%nat ->
  ∃ s,
    constructor sc config = Threw s
    ∧ sprites (scene s)
      = sprites sc
        ++ sprites_at (config_spriteKey config) (config_scale config) 0
             (config_positions config)
    ∧ overlaps (scene s) = overlaps sc.
Proof.
  intros Hlen. unfold constructor, createCollectibles.
  rewrite loop_positions by (simpl; lia). simpl.
  rewrite drop_0. rewrite decide_False by lia.
  destruct (add_all_fields (config_positions config)
              {| scene := sc;
                 totalCollectibles := config_totalCollectibles config;
                 spriteKey := config_spriteKey config;
                 scale := config_scale config;
                 positions := config_positions config; collectibles := [];
                 collectedCount := 0; console := []; next_object := 0 |})
    as (Hc & Hs & Hn & Hp & Hk & Hsc & Ht & Hcc & Hco & Ho & Hd & Hpl).
  simpl in *. eexists. split; [reflexivity|]. by rewrite Hs, Ho.
Qed.

(** X5: the constructor creates the collectibles or throws.  When the
    configuration has at least [totalCollectibles] positions the constructor
    returns: it has created one immovable sprite of the configured key and
    scale at each of the first [totalCollectibles] positions (none when that
    number is zero or negative; spare positions are ignored), in order, and
    registered one overlap watch for the scene's player.  When it has fewer
    positions the constructor throws, having added a sprite for every
    position it has to the scene and registered no overlap watch. *)
Theorem constructor_creates_or_throws sc config :
  ((Z.to_nat (config_totalCollectibles config)
    <= length (config_positions config))%nat ->
   ∃ s,
     constructor sc config = Returned s
     ∧ collectibles s
       = sprites_at (config_spriteKey config) (config_scale config) 0
           (take (Z.to_nat (config_totalCollectibles config))
              (config_positions config))
     ∧ length (collectibles s) = Z.to_nat (config_totalCollectibles config)
     ∧ sprites (scene s) = sprites sc ++ collectibles s
     ∧ overlaps (scene s) = overlaps sc ++ [player sc]
     ∧ disabled (scene s) = disabled sc
     ∧ collectedCount s = 0 ∧ console s = []
     ∧ totalCollectibles s = config_totalCollectibles config)
  ∧ ((length (config_positions config)
      < Z.to_nat (config_totalCollectibles config))%nat ->
     ∃ s,
       constructor sc config = Threw s
       ∧ sprites (scene s)
         = sprites sc
           ++ sprites_at (config_spriteKey config) (config_scale config) 0
                (config_positions config)
       ∧ overlaps (scene s) = overlaps sc).
Proof.
  split; [apply constructor_returns|apply constructor_throws].
Qed.

Lemma constructor_creates_or_throws_witness :
  (∃ s, constructor CollectiblesDemo.stage CollectiblesDemo.three_gems
        = Returned s
        ∧ length (collectibles s) = 3%nat
        ∧ overlaps (scene s) = [9%nat])
  ∧ (∃ s, constructor CollectiblesDemo.stage CollectiblesDemo.too_many
          = Threw s
          ∧ length (sprites (scene s)) = 2%nat
          ∧ overlaps (scene s) = []).
Proof.
  assert (Z.to_nat (config_totalCollectibles CollectiblesDemo.three_gems)
          <= length (config_positions CollectiblesDemo.three_gems))%nat
    as Hfits by (simpl; lia).
  assert (length (config_positions CollectiblesDemo.too_many)
          < Z.to_nat (config_totalCollectibles CollectiblesDemo.too_many))%nat
    as Hshort by (simpl; lia).
  destruct (constructor_creates_or_throws CollectiblesDemo.stage
              CollectiblesDemo.three_gems) as [Hret _].
  destruct (constructor_creates_or_throws CollectiblesDemo.stage
              CollectiblesDemo.too_many) as [_ Hthrow].
  destruct (Hret Hfits) as (s & Hs & _ & Hlen & _ & Ho & _).
  destruct (Hthrow Hshort) as (s' & Hs' & Hsp & Ho').
  split.
  - exists s. split; [exact Hs|]. split; [exact Hlen|exact Ho].
  - exists s'. split; [exact Hs'|]. split; [|exact Ho'].
    rewrite Hsp. reflexivity.
Defined.

Lemma collected_is_not_completion count total :
  collected_message count total ≠ all_collected_message.
Proof. unfold collected_message, all_collected_message. simpl. discriminate. Qed.

Lemma completions_snoc msg s :
  completions (console_log msg s)
  = (completions s + (if decide (msg = all_collected_message) then 1 else 0))%nat.
Proof.
  unfold completions. simpl. rewrite filter_app, length_app, filter_cons, filter_nil.
  by case_decide.
Qed.

Lemma collectItem_fields p collectible s :
  collectedCount (collectItem p collectible s) = collectedCount s + 1
  ∧ totalCollectibles (collectItem p collectible s) = totalCollectibles s
  ∧ collectibles (collectItem p collectible s) = collectibles s
  ∧ overlaps (scene (collectItem p collectible s)) = overlaps (scene s)
  ∧ disabled (scene (collectItem p collectible s))
    = disabled (scene s) ++ [sprite_ref collectible]
  ∧ completions (collectItem p collectible s)
    = (completions s
       + (if decide (collectedCount s + 1 = totalCollectibles s)%Z
          then 1 else 0))%nat.
Proof.
  unfold collectItem. cbn [increment_collectedCount disableBody console_log
    collectedCount totalCollectibles].
  destruct (decide (collectedCount s + 1 = totalCollectibles s)) as [He|He].
  - split_and!; try reflexivity.
    rewrite !completions_snoc.
    repeat case_decide;
      try match goal with
          | H : collected_message _ _ = _ |- _ =>
              by apply collected_is_not_completion in H
          end;
      try done; unfold completions; simpl; lia.
  - split_and!; try reflexivity.
    rewrite completions_snoc.
    repeat case_decide;
      try match goal with
          | H : collected_message _ _ = _ |- _ =>
              by apply collected_is_not_completion in H
          end;
      try done; unfold completions; simpl; lia.
Qed.

(** X6: [collectItem] counts every call and announces completion once.
    After [collectItem] was called on the sprites of a list (any sprites, a
    sprite may repeat), [collectedCount] has grown by the length of the
    list, the bodies are disabled in that order, and the message
    'All collectibles collected!' was logged once if the count passed from
    below [totalCollectibles] to it or beyond, and not at all otherwise: it
    is logged by the call that makes the count equal to the total, never
    again after, and never when the total is not above the count at the
    start (a total of zero is never announced). *)
Theorem collectItem_counts_and_announces_once p l s :
  collectedCount (collect_each p l s) = collectedCount s + Z.of_nat (length l)
  ∧ totalCollectibles (collect_each p l s) = totalCollectibles s
  ∧ disabled (scene (collect_each p l s))
    = disabled (scene s) ++ (sprite_ref <$> l)
  ∧ completions (collect_each p l s)
    = (completions s
       + (if decide (collectedCount s < totalCollectibles s
                     <= collectedCount s + Z.of_nat (length l))%Z
          then 1 else 0))%nat.
Proof.
  revert s. induction l as [|c l IH]; intros s.
  - simpl. rewrite app_nil_r. split_and!; try done; try lia.
    rewrite decide_False by lia. lia.
  - unfold collect_each in *. cbn [foldl].
    destruct (IH (collectItem p c s)) as (Hc & Ht & Hd & Hm).
    destruct (collectItem_fields p c s) as (Hc1 & Ht1 & _ & _ & Hd1 & Hm1).
    rewrite Hc, Ht, Hd, Hm, Hc1, Ht1, Hd1, Hm1. cbn [length fmap list_fmap].
    rewrite <- app_assoc. split_and!; try done; try lia.
    repeat case_decide; lia.
Qed.

Lemma collision_keeps s0 s i j :
  collected_by_collisions s0 s -> collected_by_collisions s0 (collision i j s).
Proof.
  intros Hs. pose proof Hs as (Hc & Ht & Ho & Hnd & Hsub & Hcnt & Hm).
  unfold collision.
  destruct (overlaps (scene s) !! i) as [p|],
    (collectibles s !! j) as [c|] eqn:Hj; try exact Hs.
  destruct (decide (sprite_ref c ∈ disabled (scene s))) as [Hdis|Hdis];
    [exact Hs|].
  destruct (collectItem_fields p c s) as (Hc1 & Ht1 & Hcs1 & Ho1 & Hd1 & Hm1).
  unfold collected_by_collisions.
  rewrite Hc1, Ht1, Hcs1, Ho1, Hd1, Hm1, Hm, Ht, Hcnt.
  split_and!; try done.
  - apply NoDup_app. split_and!; [done| |apply NoDup_singleton].
    intros r Hr Hr'. apply list_elem_of_singleton in Hr'. by subst r.
  - intros r Hr. apply elem_of_app in Hr as [Hr|Hr]; [by apply Hsub|].
    apply list_elem_of_singleton in Hr as ->. rewrite <- Hc.
    apply list_elem_of_fmap. exists c. split; [done|].
    by eapply list_elem_of_lookup_2.
  - rewrite length_app. simpl. lia.
  - repeat case_decide; lia.
Qed.

Lemma collisions_keep s0 l s :
  collected_by_collisions s0 s -> collected_by_collisions s0 (collisions l s).
Proof.
  revert s. induction l as [|[i j] l IH]; intros s Hs; [done|].
  unfold collisions in *. cbn [foldl]. apply IH. by apply collision_keeps.
Qed.

Lemma sprites_at_refs key sc ref l :
  sprite_ref <$> sprites_at key sc ref l = seq ref (length l).
Proof.
  revert ref. induction l as [|pos l IH]; intros ref; [done|].
  rewrite sprites_at_cons. cbn [fmap list_fmap length seq]. f_equal. apply IH.
Qed.

(** X7: under the engine the count is the number of collected items.  After
    a constructor that returned on a scene with no disabled body, and any
    collisions the engine reports (an overlap watch, a sprite of the
    manager's array whose body is still enabled), no collectible is counted
    twice: [collectedCount] is the number of disabled bodies, all of them
    collectibles of the manager, and never exceeds the number of
    collectibles; and the completion message has been logged exactly once
    if there is at least one collectible and all are collected, and not at
    all otherwise. *)
Theorem collisions_count_each_collectible_once sc config s0 l :
  constructor sc config = Returned s0 -> disabled sc = [] ->
  NoDup (disabled (scene (collisions l s0)))
  ∧ (∀ r, r ∈ disabled (scene (collisions l s0)) ->
       r ∈ sprite_ref <$> collectibles s0)
  ∧ collectedCount (collisions l s0)
    = Z.of_nat (length (disabled (scene (collisions l s0))))
  ∧ 0 <= collectedCount (collisions l s0) <= Z.of_nat (length (collectibles s0))
  ∧ completions (collisions l s0)
    = (if decide (collectibles s0 ≠ []
                  ∧ Forall (fun c => sprite_ref c
                                     ∈ disabled (scene (collisions l s0)))
                      (collectibles s0))
       then 1%nat else 0%nat).
Proof.
  intros Hcon Hdis.
  assert (length (config_positions config)
          < Z.to_nat (config_totalCollectibles config)
          ∨ Z.to_nat (config_totalCollectibles config)
            <= length (config_positions config))%nat as [Hlt|Hle] by lia.
  { destruct (constructor_throws sc config Hlt) as (s & Hs & _). congruence. }
  destruct (constructor_returns sc config Hle)
    as (s & Hs & Hcol & Hlen & _ & _ & Hd0 & Hc0 & Hco0 & Ht0).
  assert (s = s0) as -> by congruence.
  assert (NoDup (sprite_ref <$> collectibles s0)) as Hrefs.
  { rewrite Hcol, sprites_at_refs. apply NoDup_seq. }
  assert (collected_by_collisions s0 s0) as H0.
  { unfold collected_by_collisions. rewrite Hd0, Hdis, Hc0.
    split_and!; try done; [apply NoDup_nil_2|by intros r Hr%elem_of_nil|].
    unfold completions. rewrite Hco0. simpl. by rewrite decide_False by lia. }
  destruct (collisions_keep s0 l s0 H0) as (Hc & Ht & Ho & Hnd & Hsub & Hcnt & Hm).
  set (s' := collisions l s0) in *.
  assert (disabled (scene s') ⊆+ sprite_ref <$> collectibles s0) as Hsm
    by (by apply NoDup_submseteq).
  pose proof (submseteq_length _ _ Hsm) as Hlen'.
  rewrite length_fmap in Hlen'.
  split_and!; try done; try lia.
  rewrite Hm. destruct (decide (1 <= totalCollectibles s0 <= collectedCount s'))
    as [[H1 H2]|Hno].
  - rewrite decide_True; [done|]. split.
    + intros Hnil. rewrite Hnil in Hlen. simpl in Hlen. lia.
    + apply Forall_forall. intros c Hc'.
      assert (disabled (scene s') ≡ₚ sprite_ref <$> collectibles s0) as Hp.
      { apply submseteq_length_Permutation; [done|]. rewrite length_fmap. lia. }
      rewrite Hp. apply list_elem_of_fmap. by exists c.
  - rewrite decide_False; [done|]. intros [Hne Hall]. apply Hno.
    rewrite Forall_forall in Hall.
    assert (sprite_ref <$> collectibles s0 ⊆+ disabled (scene s')) as Hsm2.
    { apply NoDup_submseteq; [done|]. intros r Hr.
      apply list_elem_of_fmap in Hr as (c & -> & Hc'). by apply Hall. }
    apply submseteq_length in Hsm2. rewrite length_fmap in Hsm2.
    destruct (collectibles s0) as [|c0 cs] eqn:Hcs; [done|].
    simpl in Hlen, Hsm2. lia.
Qed.

Lemma collisions_count_each_collectible_once_witness :
  constructor CollectiblesDemo.stage CollectiblesDemo.three_gems
  = Returned CollectiblesDemo.fresh
  ∧ disabled CollectiblesDemo.stage = []
  ∧ collectedCount
      (collisions CollectiblesDemo.twice_on_the_first CollectiblesDemo.fresh)
    = Z.of_nat
        (length (disabled (scene (collisions CollectiblesDemo.twice_on_the_first
                                    CollectiblesDemo.fresh)))).
Proof.
  assert (constructor CollectiblesDemo.stage CollectiblesDemo.three_gems
          = Returned CollectiblesDemo.fresh) as Hcon
    by (vm_compute; reflexivity).
  split; [exact Hcon|]. split; [reflexivity|].
  exact (proj1 (proj2 (proj2
    (collisions_count_each_collectible_once CollectiblesDemo.stage
       CollectiblesDemo.three_gems CollectiblesDemo.fresh
       CollectiblesDemo.twice_on_the_first Hcon eq_refl)))).
Defined.

End CollectiblesFacts.

(** * Properties of the leaderboards *)

Module LeaderboardsFacts.

Import Leaderboards.

Lemma insert_sorted_Permutation e l : insert_sorted e l ≡ₚ e :: l.
Proof.
  induction l as [|y l IH]; [done|]. simpl.
  case_decide; [done|]. rewrite IH. apply Permutation_swap.
Qed.

Lemma sort_Permutation l : sort l ≡ₚ l.
Proof.
  induction l as [|x l IH]; [done|]. simpl.
  by rewrite insert_sorted_Permutation, IH.
Qed.

Lemma insert_sorted_ranked e l : ranked l -> ranked (insert_sorted e l).
Proof.
  unfold ranked, compare_scores. induction l as [|y l IH]; intros Hs; simpl.
  - repeat constructor.
  - apply Sorted.Sorted_inv in Hs as [Hs Hhd]. case_decide as Hc;
      unfold compare_scores in Hc.
    + constructor; [by constructor|]. constructor. lia.
    + constructor; [by apply IH|].
      destruct l as [|z l]; simpl.
      * constructor. lia.
      * case_decide; constructor; [lia|]. by apply Sorted.HdRel_inv in Hhd.
Qed.

Lemma sort_ranked l : ranked (sort l).
Proof.
  induction l as [|x l IH]; simpl; [constructor|].
  by apply insert_sorted_ranked.
Qed.

Lemma insert_sorted_tied v e l :
  tied_at v (insert_sorted e l) = tied_at v (e :: l)
  ∨ (score e ≠ v ∧ tied_at v (insert_sorted e l) = tied_at v l).
Proof.
  unfold tied_at. destruct (decide (score e = v)) as [He|He].
  - left. induction l as [|y l IH]; [done|]. simpl.
    case_decide as Hc; [done|]. unfold compare_scores in Hc.
    rewrite (filter_cons _ y (insert_sorted e l)), IH, !filter_cons.
    repeat case_decide; try done; lia.
  - right. split; [done|]. induction l as [|y l IH]; simpl.
    + by rewrite filter_cons_False.
    + case_decide; [by rewrite filter_cons_False|].
      rewrite !filter_cons. by rewrite IH.
Qed.

Lemma sort_tied v l : tied_at v (sort l) = tied_at v l.
Proof.
  induction l as [|x l IH]; [done|]. simpl.
  destruct (insert_sorted_tied v x (sort l)) as [->|[Hne ->]].
  - unfold tied_at in *. rewrite !filter_cons. by rewrite IH.
  - unfold tied_at in *. rewrite filter_cons_False by done. exact IH.
Qed.

Lemma ranked_head_max a l e :
  ranked (a :: l) -> e ∈ a :: l -> score e <= score a.
Proof.
  intros Hs He. apply Sorted.Sorted_StronglySorted in Hs.
  - apply Sorted.StronglySorted_inv in Hs as [_ Hall].
    apply elem_of_cons in He as [->|He]; [lia|].
    rewrite Forall_forall in Hall. by apply Hall.
  - intros x y z. lia.
Qed.

(** A ranked list is determined by its groups of tied entries. *)
Lemma ranked_unique l1 l2 :
  ranked l1 -> ranked l2 ->
  (∀ v, tied_at v l1 = tied_at v l2) -> l1 = l2.
Proof.
  revert l2. induction l1 as [|a l1 IH]; intros l2 Hs1 Hs2 Ht.
  - destruct l2 as [|b l2]; [done|].
    specialize (Ht (score b)). unfold tied_at in Ht.
    by rewrite filter_cons_True in Ht.
  - destruct l2 as [|b l2].
    { specialize (Ht (score a)). unfold tied_at in Ht.
      by rewrite filter_cons_True in Ht. }
    assert (a ∈ b :: l2) as Ha.
    { assert (a ∈ tied_at (score a) (b :: l2)) as Hin.
      { rewrite <- Ht. unfold tied_at. rewrite filter_cons_True by done. by left. }
      by apply list_elem_of_filter in Hin as [_ ?]. }
    assert (b ∈ a :: l1) as Hb.
    { assert (b ∈ tied_at (score b) (a :: l1)) as Hin.
      { rewrite Ht. unfold tied_at. rewrite filter_cons_True by done. by left. }
      by apply list_elem_of_filter in Hin as [_ ?]. }
    pose proof (ranked_head_max _ _ _ Hs2 Ha).
    pose proof (ranked_head_max _ _ _ Hs1 Hb).
    assert (a = b) as <-.
    { pose proof (Ht (score a)) as Hta. unfold tied_at in Hta.
      rewrite filter_cons_True in Hta by done.
      rewrite filter_cons_True in Hta by lia. by injection Hta. }
    f_equal. apply IH.
    + by apply Sorted.Sorted_inv in Hs1 as [? _].
    + by apply Sorted.Sorted_inv in Hs2 as [? _].
    + intros v. specialize (Ht v). unfold tied_at in *.
      rewrite !filter_cons in Ht. case_decide; [by injection Ht|done].
Qed.

Lemma tied_at_app v l1 l2 : tied_at v (l1 ++ l2) = tied_at v l1 ++ tied_at v l2.
Proof. apply filter_app. Qed.

Lemma sort_sort_app l e : sort (sort l ++ [e]) = sort (l ++ [e]).
Proof.
  apply ranked_unique; [apply sort_ranked..|].
  intros v. by rewrite !sort_tied, !tied_at_app, sort_tied.
Qed.

Lemma perform_all_scores cs s :
  scores s = sort (scores s) ->
  scores (perform_all cs s) = sort (scores s ++ added_scores cs).
Proof.
  revert s. induction cs as [|c cs IH]; intros s Hs.
  - simpl. by rewrite app_nil_r.
  - unfold perform_all in *. cbn [foldl]. destruct c as [pn sc|pn ach].
    + rewrite IH.
      * cbn [perform addScore scores added_scores omap].
        apply ranked_unique; [apply sort_ranked..|].
        intros v. rewrite !sort_tied, !tied_at_app, sort_tied, tied_at_app.
        rewrite <- app_assoc. f_equal. by rewrite <- tied_at_app.
      * cbn [perform addScore scores]. symmetry.
        apply ranked_unique; [apply sort_ranked..|].
        intros v. by rewrite sort_tied.
    + by rewrite IH.
Qed.

(** X8: the leaderboard is the stable sort of the scores added.  After any
    sequence of [addScore] and [addAchievement] calls on a new leaderboard,
    [scores] holds exactly the entries added (a permutation of them), in
    non-increasing order of score, entries with equal scores in the order
    they were added; and it is the only list with these three properties. *)
Theorem scores_are_the_stable_ranking cs :
  scores (perform_all cs constructor) ≡ₚ added_scores cs
  ∧ ranked (scores (perform_all cs constructor))
  ∧ (∀ v, tied_at v (scores (perform_all cs constructor))
          = tied_at v (added_scores cs))
  ∧ ∀ l, ranked l -> (∀ v, tied_at v l = tied_at v (added_scores cs)) ->
         l = scores (perform_all cs constructor).
Proof.
  rewrite (perform_all_scores cs constructor) by done. simpl.
  split_and!.
  - apply sort_Permutation.
  - apply sort_ranked.
  - intros v. apply sort_tied.
  - intros l Hl Ht. apply ranked_unique; [done|apply sort_ranked|].
    intros v. by rewrite Ht, sort_tied.
Qed.

Lemma insert_sorted_head a l :
  ranked l -> (∀ y, y ∈ l -> score y <= score a) ->
  insert_sorted a l = a :: l.
Proof.
  intros _ Hmax. destruct l as [|y l]; [done|]. simpl.
  rewrite decide_True; [done|]. unfold compare_scores.
  assert (y ∈ y :: l) as Hy by (by left). specialize (Hmax y Hy). lia.
Qed.

(** X9: a new score enters below the scores it does not beat.  On a ranked
    leaderboard [addScore] keeps every entry with a score at least the new
    one in place above the new entry, and puts every entry with a smaller
    score below it, in their order: a newcomer who ties with an earlier
    entry ranks after it, and the rank of the new entry is the number of
    entries it does not beat. *)
Theorem addScore_ranks_after_ties playerName sc s :
  ranked (scores s) ->
  scores (addScore playerName sc s)
  = filter (fun e => sc <= score e) (scores s)
    ++ {| name := playerName; score := sc |}
       :: filter (fun e => score e < sc) (scores s)
  ∧ scores (addScore playerName sc s)
      !! length (filter (fun e => sc <= score e) (scores s))
    = Some {| name := playerName; score := sc |}
  ∧ length (scores (addScore playerName sc s)) = S (length (scores s))
  ∧ achievements (addScore playerName sc s) = achievements s.
Proof.
  intros Hr. set (e := {| name := playerName; score := sc |}).
  assert (scores (addScore playerName sc s)
          = filter (fun x => sc <= score x) (scores s)
            ++ e :: filter (fun x => score x < sc) (scores s)) as Heq.
  { cbn [addScore scores]. unfold sort. rewrite foldr_app. cbn [foldr].
    fold e. induction (scores s) as [|a l IH]; [done|].
    pose proof (ranked_head_max a l) as Hmax. specialize (Hmax a).
    assert (∀ y, y ∈ l -> score y <= score a) as Hle.
    { intros y Hy. apply (ranked_head_max a l y Hr). by right. }
    apply Sorted.Sorted_inv in Hr as [Hr' _]. cbn [foldr]. rewrite (IH Hr').
    rewrite !filter_cons.
    destruct (decide (sc <= score a)) as [Hsa|Hsa].
    - rewrite decide_False by lia. cbn [app].
      destruct (filter (fun x => sc <= score x) l) as [|y f] eqn:Hf.
      + cbn [app insert_sorted]. unfold compare_scores. cbn [score e].
        by rewrite decide_True by (simpl; lia).
      + cbn [app insert_sorted]. unfold compare_scores.
        assert (y ∈ l) as Hy.
        { assert (y ∈ filter (fun x => sc <= score x) l) as Hin
            by (rewrite Hf; by left).
          by apply list_elem_of_filter in Hin as [_ ?]. }
        by rewrite decide_True by (specialize (Hle y Hy); lia).
    - rewrite decide_True by lia.
      rewrite (filter_none (fun x => sc <= score x) l).
      2:{ apply Forall_forall. intros y Hy. specialize (Hle y Hy). lia. }
      rewrite (filter_all (fun x => score x < sc) l).
      2:{ apply Forall_forall. intros y Hy. specialize (Hle y Hy). lia. }
      cbn [app insert_sorted]. unfold compare_scores at 1. cbn [score e].
      assert (¬ (sc - score a <= 0)) as Hd by (clear -Hsa; lia).
      rewrite decide_False by exact Hd.
      by rewrite insert_sorted_head. }
  split_and!; [exact Heq| | |done].
  - rewrite Heq. by rewrite list_lookup_middle.
  - rewrite Heq, length_app. cbn [length].
    rewrite (length_filter_complement (fun x => sc <= score x)
               (fun x => score x < sc) (scores s)); [lia|].
    intros x. lia.
Qed.

Lemma addScore_ranks_after_ties_witness :
  ranked (scores LeaderboardsDemo.three_scores)
  ∧ scores (addScore "Player 4" 150 LeaderboardsDemo.three_scores)
    = [{| name := "Player 2"; score := 200 |};
       {| name := "Player 3"; score := 150 |};
       {| name := "Player 4"; score := 150 |};
       {| name := "Player 1"; score := 100 |}].
Proof.
  assert (ranked (scores LeaderboardsDemo.three_scores)) as Hr
    by (repeat constructor; simpl; lia).
  split; [exact Hr|].
  exact (proj1 (addScore_ranks_after_ties "Player 4" 150
                  LeaderboardsDemo.three_scores Hr)).
Defined.

End LeaderboardsFacts.

(** * Properties of the multiplayer mode *)

Module MultiplayerFacts.

Import Multiplayer.

Lemma get_player_own i r s :
  players s !! i = Some r -> get_player i s = FoundSprite r.
Proof. intros Hi. unfold get_player. by rewrite Hi. Qed.

Lemma get_player_sprite i r s :
  get_player i s = FoundSprite r ->
  players s !! i = Some r
  ∨ (players s !! i = None ∧ i = "__proto__" ∧ prototype s = Some r).
Proof.
  unfold get_player. destruct (players s !! i) as [r0|] eqn:Hi.
  - intros [= ->]. by left.
  - destruct (prototype s) as [r0|];
      repeat case_decide; try done. intros [= ->]. by right.
Qed.

Lemma get_player_console_log i msg s :
  get_player i (console_log msg s) = get_player i s.
Proof. reflexivity. Qed.

Lemma alter_destroy_twice r (l : list Sprite) :
  alter destroy r (alter destroy r l) = alter destroy r l.
Proof.
  rewrite list_alter_alter_eq. apply list_alter_ext; [|done].
  by intros [? ? ? ?].
Qed.

Lemma onPlayerLeft_own i r s :
  players s !! i = Some r ->
  onPlayerLeft i s
  = Returned (set_players (delete i (players s))
                (set_sprites (alter destroy r (sprites s))
                   (console_log (left_message i) s))).
Proof.
  intros Hi. unfold onPlayerLeft.
  by rewrite get_player_console_log, (get_player_own i r s Hi).
Qed.

(** X10: joining and leaving undo each other, except under the id
    [__proto__].  When [id] is not an own entry of [players],
    [onPlayerJoined] followed by [onPlayerLeft] of that id returns with the
    own entries as they were; the sprite created for the player is the last
    sprite of the scene, destroyed, and every earlier sprite is as before.
    For an id other than [__proto__] the prototype of [players] and what the
    id resolves to are as before as well.  For the id [__proto__] they are
    not: the sprite became the prototype of [players] and [delete] removed
    nothing, so the id still resolves to the destroyed sprite, and a second
    [onPlayerLeft] returns again. *)
Theorem join_then_leave player s :
  players s !! id player = None ->
  ∃ s',
    onPlayerLeft (id player) (onPlayerJoined player s) = Returned s'
    ∧ players s' = players s
    ∧ sprites s'
      = sprites s
        ++ [{| sprite_x := x player; sprite_y := y player;
               texture := "player"; destroyed := true |}]
    ∧ console s'
      = console s ++ [joined_message (id player); left_message (id player)]
    ∧ emitted s' = emitted s
    ∧ (id player ≠ "__proto__" ->
       prototype s' = prototype s
       ∧ get_player (id player) s' = get_player (id player) s)
    ∧ (id player = "__proto__" ->
       prototype s' = Some (length (sprites s))
       ∧ get_player (id player) s' = FoundSprite (length (sprites s))
       ∧ ∃ s'', onPlayerLeft (id player) s' = Returned s''
                ∧ sprites s'' = sprites s' ∧ players s'' = players s'
                ∧ prototype s'' = prototype s').
Proof.
  intros Hnone.
  assert (alter destroy (length (sprites s))
            (sprites s ++ [{| sprite_x := x player; sprite_y := y player;
                              texture := "player"; destroyed := false |}])
          = sprites s ++ [{| sprite_x := x player; sprite_y := y player;
                             texture := "player"; destroyed := true |}])
    as Halter.
  { rewrite alter_app_r_alt by lia. by rewrite Nat.sub_diag. }
  destruct (decide (id player = "__proto__")) as [Heq|Hne].
  - set (s1 := onPlayerJoined player s).
    assert (players s1 = players s ∧ prototype s1 = Some (length (sprites s))
            ∧ sprites s1
              = sprites s ++ [{| sprite_x := x player; sprite_y := y player;
                                 texture := "player"; destroyed := false |}]
            ∧ console s1 = console s ++ [joined_message (id player)]
            ∧ emitted s1 = emitted s) as (Hp1 & Hq1 & Hs1 & Hc1 & He1).
    { subst s1. unfold onPlayerJoined, assign_player.
      rewrite decide_True by done. by cbn. }
    assert (∀ s0, players s0 = players s ->
                  prototype s0 = Some (length (sprites s)) ->
                  get_player (id player) s0
                  = FoundSprite (length (sprites s))) as Hget.
    { intros s0 Hp0 Hq0. unfold get_player.
      rewrite Hp0, Hnone, Hq0. by rewrite decide_True by done. }
    exists (set_players (delete (id player) (players s1))
              (set_sprites (alter destroy (length (sprites s)) (sprites s1))
                 (console_log (left_message (id player)) s1))).
    split.
    { unfold onPlayerLeft. rewrite get_player_console_log.
      by rewrite (Hget s1 Hp1 Hq1). }
    cbn [set_players set_sprites console_log players sprites console emitted
         prototype].
    rewrite Hp1, Hs1, Hc1, He1, Hq1, Halter, (delete_id _ _ Hnone).
    split; [done|]. split; [done|].
    split; [by rewrite <- app_assoc|]. split; [done|].
    split; [done|]. intros _. split; [done|].
    split; [by apply Hget|].
    eexists. split.
    { unfold onPlayerLeft. rewrite get_player_console_log.
      rewrite Hget by done. reflexivity. }
    cbn [set_players set_sprites console_log players sprites prototype].
    rewrite (delete_id _ _ Hnone).
    split; [|done]. rewrite <- Halter. apply alter_destroy_twice.
  - set (s1 := onPlayerJoined player s).
    assert (players s1 = <[id player := length (sprites s)]> (players s)
            ∧ prototype s1 = prototype s
            ∧ sprites s1
              = sprites s ++ [{| sprite_x := x player; sprite_y := y player;
                                 texture := "player"; destroyed := false |}]
            ∧ console s1 = console s ++ [joined_message (id player)]
            ∧ emitted s1 = emitted s) as (Hp1 & Hq1 & Hs1 & Hc1 & He1).
    { subst s1. unfold onPlayerJoined, assign_player.
      rewrite decide_False by done. by cbn. }
    rewrite (onPlayerLeft_own (id player) (length (sprites s)) s1)
      by (rewrite Hp1; apply lookup_insert_eq).
    eexists. split; [reflexivity|].
    cbn [set_players set_sprites console_log players sprites console emitted
         prototype].
    rewrite Hp1, Hs1, Hc1, He1, Hq1, Halter.
    rewrite delete_insert_eq, (delete_id _ _ Hnone).
    split; [done|]. split; [done|].
    split; [by rewrite <- app_assoc|]. split; [done|].
    split; [|done]. intros _. split; [done|].
    unfold get_player.
    cbn [set_players set_sprites console_log players sprites prototype].
    by rewrite Hq1.
Qed.

Lemma join_then_leave_witness :
  players MultiplayerDemo.lobby !! id MultiplayerDemo.player1 = None
  ∧ players MultiplayerDemo.lobby !! id MultiplayerDemo.intruder = None
  ∧ (∃ s',
       onPlayerLeft (id MultiplayerDemo.player1)
         (onPlayerJoined MultiplayerDemo.player1 MultiplayerDemo.lobby)
       = Returned s'
       ∧ players s' = players MultiplayerDemo.lobby
       ∧ prototype s' = prototype MultiplayerDemo.lobby)
  ∧ (∃ s',
       onPlayerLeft (id MultiplayerDemo.intruder)
         (onPlayerJoined MultiplayerDemo.intruder MultiplayerDemo.lobby)
       = Returned s'
       ∧ prototype s' = Some (length (sprites MultiplayerDemo.lobby))
       ∧ get_player (id MultiplayerDemo.intruder) s'
         = FoundSprite (length (sprites MultiplayerDemo.lobby))).
Proof.
  assert (players MultiplayerDemo.lobby !! id MultiplayerDemo.player1 = None)
    as Hnone by (vm_compute; reflexivity).
  assert (players MultiplayerDemo.lobby !! id MultiplayerDemo.intruder = None)
    as Hnone' by (vm_compute; reflexivity).
  assert (id MultiplayerDemo.player1 ≠ "__proto__") as Hne
    by (apply (bool_decide_unpack _); vm_compute; exact I).
  destruct (join_then_leave MultiplayerDemo.player1 MultiplayerDemo.lobby
              Hnone) as (s' & Hs' & Hp & _ & _ & _ & Hother & _).
  destruct (join_then_leave MultiplayerDemo.intruder MultiplayerDemo.lobby
              Hnone') as (s2 & Hs2 & _ & _ & _ & _ & _ & Hproto).
  split; [exact Hnone|]. split; [exact Hnone'|]. split.
  - exists s'. split; [exact Hs'|]. split; [exact Hp|].
    exact (proj1 (Hother Hne)).
  - exists s2. split; [exact Hs2|].
    destruct (Hproto eq_refl) as (Hq & Hg & _). split; [exact Hq|exact Hg].
Defined.



Lemma handle_length e s :
  (length (sprites s) <= length (sprites (state_of (handle e s))))%nat.
Proof.
  destruct e as [| |pl|pid|pl|px py]; simpl; try lia.
  - unfold onPlayerJoined, assign_player. case_decide; cbn;
      rewrite length_app; simpl; lia.
  - unfold onPlayerLeft. destruct (get_player _ _); simpl;
      [rewrite length_alter|..]; lia.
  - unfold onPlayerMoved. destruct (get_player _ _); simpl;
      [rewrite length_alter|..]; lia.
Qed.

Lemma handle_consistent e s :
  consistent s -> consistent (state_of (handle e s)).
Proof.
  intros (Hlive & Hinj & Hown & Hproto).
  destruct e as [| |pl|pid|pl|px py]; unfold consistent.
  - done.
  - cbn. split_and!.
    + intros i r Hi. by apply lookup_empty_Some in Hi.
    + intros i j r Hi _. by apply lookup_empty_Some in Hi.
    + done.
    + done.
  - cbn [handle state_of]. unfold onPlayerJoined, assign_player.
    assert (∀ i r, players s !! i = Some r ->
              ∃ sp, (sprites s
                     ++ [{| sprite_x := x pl; sprite_y := y pl;
                            texture := "player"; destroyed := false |}])
                      !! r = Some sp ∧ destroyed sp = false) as Hlive'.
    { intros i r Hi. destruct (Hlive i r Hi) as (sp & Hsp & Hd). exists sp.
      split; [|done]. rewrite lookup_app_l; [done|].
      by eapply lookup_lt_Some. }
    assert (∀ i, players s !! i ≠ Some (length (sprites s))) as Hnew.
    { intros i Hi. destruct (Hlive i _ Hi) as (sp & Hsp & _).
      apply lookup_lt_Some in Hsp. lia. }
    case_decide as Hid; cbn.
    + split_and!; try done.
      intros r [= <-]. split; [rewrite length_app; simpl; lia|done].
    + split_and!.
      * intros i r Hi. apply lookup_insert_Some in Hi as [[_ <-]|[Hne Hi]].
        -- eexists. split; [by rewrite list_lookup_middle|done].
        -- by eapply Hlive'.
      * intros i j r Hi Hj.
        apply lookup_insert_Some in Hi as [[<- <-]|[Hni Hi]];
          apply lookup_insert_Some in Hj as [[<- Hr]|[Hnj Hj]]; try done.
        -- by destruct (Hnew j).
        -- subst r. by destruct (Hnew i).
        -- by eapply Hinj.
      * by rewrite lookup_insert_ne.
      * intros r Hr. destruct (Hproto r Hr) as [Hlt Hno].
        split; [rewrite length_app; simpl; lia|].
        intros i Hi. apply lookup_insert_Some in Hi as [[_ Heq]|[_ Hi]];
          [lia|by eapply Hno].
  - cbn [handle]. unfold onPlayerLeft. rewrite get_player_console_log.
    destruct (get_player pid s) as [r0| |] eqn:Hg; [|done..].
    cbn. apply get_player_sprite in Hg as [Hp|(Hp & -> & Hq)].
    + split_and!.
      * intros i r Hi. apply lookup_delete_Some in Hi as [Hne Hi].
        destruct (Hlive i r Hi) as (sp & Hsp & Hd). exists sp.
        split; [|done]. rewrite list_lookup_alter_ne; [done|]. intros <-.
        apply Hne. by eapply Hinj.
      * intros i j r Hi Hj. apply lookup_delete_Some in Hi as [_ Hi].
        apply lookup_delete_Some in Hj as [_ Hj]. by eapply Hinj.
      * apply lookup_delete_None. by right.
      * intros r Hr. destruct (Hproto r Hr) as [Hlt Hno].
        split; [by rewrite length_alter|].
        intros i Hi. apply lookup_delete_Some in Hi as [_ Hi].
        by eapply Hno.
    + rewrite (delete_id _ _ Hp). destruct (Hproto r0 Hq) as [Hlt Hno].
      split_and!; try done.
      * intros i r Hi. destruct (Hlive i r Hi) as (sp & Hsp & Hd).
        exists sp. split; [|done].
        rewrite list_lookup_alter_ne; [done|]. intros <-. by eapply Hno.
      * intros r Hr. rewrite length_alter. by apply Hproto.
  - cbn [handle]. unfold onPlayerMoved.
    destruct (get_player (id pl) s) as [r0| |] eqn:Hg; [|done..].
    cbn. split_and!; try done.
    + intros i r Hi. destruct (Hlive i r Hi) as (sp & Hsp & Hd).
      destruct (decide (r0 = r)) as [->|Hne].
      * exists (setPosition (x pl) (y pl) sp).
        split; [|done]. by rewrite list_lookup_alter_eq, Hsp.
      * exists sp. split; [|done]. by rewrite list_lookup_alter_ne.
    + intros r Hr. rewrite length_alter. by apply Hproto.
  - done.
Qed.

Lemma run_consistent es s : consistent s -> consistent (run es s).
Proof.
  revert s. induction es as [|e es IH]; intros s Hs; [done|].
  unfold run in *. cbn [foldl]. by apply IH, handle_consistent.
Qed.

Lemma constructor_consistent gameId scene_sprites :
  consistent (constructor gameId scene_sprites).
Proof.
  split_and!.
  - intros i r Hi. cbn in Hi. by apply lookup_empty_Some in Hi.
  - intros i j r Hi _. cbn in Hi. by apply lookup_empty_Some in Hi.
  - done.
  - done.
Qed.

(** X12: the own entries of the roster always point at live sprites.  In
    every state reached from the constructor by any sequence of events,
    failed ones included, [__proto__] is no own entry of [players]; every
    own entry refers to a sprite of the scene that was not destroyed, and no
    other id resolves to that sprite, through the prototype either; and
    [onPlayerLeft] of an id with an own entry returns, removes the entry,
    destroys exactly that sprite, and the id resolves to no sprite
    afterwards. *)
Theorem players_refer_to_live_sprites gameId scene_sprites es i r :
  players (run es (constructor gameId scene_sprites)) !! i = Some r ->
  i ≠ "__proto__"
  ∧ get_player i (run es (constructor gameId scene_sprites)) = FoundSprite r
  ∧ (∃ sp, sprites (run es (constructor gameId scene_sprites)) !! r = Some sp
           ∧ destroyed sp = false)
  ∧ (∀ j, get_player j (run es (constructor gameId scene_sprites))
          = FoundSprite r -> j = i)
  ∧ ∃ s' sp,
      onPlayerLeft i (run es (constructor gameId scene_sprites)) = Returned s'
      ∧ players s' !! i = None
      ∧ (∀ r', get_player i s' ≠ FoundSprite r')
      ∧ sprites (run es (constructor gameId scene_sprites)) !! r = Some sp
      ∧ sprites s' !! r = Some (destroy sp)
      ∧ ∀ r', r' ≠ r ->
          sprites s' !! r'
          = sprites (run es (constructor gameId scene_sprites)) !! r'.
Proof.
  intros Hi. set (s := run es (constructor gameId scene_sprites)) in *.
  destruct (run_consistent es _ (constructor_consistent gameId scene_sprites))
    as (Hlive & Hinj & Hown & Hproto). fold s in Hlive, Hinj, Hown, Hproto.
  destruct (Hlive i r Hi) as (sp & Hsp & Hd).
  assert (i ≠ "__proto__") as Hne by (intros ->; congruence).
  split_and!.
  - done.
  - by apply get_player_own.
  - by exists sp.
  - intros j Hj. apply get_player_sprite in Hj as [Hj|(_ & _ & Hq)].
    + by eapply Hinj.
    + destruct (Hproto r Hq) as [_ Hno]. by destruct (Hno i).
  - rewrite (onPlayerLeft_own i r s Hi).
    eexists _, sp. split; [reflexivity|].
    cbn [set_players set_sprites console_log players sprites].
    split_and!.
    + apply lookup_delete_eq.
    + intros r' Hg. apply get_player_sprite in Hg as [Hg|(_ & Heq & _)];
        [|done].
      cbn [set_players players] in Hg. by rewrite lookup_delete_eq in Hg.
    + done.
    + by rewrite list_lookup_alter_eq, Hsp.
    + intros r' Hne'. by rewrite list_lookup_alter_ne.
Qed.

Lemma players_refer_to_live_sprites_witness :
  players (run MultiplayerDemo.joined (constructor "test-game" []))
    !! "player1" = Some 0%nat
  ∧ "player1" ≠ "__proto__"
  ∧ get_player "player1"
      (run MultiplayerDemo.joined (constructor "test-game" []))
    = FoundSprite 0
  ∧ ∃ sp, sprites (run MultiplayerDemo.joined (constructor "test-game" []))
            !! 0%nat = Some sp
          ∧ destroyed sp = false.
Proof.
  assert (players (run MultiplayerDemo.joined (constructor "test-game" []))
            !! "player1" = Some 0%nat) as Hin by (vm_compute; reflexivity).
  destruct (players_refer_to_live_sprites "test-game" []
              MultiplayerDemo.joined "player1" 0%nat Hin)
    as (Hne & Hg & Hlive & _).
  split; [exact Hin|]. split; [exact Hne|]. split; [exact Hg|exact Hlive].
Defined.

Lemma handle_orphan e s r :
  consistent s -> orphan r s ->
  orphan r (state_of (handle e s))
  ∧ sprites (state_of (handle e s)) !! r = sprites s !! r.
Proof.
  intros (Hlive & Hinj & Hown & Hproto) (Hlt & Hno & Hnp).
  pose proof (handle_length e s) as Hlen.
  destruct e as [| |pl|pid|pl|px py]; unfold orphan.
  - done.
  - cbn. split; [|done]. split; [lia|]. split; [|done]. intros i Hi.
    by apply lookup_empty_Some in Hi.
  - cbn [handle state_of] in *. unfold onPlayerJoined, assign_player in *.
    case_decide; cbn in *.
    + split; [|by rewrite lookup_app_l].
      split; [lia|]. split; [done|]. intros [= Heq]. lia.
    + split; [|by rewrite lookup_app_l].
      split; [lia|]. split; [|done]. intros i Hi.
      apply lookup_insert_Some in Hi as [[_ Hr]|[_ Hi]]; [lia|by eapply Hno].
  - cbn [handle] in *. unfold onPlayerLeft in *.
    rewrite get_player_console_log in *.
    destruct (get_player pid s) as [r0| |] eqn:Hg; [|done..].
    cbn in *.
    assert (r0 ≠ r) as Hne.
    { intros ->. apply get_player_sprite in Hg as [Hg|(_ & _ & Hg)];
        [by eapply Hno|done]. }
    split.
    + split; [lia|]. split; [|done]. intros i Hi.
      apply lookup_delete_Some in Hi as [_ Hi]. by eapply Hno.
    + by rewrite list_lookup_alter_ne.
  - cbn [handle] in *. unfold onPlayerMoved in *.
    destruct (get_player (id pl) s) as [r0| |] eqn:Hg; [|done..].
    cbn in *.
    assert (r0 ≠ r) as Hne.
    { intros ->. apply get_player_sprite in Hg as [Hg|(_ & _ & Hg)];
        [by eapply Hno|done]. }
    split; [|by rewrite list_lookup_alter_ne].
    split; [lia|]. by split.
  - done.
Qed.

Lemma run_orphan es s r :
  consistent s -> orphan r s ->
  orphan r (run es s) ∧ sprites (run es s) !! r = sprites s !! r.
Proof.
  revert s. induction es as [|e es IH]; intros s Hs Ho; [done|].
  unfold run in *. cbn [foldl].
  destruct (handle_orphan e s r Hs Ho) as [Ho' Heq].
  destruct (IH _ (handle_consistent e s Hs) Ho') as [Ho'' Heq'].
  split; [done|]. by rewrite Heq'.
Qed.

(** X13: sprites that drop out of the roster stay in the scene.  In a state
    reached from the constructor, [onDisconnect] empties [players] without
    destroying a sprite, and [onPlayerJoined] for an id that is already in
    [players] replaces its entry without destroying the old sprite.  Such a
    sprite is out of reach for good: through any later events it stays in
    the scene exactly as it was, not destroyed and not moved. *)
Theorem dropped_sprites_stay_forever gameId scene_sprites es i r :
  players (run es (constructor gameId scene_sprites)) !! i = Some r ->
  ∃ sp,
    sprites (run es (constructor gameId scene_sprites)) !! r = Some sp
    ∧ destroyed sp = false
    ∧ players (onDisconnect (run es (constructor gameId scene_sprites))) = ∅
    ∧ (∀ later,
         sprites (run later
                    (onDisconnect (run es (constructor gameId scene_sprites))))
           !! r = Some sp)
    ∧ ∀ px py later,
        sprites (run later
                   (onPlayerJoined {| id := i; x := px; y := py |}
                      (run es (constructor gameId scene_sprites))))
          !! r = Some sp.
Proof.
  intros Hi. set (s := run es (constructor gameId scene_sprites)) in *.
  pose proof (run_consistent es _ (constructor_consistent gameId scene_sprites))
    as Hs. fold s in Hs.
  pose proof Hs as (Hlive & Hinj & Hown & Hproto).
  destruct (Hlive i r Hi) as (sp & Hsp & Hd).
  pose proof (lookup_lt_Some _ _ _ Hsp) as Hlt.
  assert (i ≠ "__proto__") as Hne by (intros ->; congruence).
  exists sp. split_and!; try done.
  - intros later.
    destruct (run_orphan later (onDisconnect s) r) as [_ ->]; [| |done].
    + apply (handle_consistent Disconnect s Hs).
    + split; [done|]. split; [|done]. intros j Hj.
      change ((∅ : gmap string nat) !! j = Some r) in Hj.
      by apply lookup_empty_Some in Hj.
  - intros px py later.
    destruct (run_orphan later (onPlayerJoined {| id := i; x := px; y := py |} s) r)
      as [_ ->].
    + apply (handle_consistent (PlayerJoined _) s Hs).
    + unfold orphan, onPlayerJoined, assign_player. cbn [id].
      rewrite decide_False by done. cbn.
      split; [rewrite length_app; simpl; lia|]. split.
      * intros j Hj.
        apply lookup_insert_Some in Hj as [[_ Hr]|[Hnj Hj]]; [lia|].
        apply Hnj. by eapply Hinj.
      * intros Hq. destruct (Hproto r Hq) as [_ Hno]. by destruct (Hno i).
    + unfold onPlayerJoined, assign_player. cbn [id].
      rewrite decide_False by done. cbn. by rewrite lookup_app_l.
Qed.

Lemma dropped_sprites_stay_forever_witness :
  players (run MultiplayerDemo.joined (constructor "test-game" []))
    !! "player1" = Some 0%nat
  ∧ ∃ sp,
      sprites (run MultiplayerDemo.joined (constructor "test-game" []))
        !! 0%nat = Some sp
      ∧ destroyed sp = false
      ∧ players (onDisconnect
                   (run MultiplayerDemo.joined (constructor "test-game" [])))
        = ∅
      ∧ (∀ later,
           sprites (run later
                      (onDisconnect
                         (run MultiplayerDemo.joined
                            (constructor "test-game" []))))
             !! 0%nat = Some sp)
      ∧ ∀ px py later,
          sprites (run later
                     (onPlayerJoined {| id := "player1"; x := px; y := py |}
                        (run MultiplayerDemo.joined
                           (constructor "test-game" []))))
            !! 0%nat = Some sp.
Proof.
  assert (players (run MultiplayerDemo.joined (constructor "test-game" []))
            !! "player1" = Some 0%nat) as Hin by (vm_compute; reflexivity).
  split; [exact Hin|].
  exact (dropped_sprites_stay_forever "test-game" [] MultiplayerDemo.joined
           "player1" 0%nat Hin).
Defined.

End MultiplayerFacts.

(** * The level editor and the level manager *)

Module LevelFacts.

Import LevelEditor.

Lemma tile_key_quot s p :
  gridSize s ≠ 0 ->
  tile_key s p
  = Z.quot (pointer_y p) (gridSize s) * width s
    + Z.quot (pointer_x p) (gridSize s).
Proof.
  intros Hg. unfold tile_key.
  assert (∀ v, Z.quot (v - Z.rem v (gridSize s)) (gridSize s)
               = Z.quot v (gridSize s)) as Hq.
  { intros v. pose proof (Z.quot_rem' v (gridSize s)) as Hv.
    replace (v - Z.rem v (gridSize s))
      with (Z.quot v (gridSize s) * gridSize s) by lia.
    by apply Z.quot_mul. }
  by rewrite !Hq.
Qed.

Lemma length_to_json a : length (to_json a) = Z.to_nat (len a).
Proof. unfold to_json. by rewrite length_fmap, length_seqZ. Qed.

Lemma to_json_lookup a i :
  0 <= i < len a -> to_json a !! Z.to_nat i = Some (json_at a i).
Proof.
  intros Hi. unfold to_json. rewrite list_lookup_fmap.
  rewrite lookup_seqZ_lt by lia. simpl. f_equal. f_equal. lia.
Qed.

Lemma json_at_array_set k v a i :
  json_at (array_set k v a) i
  = if decide (i = k)
    then match v with CTile t => Some t | _ => None end
    else json_at a i.
Proof.
  unfold json_at, array_set. simpl. destruct (decide (i = k)) as [->|Hne].
  - by rewrite lookup_insert_eq.
  - by rewrite lookup_insert_ne.
Qed.

Lemma tile_key_in_canvas s p :
  0 < gridSize s -> 0 <= pointer_x p < width s -> 0 <= pointer_y p ->
  tile_key s p
  = pointer_y p / gridSize s * width s + pointer_x p / gridSize s
  ∧ 0 <= pointer_x p / gridSize s < width s
  ∧ 0 <= pointer_y p / gridSize s
  ∧ 0 <= tile_key s p.
Proof.
  intros Hg Hx Hy.
  rewrite !tile_key_quot by lia.
  rewrite !Z.quot_div_nonneg by lia.
  assert (0 <= pointer_x p / gridSize s <= pointer_x p).
  { split; [apply Z.div_pos; lia|].
    apply Z.div_le_upper_bound; [lia|]. nia. }
  assert (0 <= pointer_y p / gridSize s) by (apply Z.div_pos; lia).
  split_and!; try done; try lia. nia.
Qed.

Lemma to_json_painted s p t :
  selectedTile s = Some t ->
  0 <= len (levelData s) ->
  0 <= tile_key s p < 2 ^ 32 - 1 ->
  to_json (levelData (placeTile p s)) !! Z.to_nat (tile_key s p)
  = Some (index t).
Proof.
  intros Hsel Hlen Hk. unfold placeTile. rewrite Hsel.
  cbn [set_levelData levelData].
  rewrite to_json_lookup
    by (unfold array_set; simpl; rewrite decide_True by lia; lia).
  rewrite json_at_array_set, decide_True by done.
  unfold cell_of. by destruct (index t).
Qed.

(** X14: for a pointer inside the canvas, [placeTile] addresses the grid
    cell under it, row by row: the key is row times the scale width plus
    column, where the column and the row are the pointer coordinates divided
    by the grid size and rounded down.  Two pointers get the same key
    exactly when they are in the same cell, so painting one cell never
    overwrites another. *)
Theorem placeTile_addresses_cells s p q :
  0 < gridSize s ->
  0 <= pointer_x p < width s -> 0 <= pointer_y p ->
  0 <= pointer_x q < width s -> 0 <= pointer_y q ->
  tile_key s p
  = pointer_y p / gridSize s * width s + pointer_x p / gridSize s
  ∧ 0 <= tile_key s p
  ∧ (tile_key s p = tile_key s q
     <-> pointer_x p / gridSize s = pointer_x q / gridSize s
         ∧ pointer_y p / gridSize s = pointer_y q / gridSize s).
Proof.
  intros Hg Hpx Hpy Hqx Hqy.
  destruct (tile_key_in_canvas s p Hg Hpx Hpy) as (-> & Hcp & Hrp & Hkp).
  destruct (tile_key_in_canvas s q Hg Hqx Hqy) as (-> & Hcq & Hrq & Hkq).
  split; [reflexivity|]. split; [nia|].
  split; [|intros [-> ->]; reflexivity].
  intros Heq.
  assert (pointer_y p / gridSize s = pointer_y q / gridSize s) by nia.
  split; [nia|done].
Qed.

Lemma placeTile_addresses_cells_witness :
  0 < gridSize (LevelDemo.canvas None 2)
  ∧ 0 <= pointer_x LevelDemo.at_5_3 < width (LevelDemo.canvas None 2)
  ∧ 0 <= pointer_y LevelDemo.at_5_3
  ∧ 0 <= pointer_x LevelDemo.at_4_2 < width (LevelDemo.canvas None 2)
  ∧ 0 <= pointer_y LevelDemo.at_4_2
  ∧ tile_key (LevelDemo.canvas None 2) LevelDemo.at_5_3 = 3 / 2 * 8 + 5 / 2
  ∧ 0 <= tile_key (LevelDemo.canvas None 2) LevelDemo.at_5_3
  ∧ (tile_key (LevelDemo.canvas None 2) LevelDemo.at_5_3
     = tile_key (LevelDemo.canvas None 2) LevelDemo.at_4_2
     <-> 5 / 2 = 4 / 2 ∧ 3 / 2 = 2 / 2).
Proof.
  assert (0 < gridSize (LevelDemo.canvas None 2)) as Hg by (simpl; lia).
  assert (0 <= pointer_x LevelDemo.at_5_3 < width (LevelDemo.canvas None 2))
    as Hpx by (simpl; lia).
  assert (0 <= pointer_y LevelDemo.at_5_3) as Hpy by (simpl; lia).
  assert (0 <= pointer_x LevelDemo.at_4_2 < width (LevelDemo.canvas None 2))
    as Hqx by (simpl; lia).
  assert (0 <= pointer_y LevelDemo.at_4_2) as Hqy by (simpl; lia).
  split; [exact Hg|]. split; [exact Hpx|]. split; [exact Hpy|].
  split; [exact Hqx|]. split; [exact Hqy|].
  exact (placeTile_addresses_cells (LevelDemo.canvas None 2)
           LevelDemo.at_5_3 LevelDemo.at_4_2 Hg Hpx Hpy Hqx Hqy).
Defined.

Lemma array_set_wf k v a : array_wf a -> array_wf (array_set k v a).
Proof.
  intros [Hlen Hel]. unfold array_wf, array_set. simpl. split.
  - case_decide; lia.
  - intros i c Hi Hr. destruct (decide (i = k)) as [->|Hne].
    + rewrite decide_True by lia. lia.
    + rewrite lookup_insert_ne in Hi by done.
      specialize (Hel i c Hi Hr). case_decide; lia.
Qed.

Lemma empty_array_wf : array_wf empty_array.
Proof. split; simpl; [lia|]. intros i c Hi. by apply lookup_empty_Some in Hi. Qed.

(** X15: painting a cell inside the array range with a tileset selected
    changes the saved level at that cell only: the saved array is long
    enough to hold the cell, holds there the [index] of the selected tileset
    ([null] when the tileset has no [index]), keeps every other element it
    had, and is filled with [null] between its old end and the cell. *)
Theorem placeTile_saved_cell s p t :
  selectedTile s = Some t ->
  array_wf (levelData s) ->
  0 <= tile_key s p < 2 ^ 32 - 1 ->
  let saved := to_json (levelData s) in
  let saved' := to_json (levelData (placeTile p s)) in
  length saved' = max (length saved) (S (Z.to_nat (tile_key s p)))
  ∧ saved' !! Z.to_nat (tile_key s p) = Some (index t)
  ∧ (∀ i, i ≠ Z.to_nat (tile_key s p) -> (i < length saved)%nat ->
       saved' !! i = saved !! i)
  ∧ (∀ i, (length saved <= i < Z.to_nat (tile_key s p))%nat ->
       saved' !! i = Some None).
Proof.
  intros Hsel [Hlen Hel] Hk saved saved'. subst saved saved'.
  unfold placeTile. rewrite Hsel. simpl.
  set (k := tile_key s p) in *.
  set (a := levelData s) in *.
  assert (len (array_set k (cell_of t) a) = Z.max (len a) (k + 1)) as Hlen'.
  { unfold array_set. simpl. by rewrite decide_True by lia. }
  rewrite !length_to_json, Hlen'.
  split_and!.
  - lia.
  - rewrite <- (to_json_painted s p t Hsel) by (subst k a; lia).
    unfold placeTile. by rewrite Hsel.
  - intros i Hne Hi.
    replace i with (Z.to_nat (Z.of_nat i)) by lia.
    rewrite !to_json_lookup by lia. rewrite json_at_array_set.
    rewrite decide_False by lia. done.
  - intros i Hi.
    replace i with (Z.to_nat (Z.of_nat i)) by lia.
    rewrite to_json_lookup by lia. rewrite json_at_array_set.
    rewrite decide_False by lia.
    unfold json_at.
    destruct (elems a !! Z.of_nat i) as [c|] eqn:He; [|done].
    specialize (Hel _ _ He). lia.
Qed.

Lemma placeTile_saved_cell_witness :
  selectedTile (LevelDemo.canvas (Some LevelDemo.grass) 2)
  = Some LevelDemo.grass
  ∧ array_wf (levelData (LevelDemo.canvas (Some LevelDemo.grass) 2))
  ∧ 0 <= tile_key (LevelDemo.canvas (Some LevelDemo.grass) 2) LevelDemo.at_5_3
    < 2 ^ 32 - 1
  ∧ to_json (levelData (placeTile LevelDemo.at_5_3
                          (LevelDemo.canvas (Some LevelDemo.grass) 2)))
    !! 10%nat
    = Some (Some 1).
Proof.
  assert (0 <= tile_key (LevelDemo.canvas (Some LevelDemo.grass) 2)
                LevelDemo.at_5_3 < 2 ^ 32 - 1) as Hk
    by (vm_compute; split; [discriminate|reflexivity]).
  split; [reflexivity|]. split; [exact empty_array_wf|]. split; [exact Hk|].
  exact (proj1 (proj2
    (placeTile_saved_cell (LevelDemo.canvas (Some LevelDemo.grass) 2)
       LevelDemo.at_5_3 LevelDemo.grass eq_refl empty_array_wf Hk))).
Defined.

(** X16: a pointer in a row above the canvas (at least one grid size above
    its top edge) is written at a negative key, which is not an element of
    the array: the write happens, but the saved level is what it was. *)
Theorem placeTile_above_canvas_is_not_saved s p :
  0 < gridSize s ->
  0 <= pointer_x p < width s ->
  pointer_y p <= - gridSize s ->
  tile_key s p < 0
  ∧ is_Some (elems (levelData (placeTile p s)) !! tile_key s p)
  ∧ to_json (levelData (placeTile p s)) = to_json (levelData s).
Proof.
  intros Hg Hx Hy.
  assert (tile_key s p < 0) as Hk.
  { rewrite tile_key_quot by lia.
    rewrite (Z.quot_div_nonneg (pointer_x p)) by lia.
    assert (0 <= pointer_x p / gridSize s <= pointer_x p).
    { split; [apply Z.div_pos; lia|].
      apply Z.div_le_upper_bound; [lia|]. nia. }
    assert (Z.quot (pointer_y p) (gridSize s) <= -1).
    { pose proof (Z.quot_opp_l (pointer_y p) (gridSize s) ltac:(lia)) as Ho.
      assert (1 <= Z.quot (- pointer_y p) (gridSize s)).
      { rewrite Z.quot_div_nonneg by lia.
        apply Z.div_le_lower_bound; lia. }
      lia. }
    nia. }
  split; [exact Hk|].
  assert (∀ v, elems (array_set (tile_key s p) v (levelData s))
               !! tile_key s p = Some v) as Hw
    by (intros v; unfold array_set; simpl; apply lookup_insert_eq).
  assert (∀ v, to_json (array_set (tile_key s p) v (levelData s))
               = to_json (levelData s)) as Hj.
  { intros v. unfold to_json.
    assert (len (array_set (tile_key s p) v (levelData s))
            = len (levelData s)) as ->
      by (unfold array_set; simpl; by rewrite decide_False by lia).
    apply list_eq. intros i. rewrite !list_lookup_fmap.
    destruct (seqZ 0 (len (levelData s)) !! i) as [j|] eqn:Hj; [|done].
    apply lookup_seqZ in Hj as [-> _]. simpl.
    rewrite json_at_array_set. by rewrite decide_False by lia. }
  unfold placeTile.
  destruct (selectedTile s); cbn [set_levelData levelData];
    rewrite Hw, Hj; eauto.
Qed.

Lemma placeTile_above_canvas_is_not_saved_witness :
  0 < gridSize (LevelDemo.canvas (Some LevelDemo.grass) 2)
  ∧ 0 <= pointer_x LevelDemo.above
    < width (LevelDemo.canvas (Some LevelDemo.grass) 2)
  ∧ pointer_y LevelDemo.above
    <= - gridSize (LevelDemo.canvas (Some LevelDemo.grass) 2)
  ∧ tile_key (LevelDemo.canvas (Some LevelDemo.grass) 2) LevelDemo.above < 0
  ∧ is_Some (elems (levelData (placeTile LevelDemo.above
                      (LevelDemo.canvas (Some LevelDemo.grass) 2)))
             !! tile_key (LevelDemo.canvas (Some LevelDemo.grass) 2)
                  LevelDemo.above)
  ∧ to_json (levelData (placeTile LevelDemo.above
                          (LevelDemo.canvas (Some LevelDemo.grass) 2)))
    = to_json (levelData (LevelDemo.canvas (Some LevelDemo.grass) 2)).
Proof.
  assert (0 < gridSize (LevelDemo.canvas (Some LevelDemo.grass) 2)) as Hg
    by (simpl; lia).
  assert (0 <= pointer_x LevelDemo.above
          < width (LevelDemo.canvas (Some LevelDemo.grass) 2)) as Hx
    by (simpl; lia).
  assert (pointer_y LevelDemo.above
          <= - gridSize (LevelDemo.canvas (Some LevelDemo.grass) 2)) as Hy
    by (simpl; lia).
  split; [exact Hg|]. split; [exact Hx|]. split; [exact Hy|].
  exact (placeTile_above_canvas_is_not_saved
           (LevelDemo.canvas (Some LevelDemo.grass) 2) LevelDemo.above
           Hg Hx Hy).
Defined.

Lemma handle_selection e s :
  is_Some (selectedTile s) ->
  is_Some (selectedTile (handle e s))
  ∧ ∀ k, elems (levelData (handle e s)) !! k = Some CNull ->
         elems (levelData s) !! k = Some CNull.
Proof.
  intros [t Ht].
  assert (∀ p b,
    is_Some (selectedTile (placeTile p (set_pointerDown b s)))
    ∧ ∀ k, elems (levelData (placeTile p (set_pointerDown b s))) !! k
           = Some CNull -> elems (levelData s) !! k = Some CNull) as Hplace.
  { intros p b. unfold placeTile. simpl. rewrite Ht. simpl.
    split; [by rewrite Ht|]. intros k.
    destruct (decide (k = tile_key (set_pointerDown b s) p)) as [->|Hne].
    - rewrite lookup_insert_eq. unfold cell_of. by destruct (index t).
    - by rewrite lookup_insert_ne. }
  destruct e as [key|p|p|p| |]; simpl.
  - unfold select_tileset.
    destruct (list_find _ _) as [[? [? ?]]|]; simpl; eauto.
  - unfold handlePointerDown. destruct (leftButtonDown p); eauto.
  - unfold handlePointerMove. destruct (pointerDown s) eqn:Hd; [|eauto].
    rewrite Ht.
    replace s with (set_pointerDown true s) at 1 2
      by (destruct s; simpl in *; by subst).
    apply Hplace.
  - eauto.
  - eauto.
  - eauto.
Qed.

Lemma handle_indexed e s :
  indexed s ->
  indexed (handle e s)
  ∧ ∀ k, json_at (levelData (handle e s)) k = None ->
         json_at (levelData s) k = None.
Proof.
  intros Hi. pose proof Hi as [(t & Ht & i & Hidx) Hall].
  assert (∀ p b,
    indexed (placeTile p (set_pointerDown b s))
    ∧ ∀ k, json_at (levelData (placeTile p (set_pointerDown b s))) k = None ->
           json_at (levelData s) k = None) as Hplace.
  { intros p b. unfold placeTile. cbn [set_pointerDown selectedTile].
    rewrite Ht. split.
    - split; [|done]. exists t. by eauto.
    - intros k. cbn [set_levelData set_pointerDown levelData].
      rewrite json_at_array_set. unfold cell_of. rewrite Hidx.
      by case_decide. }
  destruct e as [key|p|p|p| |]; cbn [handle].
  - unfold select_tileset.
    destruct (list_find _ _) as [[n [key' t']]|] eqn:Hfind; [|done].
    split; [|done]. split; [|done]. exists t'. split; [done|].
    apply list_find_Some in Hfind as (Hn & _ & _).
    rewrite Forall_forall in Hall.
    apply (Hall (key', t')). by eapply list_elem_of_lookup_2.
  - unfold handlePointerDown. destruct (leftButtonDown p); [|done].
    apply Hplace.
  - unfold handlePointerMove. destruct (pointerDown s) eqn:Hd; [|done].
    rewrite Ht.
    replace s with (set_pointerDown true s) at 1 2
      by (destruct s; simpl in *; by subst).
    apply Hplace.
  - done.
  - done.
  - done.
Qed.

(** X17: nothing unselects a tileset, and the eraser is a tileset without
    [index].  From a state with a tileset selected, whatever the user does
    afterwards, a tileset stays selected and no element of [levelData]
    becomes the literal [null] that was not [null] before.  When the
    selected tileset and every tileset of the editor have an [index], no
    cell of the saved level becomes [null] either: a painted cell can be
    painted over but not erased.  When the selected tileset has no [index],
    as the tilesets of the source's own test, a left press writes
    [undefined] at the cell, which is saved as [null]: the cell is erased. *)
Theorem selection_is_never_cleared es s t :
  selectedTile s = Some t ->
  is_Some (selectedTile (run es s))
  ∧ (∀ k, elems (levelData (run es s)) !! k = Some CNull ->
          elems (levelData s) !! k = Some CNull)
  ∧ (indexed s ->
     ∀ k, json_at (levelData (run es s)) k = None ->
          json_at (levelData s) k = None)
  ∧ (index t = None ->
     ∀ p, leftButtonDown p = true ->
          elems (levelData (handlePointerDown p s)) !! tile_key s p
          = Some CUndefined
          ∧ json_at (levelData (handlePointerDown p s)) (tile_key s p) = None).
Proof.
  intros Ht. split_and!.
  - assert (is_Some (selectedTile s)) as Hs by eauto. clear Ht.
    revert s Hs. induction es as [|e es IH]; intros s Hs; simpl; [done|].
    destruct (handle_selection e s Hs) as [Hs1 _]. by apply IH.
  - assert (is_Some (selectedTile s)) as Hs by eauto. clear Ht.
    revert s Hs. induction es as [|e es IH]; intros s Hs; simpl; [done|].
    destruct (handle_selection e s Hs) as [Hs1 Hn1].
    intros k Hk. apply Hn1. by apply (IH _ Hs1).
  - clear Ht. revert s. induction es as [|e es IH]; intros s Hi; simpl;
      [done|].
    destruct (handle_indexed e s Hi) as [Hi1 Hn1].
    intros k Hk. apply Hn1. by apply (IH _ Hi1).
  - intros Hidx p Hleft. unfold handlePointerDown, placeTile. rewrite Hleft.
    cbn [set_pointerDown selectedTile levelData set_levelData]. rewrite Ht.
    cbn [set_levelData levelData].
    change (tile_key (set_pointerDown true s) p) with (tile_key s p).
    unfold json_at, array_set, cell_of. cbn [elems].
    by rewrite lookup_insert_eq, Hidx.
Qed.

Lemma selection_is_never_cleared_witness :
  selectedTile (LevelDemo.canvas (Some LevelDemo.grass) 2)
  = Some LevelDemo.grass
  ∧ selectedTile LevelDemo.painted_then_bare = Some LevelDemo.bare
  ∧ indexed (LevelDemo.canvas (Some LevelDemo.grass) 2)
  ∧ index LevelDemo.bare = None
  ∧ leftButtonDown LevelDemo.at_4_2 = true
  ∧ is_Some (selectedTile
               (run [PointerDown LevelDemo.at_5_3; PointerUp LevelDemo.at_5_3;
                     TilesetClicked "none"; PointerDown LevelDemo.at_4_2]
                  (LevelDemo.canvas (Some LevelDemo.grass) 2)))
  ∧ (∀ k, json_at
            (levelData
               (run [PointerDown LevelDemo.at_5_3; PointerUp LevelDemo.at_5_3;
                     TilesetClicked "none"; PointerDown LevelDemo.at_4_2]
                  (LevelDemo.canvas (Some LevelDemo.grass) 2))) k = None ->
          json_at (levelData (LevelDemo.canvas (Some LevelDemo.grass) 2)) k
          = None)
  ∧ json_at (levelData LevelDemo.painted_then_bare)
      (tile_key LevelDemo.painted_then_bare LevelDemo.at_4_2)
    = Some 1
  ∧ json_at
      (levelData (handlePointerDown LevelDemo.at_4_2
                    LevelDemo.painted_then_bare))
      (tile_key LevelDemo.painted_then_bare LevelDemo.at_4_2)
    = None.
Proof.
  assert (indexed (LevelDemo.canvas (Some LevelDemo.grass) 2)) as Hi.
  { split; [exists LevelDemo.grass; split; [reflexivity|by eexists]|].
    repeat constructor. by eexists. }
  destruct (selection_is_never_cleared
              [PointerDown LevelDemo.at_5_3; PointerUp LevelDemo.at_5_3;
               TilesetClicked "none"; PointerDown LevelDemo.at_4_2]
              (LevelDemo.canvas (Some LevelDemo.grass) 2) LevelDemo.grass
              eq_refl) as (Hsel & _ & Hkeeps & _).
  destruct (selection_is_never_cleared [] LevelDemo.painted_then_bare
              LevelDemo.bare eq_refl) as (_ & _ & _ & Herases).
  split; [reflexivity|]. split; [reflexivity|]. split; [exact Hi|].
  split; [reflexivity|]. split; [reflexivity|]. split; [exact Hsel|].
  split; [exact (Hkeeps Hi)|]. split; [vm_compute; reflexivity|].
  exact (proj2 (Herases eq_refl LevelDemo.at_4_2 eq_refl)).
Defined.

Lemma lines_stops n fuel v limit step line :
  0 < step -> limit - v <= Z.of_nat n * step -> (n < fuel)%nat ->
  lines fuel v limit step line
  = Some (flat_map line ((fun d => v + d) <$> stops (limit - v) step)).
Proof.
  intros Hstep. revert fuel v.
  induction n as [|n IH]; intros fuel v Hn Hfuel;
    (destruct fuel as [|fuel]; [lia|]); simpl.
  - rewrite decide_False by lia. unfold stops.
    rewrite (seqZ_nil 0); [done|].
    apply Z.lt_succ_r, Z.div_lt_upper_bound; lia.
  - destruct (decide (v < limit)) as [Hlt|Hge].
    + rewrite (IH fuel (v + step)) by lia. simpl. f_equal.
      unfold stops.
      replace (limit - v + step - 1)
        with ((limit - (v + step) + step - 1) + 1 * step) by lia.
      rewrite Z.div_add by lia.
      set (c := (limit - (v + step) + step - 1) / step).
      assert (0 <= c) by (apply Z.div_pos; lia).
      rewrite (seqZ_cons 0 (c + 1)) by lia.
      replace (Z.pred (c + 1)) with c by lia.
      replace (Z.succ 0) with (1 + 0) by lia.
      rewrite <- (fmap_add_seqZ 1 0 c).
      rewrite !fmap_cons. cbn [flat_map].
      replace (v + 0 * step) with v by lia. f_equal.
      rewrite <- !list_fmap_compose. f_equal.
      apply list_fmap_ext. intros ? d _. simpl. lia.
    + unfold stops. rewrite (seqZ_nil 0); [done|].
      apply Z.lt_succ_r, Z.div_lt_upper_bound; lia.
Qed.

Lemma lines_forever fuel v limit step line :
  step <= 0 -> v < limit -> lines fuel v limit step line = None.
Proof.
  intros Hstep. revert v. induction fuel as [|fuel IH]; intros v Hv; [done|].
  simpl. rewrite decide_True by done. by rewrite IH by lia.
Qed.

Lemma stops_spec limit step v :
  0 < step ->
  v ∈ stops limit step <-> ∃ i, v = i * step ∧ 0 <= i ∧ v < limit.
Proof.
  intros Hstep. unfold stops. rewrite list_elem_of_fmap. split.
  - intros (i & -> & Hi). apply elem_of_seqZ in Hi. exists i.
    split; [done|]. split; [lia|].
    assert (i + 1 <= (limit + step - 1) / step) as Hle by lia.
    pose proof (Z.mul_div_le (limit + step - 1) step Hstep). nia.
  - intros (i & -> & Hi & Hlt). exists i. split; [done|].
    apply elem_of_seqZ. split; [lia|].
    assert (i + 1 <= (limit + step - 1) / step)
      by (apply Z.div_le_lower_bound; nia).
    lia.
Qed.

Lemma lines_from_zero fuel limit step line :
  0 < step -> (Z.to_nat limit < fuel)%nat ->
  lines fuel 0 limit step line = Some (flat_map line (stops limit step)).
Proof.
  intros Hstep Hfuel.
  rewrite (lines_stops (Z.to_nat limit)) by (try done; nia).
  replace (limit - 0) with limit by lia.
  f_equal. f_equal. rewrite <- (list_fmap_id (stops _ _)) at 2.
  apply list_fmap_ext. intros ? d _. simpl. lia.
Qed.

(** X18: with a positive grid size [drawGrid] comes to an end, given fuel
    for one more step than the lines it draws, and leaves on the graphics
    object the line style, one vertical line at every multiple of the grid
    size from 0 below the scale width, one horizontal line at every such
    multiple below the scale height, in increasing order, and the stroke.
    No line is drawn at the right or bottom edge. *)
Theorem drawGrid_lines fuel s :
  0 < gridSize s ->
  (Z.to_nat (Z.max (width s) (height s)) < fuel)%nat ->
  (∃ s1,
     drawGrid fuel s = Some s1
     ∧ grid s1
       = [LineStyle 1 0 (QArith_base.Qmake 1 2)]
         ++ flat_map (fun x => [MoveTo x 0; LineTo x (height s)])
              (stops (width s) (gridSize s))
         ++ flat_map (fun y => [MoveTo 0 y; LineTo (width s) y])
              (stops (height s) (gridSize s))
         ++ [StrokePath]
     ∧ levelData s1 = levelData s ∧ selectedTile s1 = selectedTile s)
  ∧ (∀ v limit, v ∈ stops limit (gridSize s)
       <-> ∃ i, v = i * gridSize s ∧ 0 <= i ∧ v < limit).
Proof.
  intros Hg Hfuel. split; [|intros v limit; by apply stops_spec].
  unfold drawGrid. rewrite !lines_from_zero by lia. simpl. eauto.
Qed.

Lemma drawGrid_lines_witness :
  0 < gridSize (LevelDemo.canvas None 2)
  ∧ (Z.to_nat (Z.max (width (LevelDemo.canvas None 2))
                 (height (LevelDemo.canvas None 2))) < 9)%nat
  ∧ ∃ s1,
      drawGrid 9 (LevelDemo.canvas None 2) = Some s1
      ∧ grid s1
        = [LineStyle 1 0 (QArith_base.Qmake 1 2)]
          ++ flat_map (fun x => [MoveTo x 0; LineTo x 6]) [0; 2; 4; 6]
          ++ flat_map (fun y => [MoveTo 0 y; LineTo 8 y]) [0; 2; 4]
          ++ [StrokePath]
      ∧ levelData s1 = levelData (LevelDemo.canvas None 2)
      ∧ selectedTile s1 = selectedTile (LevelDemo.canvas None 2).
Proof.
  assert (0 < gridSize (LevelDemo.canvas None 2)) as Hg by (simpl; lia).
  assert (Z.to_nat (Z.max (width (LevelDemo.canvas None 2))
                      (height (LevelDemo.canvas None 2))) < 9)%nat as Hfuel
    by (simpl; lia).
  split; [exact Hg|]. split; [exact Hfuel|].
  exact (proj1 (drawGrid_lines 9 (LevelDemo.canvas None 2) Hg Hfuel)).
Defined.

(** X19: on a scene with a positive width or height the constructor of the
    editor returns exactly when the configured grid size is not negative: a
    negative grid size makes a loop of [drawGrid] step away from its bound
    for ever, and a grid size of zero is replaced by 32. *)
Theorem constructor_returns_unless_negative w h config_tilesets config_gridSize :
  0 < w ∨ 0 < h ->
  (∃ fuel s, constructor fuel w h config_tilesets config_gridSize = Some s)
  <-> ¬ ∃ g, config_gridSize = Some g ∧ g < 0.
Proof.
  intros Hwh.
  set (g := gridSize_or_default config_gridSize).
  assert (g ≠ 0) as Hg0.
  { subst g. unfold gridSize_or_default.
    destruct config_gridSize; [case_decide|]; lia. }
  assert ((∃ g', config_gridSize = Some g' ∧ g' < 0) <-> g < 0) as ->.
  { subst g. unfold gridSize_or_default. split.
    - intros (g' & -> & Hn). rewrite decide_False by lia. done.
    - destruct config_gridSize as [g'|]; [|lia].
      case_decide; [lia|]. eauto. }
  unfold constructor, initializeEditor. fold g. clearbody g. split.
  - intros (fuel & s & Hs) Hneg.
    assert (drawGrid fuel
              {| width := w; height := h; tilesets := config_tilesets;
                 gridSize := g; levelData := empty_array;
                 selectedTile := None; pointerDown := false; grid := [];
                 tilesetContainer := []; input_listeners := [];
                 buttons := []; downloads := []; console := [] |} = None)
      as Hnone.
    { unfold drawGrid. simpl. destruct Hwh as [Hw|Hh].
      - by rewrite (lines_forever fuel 0 w) by lia.
      - rewrite (lines_forever fuel 0 h) by lia.
        by destruct (lines fuel 0 w g _). }
    by rewrite Hnone in Hs.
  - intros Hpos. exists (S (Z.to_nat (Z.max w h))). unfold drawGrid.
    cbn [width height gridSize].
    rewrite !lines_from_zero by lia. simpl. eauto.
Qed.

Lemma constructor_returns_unless_negative_witness :
  (0 < 8 ∨ 0 < 6)
  ∧ ((∃ fuel s, constructor fuel 8 6 [("tiles", LevelDemo.grass)] (Some (-2))
                = Some s)
     <-> ¬ ∃ g, Some (-2) = Some g ∧ g < 0).
Proof.
  assert (0 < 8 ∨ 0 < 6) as Hwh by (left; lia).
  split; [exact Hwh|].
  exact (constructor_returns_unless_negative 8 6 [("tiles", LevelDemo.grass)]
           (Some (-2)) Hwh).
Defined.

End LevelFacts.

Module LevelManagerFacts.

Import LevelEditor LevelManager.

Lemma same_config_refl s : same_config s s.
Proof. by unfold same_config. Qed.

Lemma same_config_drawable s s' t :
  same_config s s' -> drawable s t -> drawable s' t.
Proof.
  intros (_ & _ & Hts) (ts & image & Hf & Hi). exists ts, image.
  split; [|done]. unfold find_tileset in *. by rewrite Hts.
Qed.

Lemma draw_tile_drawable s t i :
  drawable s t ->
  ∃ ts image,
    find_tileset t s = Some ts
    ∧ tiles ts !! Z.to_nat (t - firstgid ts) = Some image
    ∧ draw_tile (Some t) i s = Returned (add_sprite (sprite_of s i image) s).
Proof.
  intros (ts & image & Hf & Hi). exists ts, image.
  split; [done|]. split; [done|]. unfold draw_tile. by rewrite Hf, Hi.
Qed.

Lemma draw_tile_not_drawable s t i :
  ¬ drawable s t -> draw_tile (Some t) i s = Threw s.
Proof.
  intros Hn. unfold draw_tile.
  destruct (find_tileset t s) as [ts|] eqn:Hf; [|done].
  destruct (tiles ts !! _) as [image|] eqn:Hi; [|done].
  destruct Hn. by exists ts, image.
Qed.

Lemma draw_tile_returned c i s s1 :
  draw_tile c i s = Returned s1 ->
  same_config s s1 ∧ levelData s1 = levelData s
  ∧ match c with
    | None => sprites s1 = sprites s
    | Some t =>
        ∃ ts image,
          find_tileset t s = Some ts
          ∧ tiles ts !! Z.to_nat (t - firstgid ts) = Some image
          ∧ sprites s1 = sprites s ++ [sprite_of s i image]
    end.
Proof.
  unfold draw_tile. destruct c as [t|].
  - destruct (find_tileset t s) as [ts|] eqn:Hf; [|done].
    destruct (tiles ts !! _) as [image|] eqn:Hi; [|done].
    intros [= <-]. split; [by unfold same_config|]. split; [done|].
    by exists ts, image.
  - intros [= <-]. by unfold same_config.
Qed.

Lemma draw_tile_threw c i s s1 : draw_tile c i s = Threw s1 -> s1 = s.
Proof.
  unfold draw_tile. destruct c as [t|]; [|done].
  destruct (find_tileset t s) as [ts|]; [|congruence].
  destruct (tiles ts !! _); [done|congruence].
Qed.

Lemma drawLevel_from_app l1 l2 i s :
  drawLevel_from (l1 ++ l2) i s
  = match drawLevel_from l1 i s with
    | Returned s1 => drawLevel_from l2 (i + Z.of_nat (length l1)) s1
    | Threw s1 => Threw s1
    end.
Proof.
  revert i s. induction l1 as [|c l1 IH]; intros i s; simpl.
  - by replace (i + Z.of_nat 0) with i by lia.
  - destruct (draw_tile c i s); [|done]. rewrite IH.
    by replace (i + 1 + Z.of_nat (length l1))
      with (i + Z.of_nat (S (length l1))) by lia.
Qed.

(** Drawing a level whose tiles are all drawable: the sprites that are
    added depend on the configuration only. *)
Lemma drawLevel_from_drawable l i s :
  Forall (fun c => ∀ t, c = Some t -> drawable s t) l ->
  ∃ drawn,
    length drawn = length (tiles_of l)
    ∧ ∀ s', same_config s s' ->
        ∃ s1, drawLevel_from l i s' = Returned s1
              ∧ sprites s1 = sprites s' ++ drawn
              ∧ same_config s s1 ∧ levelData s1 = levelData s'.
Proof.
  intros Hall. revert i. induction Hall as [|c l Hc Hall IH]; intros i.
  - exists []. split; [done|]. intros s' Hs'. exists s'.
    by rewrite app_nil_r.
  - destruct (IH (i + 1)) as (drawn & Hlen & Hdrawn). destruct c as [t|].
    + destruct (Hc t eq_refl) as (ts & image & Hf & Hi).
      exists (sprite_of s i image :: drawn).
      split; [simpl; by rewrite Hlen|].
      intros s' Hs'. pose proof Hs' as (Hw & Hg & Hts).
      assert (draw_tile (Some t) i s'
              = Returned (add_sprite (sprite_of s i image) s')) as Hd.
      { unfold draw_tile, find_tileset in *. rewrite Hts, Hf, Hi.
        unfold sprite_of. by rewrite Hw, Hg. }
      destruct (Hdrawn (add_sprite (sprite_of s i image) s'))
        as (s1 & Hs1 & Hsp & Hc1 & Hl1); [done|].
      exists s1. cbn [drawLevel_from]. rewrite Hd, Hs1. rewrite Hsp.
      cbn [add_sprite sprites]. by rewrite <- app_assoc.
    + exists drawn. split; [done|]. intros s' Hs'.
      destruct (Hdrawn s' Hs') as (s1 & Hs1 & Hsp & Hc1 & Hl1).
      exists s1. simpl. by rewrite Hs1.
Qed.

(** A level that was drawn has a sprite for each of its tiles. *)
Lemma drawLevel_from_returned l i s s1 :
  drawLevel_from l i s = Returned s1 ->
  same_config s s1 ∧ levelData s1 = levelData s
  ∧ ∃ drawn,
      sprites s1 = sprites s ++ drawn
      ∧ ∀ n t, l !! n = Some (Some t) ->
          ∃ ts image,
            find_tileset t s = Some ts
            ∧ tiles ts !! Z.to_nat (t - firstgid ts) = Some image
            ∧ sprite_of s (i + Z.of_nat n) image ∈ drawn.
Proof.
  revert i s. induction l as [|c l IH]; intros i s; simpl.
  - intros [= <-]. split; [apply same_config_refl|]. split; [done|].
    exists []. by rewrite app_nil_r.
  - destruct (draw_tile c i s) as [s0|s0] eqn:Hd; [|done]. intros Hl.
    apply draw_tile_returned in Hd as (Hc0 & Hl0 & Hsp0).
    destruct (IH _ _ Hl) as (Hc1 & Hl1 & drawn & Hsp1 & Hin).
    pose proof Hc0 as (Hw0 & Hg0 & Hts0).
    pose proof Hc1 as (Hw1 & Hg1 & Hts1).
    split; [unfold same_config; by rewrite Hw1, Hg1, Hts1|].
    split; [congruence|].
    assert (∀ n t, l !! n = Some (Some t) ->
      ∃ ts image,
        find_tileset t s = Some ts
        ∧ tiles ts !! Z.to_nat (t - firstgid ts) = Some image
        ∧ sprite_of s (i + Z.of_nat (S n)) image ∈ drawn) as Hin'.
    { intros n t Hn. destruct (Hin n t Hn) as (ts & image & Hf & Hi & Hel).
      exists ts, image. unfold find_tileset in *. rewrite <- Hts0.
      split; [done|]. split; [done|].
      replace (i + Z.of_nat (S n)) with (i + 1 + Z.of_nat n) by lia.
      unfold sprite_of in *. by rewrite <- Hw0, <- Hg0. }
    destruct c as [t0|].
    + destruct Hsp0 as (ts0 & image0 & Hf0 & Hi0 & Hsp0).
      exists (sprite_of s i image0 :: drawn).
      split; [rewrite Hsp1, Hsp0; by rewrite <- app_assoc|].
      intros [|n] t Hn; simpl in Hn.
      * injection Hn as ->. exists ts0, image0.
        split; [done|]. split; [done|].
        replace (i + Z.of_nat 0) with i by lia. left.
      * destruct (Hin' n t Hn) as (ts & image & ? & ? & ?).
        exists ts, image. split; [done|]. split; [done|]. by right.
    + exists drawn. split; [by rewrite Hsp1, Hsp0|].
      intros [|n] t Hn; simpl in Hn; [done|]. by apply Hin'.
Qed.

(** X20: [drawLevel] is not atomic.  When the level holds a tile that no
    tileset covers, or whose image its tileset does not have, after tiles
    that can all be drawn, [drawLevel] throws at that tile, and the sprites
    of the tiles before it are on the scene already. *)
Theorem drawLevel_throws_at_first_undrawable s before t after :
  levelData s = before ++ Some t :: after ->
  Forall (fun c => ∀ t', c = Some t' -> drawable s t') before ->
  ¬ drawable s t ->
  ∃ s',
    drawLevel s = Threw s'
    ∧ length (sprites s')
      = (length (sprites s) + length (tiles_of before))%nat
    ∧ sprites s `prefix_of` sprites s'
    ∧ levelData s' = levelData s.
Proof.
  intros Hl Hbefore Hn.
  destruct (drawLevel_from_drawable before 0 s Hbefore)
    as (drawn & Hlen & Hdrawn).
  destruct (Hdrawn s (same_config_refl s)) as (s1 & Hs1 & Hsp & Hc1 & Hl1).
  exists s1. unfold drawLevel. rewrite Hl, drawLevel_from_app, Hs1.
  cbn [drawLevel_from]. rewrite draw_tile_not_drawable.
  - split; [done|]. rewrite Hsp, length_app, Hlen.
    split; [done|]. split; [by eexists|]. congruence.
  - intros Hd. apply Hn. eapply same_config_drawable; [|exact Hd].
    destruct Hc1 as (? & ? & ?). unfold same_config. eauto.
Qed.

Lemma drawLevel_throws_at_first_undrawable_witness :
  levelData (LevelDemo.manager LevelDemo.broken_level)
  = LevelDemo.broken_start ++ Some 3 :: [Some 2]
  ∧ Forall (fun c => ∀ t', c = Some t' ->
              drawable (LevelDemo.manager LevelDemo.broken_level) t')
      LevelDemo.broken_start
  ∧ ¬ drawable (LevelDemo.manager LevelDemo.broken_level) 3
  ∧ ∃ s',
      drawLevel (LevelDemo.manager LevelDemo.broken_level) = Threw s'
      ∧ length (sprites s')
        = (length (sprites (LevelDemo.manager LevelDemo.broken_level))
           + length (tiles_of LevelDemo.broken_start))%nat
      ∧ sprites (LevelDemo.manager LevelDemo.broken_level)
        `prefix_of` sprites s'
      ∧ levelData s' = levelData (LevelDemo.manager LevelDemo.broken_level).
Proof.
  assert (Forall (fun c => ∀ t', c = Some t' ->
            drawable (LevelDemo.manager LevelDemo.broken_level) t')
            LevelDemo.broken_start) as Hbefore.
  { repeat constructor; intros t' [= <-].
    exists LevelDemo.grass, "tile1.png". by vm_compute. }
  assert (¬ drawable (LevelDemo.manager LevelDemo.broken_level) 3) as Hn.
  { intros (ts & image & Hf & Hi). vm_compute in Hf.
    injection Hf as <-. vm_compute in Hi. discriminate. }
  split; [reflexivity|]. split; [exact Hbefore|]. split; [exact Hn|].
  exact (drawLevel_throws_at_first_undrawable
           (LevelDemo.manager LevelDemo.broken_level)
           LevelDemo.broken_start 3 [Some 2] eq_refl Hbefore Hn).
Defined.

(** X21: [drawLevel] adds sprites and never removes any.  When every tile
    of the level can be drawn it returns with one new sprite per tile that
    is not [null], after the sprites that were there; drawing the same level
    again adds the same sprites once more, so every tile then has two. *)
Theorem drawLevel_never_clears s :
  Forall (fun c => ∀ t, c = Some t -> drawable s t) (levelData s) ->
  ∃ drawn s1 s2,
    drawLevel s = Returned s1
    ∧ sprites s1 = sprites s ++ drawn
    ∧ length drawn = length (tiles_of (levelData s))
    ∧ drawLevel s1 = Returned s2
    ∧ sprites s2 = sprites s ++ drawn ++ drawn.
Proof.
  intros Hall.
  destruct (drawLevel_from_drawable _ 0 s Hall) as (drawn & Hlen & Hdrawn).
  destruct (Hdrawn s (same_config_refl s)) as (s1 & Hs1 & Hsp1 & Hc1 & Hl1).
  destruct (Hdrawn s1 Hc1) as (s2 & Hs2 & Hsp2 & Hc2 & Hl2).
  exists drawn, s1, s2. unfold drawLevel. rewrite Hl1.
  split; [done|]. split; [done|]. split; [done|]. split; [done|].
  by rewrite Hsp2, Hsp1, <- app_assoc.
Qed.

Lemma drawLevel_never_clears_witness :
  Forall (fun c => ∀ t, c = Some t ->
            drawable (LevelDemo.manager LevelDemo.good_level) t)
    (levelData (LevelDemo.manager LevelDemo.good_level))
  ∧ ∃ drawn s1 s2,
      drawLevel (LevelDemo.manager LevelDemo.good_level) = Returned s1
      ∧ sprites s1 = sprites (LevelDemo.manager LevelDemo.good_level) ++ drawn
      ∧ length drawn
        = length (tiles_of (levelData (LevelDemo.manager LevelDemo.good_level)))
      ∧ drawLevel s1 = Returned s2
      ∧ sprites s2
        = sprites (LevelDemo.manager LevelDemo.good_level) ++ drawn ++ drawn.
Proof.
  assert (Forall (fun c => ∀ t, c = Some t ->
            drawable (LevelDemo.manager LevelDemo.good_level) t)
            (levelData (LevelDemo.manager LevelDemo.good_level))) as Hall.
  { repeat constructor; intros t [= <-].
    - exists LevelDemo.grass, "tile1.png". by vm_compute.
    - exists LevelDemo.grass, "tile2.png". by vm_compute. }
  split; [exact Hall|].
  exact (drawLevel_never_clears (LevelDemo.manager LevelDemo.good_level) Hall).
Defined.

(** X22: a tile painted in the editor comes back where it was painted.
    Paint a cell inside the canvas with a tileset whose [index] is [i], save
    the level, and load the file that [saveLevel] wrote in a manager of the
    same scale width and grid size: if [loadLevel] returns, the scene has a
    sprite at the pointer position snapped to the grid, the top left corner
    of the cell, and its texture is the image of tile [i] in the tileset of
    the manager that covers [i]. *)
Theorem saved_tile_is_drawn_where_painted e p t i file m m' :
  0 < LevelEditor.gridSize e ->
  0 <= pointer_x p < LevelEditor.width e ->
  0 <= pointer_y p ->
  tile_key e p < 2 ^ 32 - 1 ->
  array_wf (LevelEditor.levelData e) ->
  selectedTile e = Some t -> index t = Some i ->
  width m = LevelEditor.width e -> gridSize m = LevelEditor.gridSize e ->
  last (downloads (saveLevel (placeTile p e))) = Some file ->
  loadLevel file.2 m = Returned m' ->
  file.1 = "level.json"
  ∧ ∃ ts image,
      find_tileset i m = Some ts
      ∧ tiles ts !! Z.to_nat (i - firstgid ts) = Some image
      ∧ {| sprite_x := pointer_x p - pointer_x p mod LevelEditor.gridSize e;
           sprite_y := pointer_y p - pointer_y p mod LevelEditor.gridSize e;
           texture := image |} ∈ sprites m'.
Proof.
  intros Hg Hx Hy Hk Hwf Hsel Hidx Hw Hgm Hfile Hload.
  cbn [saveLevel downloads] in Hfile. rewrite last_snoc in Hfile.
  injection Hfile as <-. cbn [fst snd] in *. split; [reflexivity|].
  destruct (LevelFacts.tile_key_in_canvas e p Hg Hx Hy)
    as (Hkey & _ & _ & Hk0).
  pose proof (LevelFacts.to_json_painted e p t Hsel (proj1 (proj1 Hwf))
                (conj Hk0 Hk)) as Hat.
  rewrite Hidx in Hat.
  unfold loadLevel, drawLevel in Hload. cbn [levelData] in Hload.
  apply drawLevel_from_returned in Hload as (_ & _ & drawn & Hsp & Hin).
  destruct (Hin _ _ Hat) as (ts & image & Hf & Hi & Hel).
  exists ts, image. split; [exact Hf|]. split; [exact Hi|].
  rewrite Hsp. apply elem_of_app. right.
  set (g := LevelEditor.gridSize e) in *.
  set (W := LevelEditor.width e) in *.
  assert (0 <= pointer_x p / g <= pointer_x p) as Hcol.
  { split; [apply Z.div_pos; lia|].
    apply Z.div_le_upper_bound; [lia|]. nia. }
  assert (0 <= pointer_y p / g) as Hrow by (apply Z.div_pos; lia).
  unfold sprite_of in Hel. cbn [width gridSize] in Hel.
  rewrite Hw, Hgm in Hel.
  replace (0 + Z.of_nat (Z.to_nat (tile_key e p)))
    with (tile_key e p) in Hel by lia.
  rewrite Hkey in Hel. fold g W in Hel.
  assert (Z.rem (pointer_y p / g * W + pointer_x p / g) W = pointer_x p / g)
    as Hrem.
  { rewrite Z.rem_mod_nonneg by nia.
    symmetry. apply (Z.mod_unique _ _ (pointer_y p / g)); lia. }
  assert ((pointer_y p / g * W + pointer_x p / g) / W = pointer_y p / g)
    as Hdiv.
  { symmetry. apply (Z.div_unique _ _ _ (pointer_x p / g)); lia. }
  rewrite Hrem, Hdiv in Hel.
  pose proof (Z.div_mod (pointer_x p) g ltac:(lia)).
  pose proof (Z.div_mod (pointer_y p) g ltac:(lia)).
  replace (pointer_x p - pointer_x p mod g) with (pointer_x p / g * g) by lia.
  replace (pointer_y p - pointer_y p mod g) with (pointer_y p / g * g) by lia.
  exact Hel.
Qed.

Lemma saved_tile_is_drawn_where_painted_witness :
  0 < LevelEditor.gridSize (LevelDemo.canvas (Some LevelDemo.grass) 2)
  ∧ 0 <= pointer_x LevelDemo.at_5_3
    < LevelEditor.width (LevelDemo.canvas (Some LevelDemo.grass) 2)
  ∧ 0 <= pointer_y LevelDemo.at_5_3
  ∧ tile_key (LevelDemo.canvas (Some LevelDemo.grass) 2) LevelDemo.at_5_3
    < 2 ^ 32 - 1
  ∧ array_wf (LevelEditor.levelData (LevelDemo.canvas (Some LevelDemo.grass) 2))
  ∧ selectedTile (LevelDemo.canvas (Some LevelDemo.grass) 2)
    = Some LevelDemo.grass
  ∧ index LevelDemo.grass = Some 1
  ∧ last (downloads (saveLevel (placeTile LevelDemo.at_5_3
                                  (LevelDemo.canvas (Some LevelDemo.grass) 2))))
    = Some LevelDemo.saved_file
  ∧ loadLevel LevelDemo.saved_file.2 (LevelDemo.manager [])
    = Returned LevelDemo.loaded
  ∧ LevelDemo.saved_file.1 = "level.json"
  ∧ ∃ ts image,
      find_tileset 1 (LevelDemo.manager []) = Some ts
      ∧ tiles ts !! Z.to_nat (1 - firstgid ts) = Some image
      ∧ {| sprite_x := 5 - 5 mod 2; sprite_y := 3 - 3 mod 2;
           texture := image |} ∈ sprites LevelDemo.loaded.
Proof.
  assert (0 < LevelEditor.gridSize (LevelDemo.canvas (Some LevelDemo.grass) 2))
    as Hg by (simpl; lia).
  assert (0 <= pointer_x LevelDemo.at_5_3
          < LevelEditor.width (LevelDemo.canvas (Some LevelDemo.grass) 2))
    as Hx by (simpl; lia).
  assert (0 <= pointer_y LevelDemo.at_5_3) as Hy by (simpl; lia).
  assert (tile_key (LevelDemo.canvas (Some LevelDemo.grass) 2)
            LevelDemo.at_5_3 < 2 ^ 32 - 1) as Hk by (vm_compute; reflexivity).
  assert (last (downloads (saveLevel
                  (placeTile LevelDemo.at_5_3
                     (LevelDemo.canvas (Some LevelDemo.grass) 2))))
          = Some LevelDemo.saved_file) as Hfile by (vm_compute; reflexivity).
  assert (loadLevel LevelDemo.saved_file.2 (LevelDemo.manager [])
          = Returned LevelDemo.loaded) as Hload by (vm_compute; reflexivity).
  split; [exact Hg|]. split; [exact Hx|]. split; [exact Hy|].
  split; [exact Hk|]. split; [exact LevelFacts.empty_array_wf|].
  split; [reflexivity|]. split; [reflexivity|]. split; [exact Hfile|].
  split; [exact Hload|].
  exact (saved_tile_is_drawn_where_painted
           (LevelDemo.canvas (Some LevelDemo.grass) 2) LevelDemo.at_5_3
           LevelDemo.grass 1 LevelDemo.saved_file (LevelDemo.manager [])
           LevelDemo.loaded
           Hg Hx Hy Hk LevelFacts.empty_array_wf eq_refl eq_refl
           eq_refl eq_refl Hfile Hload).
Defined.

End LevelManagerFacts.
